(** * Zekta time series: the bucket store, its byte arena and its helpers

    A shallow embedding of the TypeScript sources

    - [helpers.private/binary-search/binary-search.ts]      ([binarySearch]),
    - [helpers.private/handle-promise-all-settled-result.ts] ([handlePromiseAllSettledResult]),
    - [helpers.private/resizeable-buffer.ts]                 ([ResizeableBuffer]),
    - [zekta-time-bucket.ts]                                 ([ZektaTimeBucket]),
    - [zekta-time-series.ts]                                 ([ZektaTimeSeries]),
    - [specializations/number/zekta-number-time-series.ts]   (the integer number types),

    followed by the properties of the specification that were checked
    against them.

    Modelling conventions.

    - JavaScript numbers that hold lengths, offsets, indexes and bucket ids
      are integers, modelled by [Z].  The code never leaves the integers that
      doubles hold exactly but at one place, the sum [id + 1] of a bucket's
      constructor, which is modelled with its rounding ([js_succ]).
    - A time stamp is a JavaScript number too.  The code only compares
      time stamps ([<=], [>=], [<], [===]), takes the sign of a difference
      of two of them, and stores them through [DataView.setFloat64] /
      [getFloat64].  Times are modelled by [Z]; the eight bytes written by
      [setFloat64] are modelled by the 64-bit little-endian two's complement
      encoding, of which only the round trip on the times a bucket accepts is
      used.  Every comparison the code makes against an infinite bound has
      the outcome it has against any finite bound outside the bucket's
      range, so infinite bounds are not represented separately.
    - Bytes are integers in [0, 256), kept in a [list Z]; value payloads are
      only ever copied.
    - An operation that may throw is a function from the state before to an
      [outcome] and the state after: what a failed call leaves behind is
      part of the model.
    - The promise queue of a bucket runs one task after the other; a task is
      modelled by its state transformer.  Timers and input/output failures
      are outside the model.
    - A buffer is its [ArrayBuffer] and the views over it.  The views over
      the bytes read from a file are fixed and may be shorter than the
      buffer behind them: [readFile] of Node answers an empty file with an
      empty view over a buffer of 64 KiB. *)

From Stdlib Require Import ZArith Lia List Bool.
From stdpp Require Import list list_numbers sorting.

Local Open Scope Z_scope.

(* ================================================================== *)
(** * Part I: definitions *)
(* ================================================================== *)

(** ** Thrown values and the state-and-exception monad *)

#[warnings="-register-all"]
Inductive error : Type :=
| SizeLimitReached                 (* new Error('Size limit reached.') *)
| RangeError_outOfBounds           (* platform: typed array / DataView access out of bounds *)
| RangeError_invalidArrayLength    (* platform: new Array(n) with n not an array length *)
| TypeError_undefined              (* platform: property access on undefined *)
| TimeOutOfRange (time : Z)        (* new RangeError(`Time out-of-range: ...`) *)
| InvalidValueLength (len : Z)     (* new Error(`Invalid value length: ...`) *)
| AggregateError (errors : list error).

Inductive outcome (A : Type) : Type :=
| Returned (a : A)
| Thrown (e : error).
Arguments Returned {A} a.
Arguments Thrown {A} e.

Definition M (S A : Type) : Type := S -> outcome A * S.

Definition ret {S A} (a : A) : M S A := fun s => (Returned a, s).
Definition throw {S A} (e : error) : M S A := fun s => (Thrown e, s).
Definition bind {S A B} (m : M S A) (k : A -> M S B) : M S B :=
  fun s => match m s with
           | (Returned a, s') => k a s'
           | (Thrown e, s') => (Thrown e, s')
           end.
Definition gets {S A} (f : S -> A) : M S A := fun s => (Returned (f s), s).
Definition modify {S} (f : S -> S) : M S unit := fun s => (Returned tt, f s).

Declare Scope js_scope.
Delimit Scope js_scope with js.
Notation "x <- m ;; k" := (bind m (fun x => k))
  (at level 100, m at next level, k at level 200, right associativity) : js_scope.
Notation "m ;; k" := (bind m (fun _ => k))
  (at level 100, k at level 200, right associativity) : js_scope.

(** [for (const x of l) body(x)]: stops at the first throw. *)
Fixpoint forEachM {S A} (body : A -> M S unit) (l : list A) : M S unit :=
  match l with
  | [] => ret tt
  | x :: l' => bind (body x) (fun _ => forEachM body l')
  end.

(** ** binary-search.ts *)

(** The [while (low <= high)] loop.  The interval [low..high] loses at least
    one index per iteration, so [length] iterations are enough
    ([binarySearch_loop_fuel]). *)
Fixpoint binarySearch_loop (fuel : nat) (compare : Z -> Z) (low high : Z) : Z :=
  match fuel with
  | O => low
  | S fuel' =>
      if low <=? high then
        let mid := (low + high) / 2 in
        let result := compare mid in
        if result =? 0 then mid
        else if result <? 0 then binarySearch_loop fuel' compare (mid + 1) high
        else binarySearch_loop fuel' compare low (mid - 1)
      else low
  end.

Definition binarySearch (length : Z) (compare : Z -> Z) : Z :=
  binarySearch_loop (Z.to_nat length) compare 0 (length - 1).

(** The comparator of the documentation: [collection[index] - value]. *)
Definition compareWith (collection : list Z) (value : Z) (index : Z) : Z :=
  nth (Z.to_nat index) collection 0 - value.

(** [collection.splice(k, 0, value)]. *)
Definition spliceIn (collection : list Z) (k : Z) (value : Z) : list Z :=
  take (Z.to_nat k) collection ++ value :: drop (Z.to_nat k) collection.

(** Inserting [value] at position [k] keeps the collection in order. *)
Definition preservesOrder (collection : list Z) (value : Z) (k : Z) : Prop :=
  0 <= k <= Z.of_nat (length collection) /\
  Sorted Z.le (spliceIn collection k value).

(** ** handle-promise-all-settled-result.ts *)

Inductive PromiseSettledResult (A : Type) : Type :=
| fulfilled (value : A)
| rejected (reason : error).
Arguments fulfilled {A} value.
Arguments rejected {A} reason.

(** [result.status === 'rejected'] *)
Definition isRejected {A} (result : PromiseSettledResult A) : bool :=
  match result with
  | fulfilled _ => false
  | rejected _ => true
  end.

(** [results.filter(result => result.status === 'rejected')], each kept
    result given by its [reason]. *)
Fixpoint rejectedReasons {A} (results : list (PromiseSettledResult A)) : list error :=
  match results with
  | [] => []
  | fulfilled _ :: rs => rejectedReasons rs
  | rejected reason :: rs => reason :: rejectedReasons rs
  end.

(** [results.map(result => result.value)]; a rejected result has no [value]
    and contributes nothing (the map only runs when there is none). *)
Fixpoint fulfilledValues {A} (results : list (PromiseSettledResult A)) : list A :=
  match results with
  | [] => []
  | fulfilled value :: rs => value :: fulfilledValues rs
  | rejected _ :: rs => fulfilledValues rs
  end.

Definition handlePromiseAllSettledResult {A}
    (results : list (PromiseSettledResult A)) : outcome (list A) :=
  let errors := rejectedReasons results in
  match errors with
  | [] => Returned (fulfilledValues results)
  | [reason] => Thrown reason
  | _ => Thrown (AggregateError errors)
  end.

(** What [Promise.allSettled] makes of a finished task. *)
Definition settle {A} (o : outcome A) : PromiseSettledResult A :=
  match o with
  | Returned a => fulfilled a
  | Thrown e => rejected e
  end.

(** ** resizeable-buffer.ts *)

(** JavaScript's 32-bit integer conversions and shifts. *)
Definition ToInt32 (x : Z) : Z :=
  let m := x mod 2 ^ 32 in if m <? 2 ^ 31 then m else m - 2 ^ 32.
Definition ToUint32 (x : Z) : Z := x mod 2 ^ 32.
(** [a << k] *)
Definition js_shl (a k : Z) : Z := ToInt32 (ToInt32 a * 2 ^ (ToUint32 k mod 32)).
(** [a >>> k] *)
Definition js_ushr (a k : Z) : Z := ToUint32 a / 2 ^ (ToUint32 k mod 32).

(** [Math.ceil(Math.log2(length) + 0.5)] for an integer [length >= 1]: the
    least [k] with [2^k >= length * sqrt 2], that is with
    [4^k >= 2 * length^2] ([ceil_log2_plus_half_spec]); no integer [length]
    makes the two sides equal.  This is the value of the expression over the
    reals.  The double-precision evaluation gives the same integer on every
    length a buffer is asked for (up to [2^32 + 1]): there
    [length * sqrt 2] stays a relative [10^-12] away from every power of
    two, four orders of magnitude more than the rounding errors. *)
Definition ceil_log2_plus_half (length : Z) : Z :=
  (Z.log2_up (2 * length * length) + 1) / 2.

(** [Math.log2(0)] is [-Infinity], which [<<] converts to [0]. *)
Definition getOptimalBufferLength (length : Z) : Z :=
  js_ushr (js_shl 1 (if 0 <? length then ceil_log2_plus_half length else 0)) 0.

Record ResizeableBuffer : Type := mkResizeableBuffer {
  rb_resizable : bool;      (* #buffer.resizable *)
  rb_maxByteLength : Z;     (* #buffer.maxByteLength *)
  rb_bytes : list Z;        (* the bytes that #bytes and #view show *)
  rb_length : Z             (* #length *)
}.

(** [#bytes.length], which is [#view.byteLength] too: the two views are made
    over the same bytes of [#buffer]. *)
Definition viewByteLength (rb : ResizeableBuffer) : Z := Z.of_nat (length (rb_bytes rb)).

(** [#buffer.byteLength]: the capacity.  The views of resizable storage are
    made without a length and show all of it, whatever its length becomes.
    A plain [ArrayBuffer] keeps the length it was made with, which is its
    [maxByteLength] too; views made over a part of it are fixed, and no
    longer than it is. *)
Definition byteLength (rb : ResizeableBuffer) : Z :=
  if rb_resizable rb then viewByteLength rb
  else Z.max (viewByteLength rb) (rb_maxByteLength rb).

Definition initialByteLength : Z := 0x100.
Definition MAX_BYTES : Z := 0x100000000.

(** [new ResizeableBuffer()] *)
Definition ResizeableBuffer_new : ResizeableBuffer :=
  {| rb_resizable := true;
     rb_maxByteLength := MAX_BYTES;
     rb_bytes := replicate (Z.to_nat initialByteLength) 0;
     rb_length := 0 |}.

(** [new ResizeableBuffer(bytes.buffer, bytes.byteOffset, bytes.byteLength)]
    for [bytes] a view over a plain [ArrayBuffer] of [bufferByteLength]
    bytes: [#buffer] is the whole buffer, [#view] and [#bytes] show the bytes
    of [bytes] only. *)
Definition ResizeableBuffer_view (bufferByteLength : Z) (bytes : list Z) : ResizeableBuffer :=
  {| rb_resizable := false;
     rb_maxByteLength := bufferByteLength;
     rb_bytes := bytes;
     rb_length := Z.of_nat (length bytes) |}.

(** The same around bytes that fill a plain [ArrayBuffer] of their own. *)
Definition ResizeableBuffer_wrap (bytes : list Z) : ResizeableBuffer :=
  ResizeableBuffer_view (Z.of_nat (length bytes)) bytes.

Definition set_rb_length (newLength : Z) (rb : ResizeableBuffer) : ResizeableBuffer :=
  {| rb_resizable := rb_resizable rb;
     rb_maxByteLength := rb_maxByteLength rb;
     rb_bytes := rb_bytes rb;
     rb_length := newLength |}.

(** [ArrayBuffer.prototype.resize]: truncates, or extends with zero bytes. *)
Definition ArrayBuffer_resize (newByteLength : Z) (rb : ResizeableBuffer) : ResizeableBuffer :=
  {| rb_resizable := rb_resizable rb;
     rb_maxByteLength := rb_maxByteLength rb;
     rb_bytes := list.resize (Z.to_nat newByteLength) 0 (rb_bytes rb);
     rb_length := rb_length rb |}.

Definition resize (newLength : Z) : M ResizeableBuffer unit :=
  fun rb =>
    if rb_resizable rb then
      if newLength >? rb_maxByteLength rb then (Thrown SizeLimitReached, rb)
      else
        let rb1 :=
          if newLength >? byteLength rb
          then ArrayBuffer_resize
                 (Z.min (rb_maxByteLength rb) (getOptimalBufferLength newLength)) rb
          else rb in
        (Returned tt, set_rb_length newLength rb1)
    else
      if newLength >? byteLength rb then
        let maxByteLength := 0x100000000 in
        let newByteLength := Z.min maxByteLength (getOptimalBufferLength newLength) in
        let currentBytes := rb_bytes rb in
        (* #buffer, #view and #bytes are replaced before the copy *)
        if Z.of_nat (length currentBytes) >? newByteLength then
          (Thrown RangeError_outOfBounds,
           {| rb_resizable := true;
              rb_maxByteLength := maxByteLength;
              rb_bytes := replicate (Z.to_nat newByteLength) 0;
              rb_length := rb_length rb |})
        else
          (Returned tt,
           {| rb_resizable := true;
              rb_maxByteLength := maxByteLength;
              rb_bytes := currentBytes ++
                          replicate (Z.to_nat newByteLength - length currentBytes)%nat 0;
              rb_length := newLength |})
      else (Returned tt, set_rb_length newLength rb).

(** ** Typed-array and DataView primitives on the bytes of a buffer *)

Definition TIME_MIN : Z := - 2 ^ 63.
Definition TIME_MAX : Z := 2 ^ 63.

(** The eight bytes of a time stamp, least significant first. *)
Definition encodeF64 (time : Z) : list Z := Z_to_little_endian 8 8 time.
Definition decodeF64 (bs : list Z) : Z :=
  let u := little_endian_to_Z 8 bs in
  if u <? TIME_MAX then u else u - 2 ^ 64.

(** [view.getFloat64(byteOffset, true)].  The platform raises a RangeError
    when the eight bytes do not lie inside the view; the model reads what
    is there.  The two agree whenever [byteOffset + 8 <= view.byteLength],
    which holds for every read the bucket makes as long as its logical
    length does not exceed the length of its views. *)
Definition DataView_getFloat64 (bytes : list Z) (byteOffset : Z) : Z :=
  decodeF64 (take 8 (drop (Z.to_nat byteOffset) bytes)).

(** [bytes.slice(start, end)] for [0 <= start <= end]. *)
Definition Uint8Array_slice (bytes : list Z) (start end_ : Z) : list Z :=
  take (Z.to_nat (end_ - start)) (drop (Z.to_nat start) bytes).

(** [bytes.subarray(0, end)]. *)
Definition Uint8Array_subarray0 (bytes : list Z) (end_ : Z) : list Z :=
  take (Z.to_nat end_) bytes.

(** Overwrites [bytes] from [offset] on with [source]; [offset] and the end
    of [source] lie inside [bytes]. *)
Definition overwrite (offset : Z) (source bytes : list Z) : list Z :=
  take (Z.to_nat offset) bytes ++ source ++
  drop (Z.to_nat offset + length source)%nat bytes.

Definition set_rb_bytes (bytes : list Z) (rb : ResizeableBuffer) : ResizeableBuffer :=
  {| rb_resizable := rb_resizable rb;
     rb_maxByteLength := rb_maxByteLength rb;
     rb_bytes := bytes;
     rb_length := rb_length rb |}.

(** [view.setFloat64(byteOffset, time, true)] *)
Definition DataView_setFloat64 (byteOffset : Z) (time : Z) : M ResizeableBuffer unit :=
  fun rb =>
    if (byteOffset <? 0) || (byteOffset + 8 >? viewByteLength rb)
    then (Thrown RangeError_outOfBounds, rb)
    else (Returned tt, set_rb_bytes (overwrite byteOffset (encodeF64 time) (rb_bytes rb)) rb).

(** [bytes.set(source, offset)] *)
Definition Uint8Array_set (source : list Z) (offset : Z) : M ResizeableBuffer unit :=
  fun rb =>
    if (offset <? 0) || (Z.of_nat (length source) + offset >? viewByteLength rb)
    then (Thrown RangeError_outOfBounds, rb)
    else (Returned tt, set_rb_bytes (overwrite offset source (rb_bytes rb)) rb).

(** How [copyWithin] reads a relative index. *)
Definition relativeIndex (len i : Z) : Z :=
  if i <? 0 then Z.max (len + i) 0 else Z.min i len.

(** [bytes.copyWithin(target, start, end)]: moves as many bytes as fit. *)
Definition copyWithin (target start end_ : Z) (bytes : list Z) : list Z :=
  let len := Z.of_nat (length bytes) in
  let to := relativeIndex len target in
  let from := relativeIndex len start in
  let final := relativeIndex len end_ in
  let count := Z.min (final - from) (len - to) in
  if 0 <? count
  then take (Z.to_nat to) bytes ++
       take (Z.to_nat count) (drop (Z.to_nat from) bytes) ++
       drop (Z.to_nat (to + count)) bytes
  else bytes.

Definition Uint8Array_copyWithin (target start end_ : Z) : M ResizeableBuffer unit :=
  modify (fun rb => set_rb_bytes (copyWithin target start end_ (rb_bytes rb)) rb).

(** ** zekta-time-bucket.ts *)

Record TimeSeriesEntry : Type := mkEntry {
  entry_time : Z;
  entry_value : list Z
}.

(** The options of [select] and [delete] once normalised. *)
Record TimeSeriesSelectOptions : Type := mkSelectOptions {
  opt_asc : bool;
  opt_from : Z;
  opt_to : Z
}.

Record TimeSeriesTimeRange : Type := mkTimeRange {
  range_from : Z;
  range_to : Z
}.

(** Modelled from the spec: [sortTimeSeriesEntries] is imported from the
    package [@thingmate/time-series], whose source is not part of this
    repository; the specification has the batch sorted by time.  The
    comparator orders by ascending time. *)
Definition sortTimeSeriesEntries (a b : TimeSeriesEntry) : Z :=
  entry_time a - entry_time b.

(** [Array.prototype.sort(compare)], which is stable. *)
Fixpoint Array_sort_place {A} (compare : A -> A -> Z) (x : A) (l : list A) : list A :=
  match l with
  | [] => [x]
  | y :: l' =>
      if compare x y <=? 0 then x :: y :: l'
      else y :: Array_sort_place compare x l'
  end.

Definition Array_sort {A} (compare : A -> A -> Z) (l : list A) : list A :=
  foldr (Array_sort_place compare) [] l.

Definition timeRange : Z := 512.

(** [Math.floor(time / 512)] *)
Definition getIdFromTime (time : Z) : Z := time / timeRange.
Definition getTimeFromId (id : Z) : Z := id * timeRange.

(** [Number.isSafeInteger] *)
Definition isSafeInteger (n : Z) : bool :=
  (- (2 ^ 53 - 1) <=? n) && (n <=? 2 ^ 53 - 1).

(** The state of a bucket together with the file at its [#path].  The queue
    and the two timers are left out. *)
Record ZektaTimeBucket : Type := mkBucket {
  b_id : Z;                             (* #id *)
  b_valueByteLength : Z;                (* #valueByteLength *)
  b_data : option ResizeableBuffer;     (* #data; None is undefined *)
  b_requireFlush : bool;                (* #requireFlush *)
  b_file : option (list Z)              (* <bucketsPath>/<id>.bucket; None when absent *)
}.

(** [new ZektaTimeBucket({ bucketsPath, id, valueByteLength })], next to
    whatever lies at its path. *)
Definition ZektaTimeBucket_new (id valueByteLength : Z) (file : option (list Z))
  : ZektaTimeBucket :=
  {| b_id := id;
     b_valueByteLength := valueByteLength;
     b_data := None;
     b_requireFlush := false;
     b_file := file |}.

(** [id + 1], a sum of doubles, for an id that is an integer.  The sum is
    exact from [-2^53] to below [2^53].  Further out, below [2^54] in absolute
    value, the doubles are the even integers and the sum lies half-way between
    two of them: it rounds to the one whose significand is even.  From [2^54]
    on in absolute value the sum rounds back to [id]. *)
Definition js_succ (id : Z) : Z :=
  if (- 2 ^ 53 <=? id) && (id <? 2 ^ 53) then id + 1
  else if Z.abs id <? 2 ^ 54 then (if Z.even (id / 2) then id else id + 2)
  else id.

(** [#from] and [#to], as the constructor computes them.  Its
    [console.assert] on the id does not throw. *)
Definition bucket_from (b : ZektaTimeBucket) : Z := getTimeFromId (b_id b).
Definition bucket_to (b : ZektaTimeBucket) : Z := getTimeFromId (js_succ (b_id b)).
Definition timeByteLength : Z := 8.
Definition entryByteLength (b : ZektaTimeBucket) : Z :=
  timeByteLength + b_valueByteLength b.

Definition set_b_data (data : option ResizeableBuffer) (b : ZektaTimeBucket)
  : ZektaTimeBucket :=
  {| b_id := b_id b;
     b_valueByteLength := b_valueByteLength b;
     b_data := data;
     b_requireFlush := b_requireFlush b;
     b_file := b_file b |}.

Definition set_b_requireFlush (flag : bool) (b : ZektaTimeBucket) : ZektaTimeBucket :=
  {| b_id := b_id b;
     b_valueByteLength := b_valueByteLength b;
     b_data := b_data b;
     b_requireFlush := flag;
     b_file := b_file b |}.

Definition set_b_file (file : option (list Z)) (b : ZektaTimeBucket) : ZektaTimeBucket :=
  {| b_id := b_id b;
     b_valueByteLength := b_valueByteLength b;
     b_data := b_data b;
     b_requireFlush := b_requireFlush b;
     b_file := file |}.

(** [this.#data!].  Every use runs inside [runDataOperation], after
    [loadData], which leaves the data present ([loadData_is_Some]); the
    other branch is never taken. *)
Definition dataOf (b : ZektaTimeBucket) : ResizeableBuffer :=
  match b_data b with
  | Some data => data
  | None => ResizeableBuffer_new
  end.

(** Runs an operation of the buffer on [this.#data!]. *)
Definition onData {A} (m : M ResizeableBuffer A) : M ZektaTimeBucket A :=
  fun b => let '(r, data') := m (dataOf b) in (r, set_b_data (Some data') b).

Definition isTimeInRange (b : ZektaTimeBucket) (time : Z) : bool :=
  (bucket_from b <=? time) && (time <? bucket_to b).

Definition throwIfTimeOutOfRange (time : Z) : M ZektaTimeBucket unit :=
  fun b =>
    if negb (isTimeInRange b time) then (Thrown (TimeOutOfRange time), b)
    else (Returned tt, b).

Definition throwIfValueLengthIsInvalid (value : list Z) : M ZektaTimeBucket unit :=
  fun b =>
    if negb (Z.of_nat (length value) =? b_valueByteLength b)
    then (Thrown (InvalidValueLength (Z.of_nat (length value))), b)
    else (Returned tt, b).

(** The length of the [ArrayBuffer] behind the bytes that [readFile] of
    [node:fs/promises] returns.  A file of known size is read into a buffer
    of that size.  A file of size 0 is read as one of unknown size, into a
    buffer of 64 KiB, and the result is the view of the bytes read: none. *)
Definition readFile_bufferByteLength (bytes : list Z) : Z :=
  if Z.of_nat (length bytes) =? 0 then 0x10000 else Z.of_nat (length bytes).

(** [readFile], with ENOENT recovered as an empty buffer. *)
Definition loadData : M ZektaTimeBucket unit :=
  modify (fun b =>
    match b_data b with
    | Some _ => b
    | None =>
        match b_file b with
        | Some bytes =>
            set_b_data
              (Some (ResizeableBuffer_view (readFile_bufferByteLength bytes) bytes)) b
        | None => set_b_data (Some ResizeableBuffer_new) b
        end
    end).

(** The callback handed to a task. *)
Definition requireFlush : M ZektaTimeBucket unit :=
  modify (set_b_requireFlush true).

Definition runDataOperation {A} (task : M ZektaTimeBucket unit -> M ZektaTimeBucket A)
  : M ZektaTimeBucket A :=
  (loadData ;; task requireFlush)%js.

(** The bucket once [#loadData] has run. *)
Definition loaded (b : ZektaTimeBucket) : ZektaTimeBucket := snd (loadData b).

Definition getTime (b : ZektaTimeBucket) (entryByteOffset : Z) : Z :=
  DataView_getFloat64 (rb_bytes (dataOf b)) entryByteOffset.

Definition setTime (entryByteOffset : Z) (time : Z) : M ZektaTimeBucket unit :=
  onData (DataView_setFloat64 entryByteOffset time).

Definition getValue (b : ZektaTimeBucket) (entryByteOffset : Z) : list Z :=
  let valueByteOffset := entryByteOffset + timeByteLength in
  Uint8Array_slice (rb_bytes (dataOf b)) valueByteOffset
                   (valueByteOffset + b_valueByteLength b).

Definition setValue (entryByteOffset : Z) (value : list Z) : M ZektaTimeBucket unit :=
  onData (Uint8Array_set value (entryByteOffset + timeByteLength)).

(** [this.#data!.length / this.#entryByteLength] is passed to [binarySearch]
    as it is; on a length that is no multiple of the entry size the search
    visits the indexes it visits on the rounded-down quotient. *)
Definition getInsertionByteOffset (b : ZektaTimeBucket) (time : Z) : Z :=
  if rb_length (dataOf b) =? 0 then 0
  else
    let lastEntryByteOffset := rb_length (dataOf b) - entryByteLength b in
    if time >=? getTime b lastEntryByteOffset then rb_length (dataOf b)
    else if time <=? getTime b 0 then 0
    else
      binarySearch (rb_length (dataOf b) / entryByteLength b)
                   (fun index => getTime b (index * entryByteLength b) - time)
      * entryByteLength b.

(** The first loop of [#getTimeRangeByteOffsets]; every iteration lowers the
    offset by the entry size. *)
Fixpoint walkBackward (fuel : nat) (b : ZektaTimeBucket) (from : Z)
    (fromEntryByteOffset : Z) : Z :=
  match fuel with
  | O => fromEntryByteOffset
  | S fuel' =>
      if (fromEntryByteOffset >=? entryByteLength b) &&
         (from =? getTime b (fromEntryByteOffset - entryByteLength b))
      then walkBackward fuel' b from (fromEntryByteOffset - entryByteLength b)
      else fromEntryByteOffset
  end.

(** The second loop; every iteration raises the offset by the entry size. *)
Fixpoint walkForward (fuel : nat) (b : ZektaTimeBucket) (to : Z)
    (toEntryByteOffset : Z) : Z :=
  match fuel with
  | O => toEntryByteOffset
  | S fuel' =>
      if (toEntryByteOffset <? rb_length (dataOf b)) &&
         (to =? getTime b toEntryByteOffset)
      then walkForward fuel' b to (toEntryByteOffset + entryByteLength b)
      else toEntryByteOffset
  end.

Definition getTimeRangeByteOffsets (b : ZektaTimeBucket) (range : TimeSeriesTimeRange)
  : TimeSeriesTimeRange :=
  let from := range_from range in
  let to := range_to range in
  let fromEntryByteOffset := getInsertionByteOffset b from in
  let fromEntryByteOffset :=
    walkBackward (Z.to_nat fromEntryByteOffset) b from fromEntryByteOffset in
  let toEntryByteOffset := getInsertionByteOffset b to in
  let toEntryByteOffset :=
    walkForward (Z.to_nat (rb_length (dataOf b) - toEntryByteOffset)) b to
                toEntryByteOffset in
  {| range_from := fromEntryByteOffset; range_to := toEntryByteOffset |}.

Definition pushRaw (time : Z) (value : list Z) : M ZektaTimeBucket Z :=
  (insertByteOffset <- gets (fun b => getInsertionByteOffset b time) ;;
   entryByteLength <- gets entryByteLength ;;
   length <- gets (fun b => rb_length (dataOf b)) ;;
   onData (resize (length + entryByteLength)) ;;
   length <- gets (fun b => rb_length (dataOf b)) ;;
   onData (Uint8Array_copyWithin (insertByteOffset + entryByteLength)
                                 insertByteOffset length) ;;
   setTime insertByteOffset time ;;
   setValue insertByteOffset value ;;
   ret insertByteOffset)%js.

Definition push (time : Z) (value : list Z) : M ZektaTimeBucket unit :=
  runDataOperation (fun requireFlush =>
    throwIfTimeOutOfRange time ;;
    throwIfValueLengthIsInvalid value ;;
    pushRaw time value ;;
    requireFlush)%js.

(** The caller's array next to the bucket: [insert] sorts it in place. *)
Definition withEntries {A} (m : M ZektaTimeBucket A)
  : M (list TimeSeriesEntry * ZektaTimeBucket) A :=
  fun '(entries, b) => let '(r, b') := m b in (r, (entries, b')).

(** The body of the loop of [insert], for [entries[i]]. *)
Definition insert_step (entry : TimeSeriesEntry)
  : M (list TimeSeriesEntry * ZektaTimeBucket) unit :=
  (let time := entry_time entry in
   let value := entry_value entry in
   withEntries (throwIfTimeOutOfRange time) ;;
   withEntries (throwIfValueLengthIsInvalid value) ;;
   _ <- withEntries (pushRaw time value) ;;
   ret tt)%js.

Definition insert : M (list TimeSeriesEntry * ZektaTimeBucket) unit :=
  (withEntries loadData ;;
   entries <- gets fst ;;
   if Z.of_nat (length entries) =? 0 then ret tt
   else
     modify (fun '(entries, b) => (Array_sort sortTimeSeriesEntries entries, b)) ;;
     entries <- gets fst ;;
     forEachM insert_step entries ;;
     withEntries requireFlush)%js.

Definition entryAt (b : ZektaTimeBucket) (entryByteOffset : Z) : TimeSeriesEntry :=
  {| entry_time := getTime b entryByteOffset;
     entry_value := getValue b entryByteOffset |}.

Definition select (options : TimeSeriesSelectOptions)
  : M ZektaTimeBucket (list TimeSeriesEntry) :=
  let asc := opt_asc options in
  let from := opt_from options in
  let to := opt_to options in
  fun b =>
    if (from >=? bucket_to b) || (to <? bucket_from b) then (Returned [], b)
    else
      runDataOperation (fun _ b =>
        let offsets := getTimeRangeByteOffsets b {| range_from := from; range_to := to |} in
        let fromEntryByteOffset := range_from offsets in
        let toEntryByteOffset := range_to offsets in
        let span := toEntryByteOffset - fromEntryByteOffset in
        (* new Array(span / entryByteLength): the quotient has to be a
           non-negative integer (its upper limit, 2^32 - 1 entries, is out
           of reach of a buffer that exists) *)
        if (entryByteLength b =? 0) || negb (span mod entryByteLength b =? 0)
           || (span / entryByteLength b <? 0)
        then (Thrown RangeError_invalidArrayLength, b)
        else
          let entries_length := span / entryByteLength b in
          if asc then
            (Returned
               (map (fun entryIndex =>
                       entryAt b (fromEntryByteOffset + entryIndex * entryByteLength b))
                    (seqZ 0 entries_length)), b)
          else
            (Returned
               (map (fun entryIndex =>
                       entryAt b (toEntryByteOffset - entryByteLength b
                                  - entryIndex * entryByteLength b))
                    (seqZ 0 entries_length)), b)) b.

Definition delete (options : TimeSeriesTimeRange) : M ZektaTimeBucket unit :=
  let from := range_from options in
  let to := range_to options in
  fun b =>
    if (from >=? bucket_to b) || (to <? bucket_from b) then (Returned tt, b)
    else
      runDataOperation (fun requireFlush =>
        offsets <- gets (fun b => getTimeRangeByteOffsets b
                                    {| range_from := from; range_to := to |}) ;;
        let fromEntryByteOffset := range_from offsets in
        let toEntryByteOffset := range_to offsets in
        if fromEntryByteOffset =? toEntryByteOffset then ret tt
        else
          length <- gets (fun b => rb_length (dataOf b)) ;;
          onData (Uint8Array_copyWithin fromEntryByteOffset toEntryByteOffset length) ;;
          length <- gets (fun b => rb_length (dataOf b)) ;;
          onData (resize (length - (toEntryByteOffset - fromEntryByteOffset))) ;;
          requireFlush)%js b.

(** [drop()]; the name [drop] is the list function's. *)
Definition drop_ : M ZektaTimeBucket unit :=
  runDataOperation (fun requireFlush =>
    length <- gets (fun b => rb_length (dataOf b)) ;;
    if length =? 0 then ret tt
    else
      onData (resize 0) ;;
      requireFlush)%js.

(** [flush({ unload })].  It runs on the queue without loading the data.
    [mkdir] creates directories only; [rm] with [force] removes the file if
    there is one; [writeFile] replaces its content. *)
Definition flush (unload : bool) : M ZektaTimeBucket unit :=
  fun b =>
    let written :=
      if b_requireFlush b then
        match b_data b with
        | None => (Thrown TypeError_undefined, b)
        | Some data =>
            let b1 :=
              if rb_length data =? 0
              then set_b_file None b
              else set_b_file
                     (Some (Uint8Array_subarray0 (rb_bytes data) (rb_length data))) b in
            (Returned tt, set_b_requireFlush false b1)
        end
      else (Returned tt, b) in
    match written with
    | (Thrown e, b') => (Thrown e, b')
    | (Returned _, b') =>
        if unload then (Returned tt, set_b_data None b') else (Returned tt, b')
    end.

(** ** zekta-time-series.ts: range selection *)

Record ZektaTimeSeries : Type := mkSeries {
  s_valueByteLength : Z;                 (* #valueByteLength *)
  s_buckets : list ZektaTimeBucket       (* #buckets *)
}.

Definition set_s_buckets (buckets : list ZektaTimeBucket) (s : ZektaTimeSeries)
  : ZektaTimeSeries :=
  {| s_valueByteLength := s_valueByteLength s; s_buckets := buckets |}.

(** [this.#buckets[indexInArray].id]; the searches only ask for indexes
    below the length. *)
Definition bucketIdAt (s : ZektaTimeSeries) (indexInArray : Z) : Z :=
  match s_buckets s !! Z.to_nat indexInArray with
  | Some b => b_id b
  | None => 0
  end.

Definition getTimeRangeBucketIndexesInArray (s : ZektaTimeSeries)
    (range : TimeSeriesTimeRange) : TimeSeriesTimeRange :=
  let fromBucketIndex := getIdFromTime (range_from range) in
  let toBucketIndex := getIdFromTime (range_to range) in
  let buckets_length := Z.of_nat (length (s_buckets s)) in
  {| range_from :=
       binarySearch buckets_length
         (fun indexInArray => bucketIdAt s indexInArray - fromBucketIndex);
     range_to :=
       Z.min buckets_length
         (binarySearch buckets_length
            (fun indexInArray => bucketIdAt s indexInArray - toBucketIndex) + 1) |}.

(** Runs a task of [this.#buckets[i]]. *)
Definition onBucket {A} (i : Z) (m : M ZektaTimeBucket A) : M ZektaTimeSeries A :=
  fun s =>
    if i <? 0 then (Thrown TypeError_undefined, s)
    else
      match s_buckets s !! Z.to_nat i with
      | Some b =>
          let '(r, b') := m b in
          (r, set_s_buckets (<[Z.to_nat i := b']> (s_buckets s)) s)
      | None => (Thrown TypeError_undefined, s)
      end.

(** [await Promise.allSettled(promises)]: every task runs to its end, the
    outcomes are kept in the order of the tasks. *)
Fixpoint allSettled {S A} (promises : list (M S A)) (s : S)
  : list (PromiseSettledResult A) * S :=
  match promises with
  | [] => ([], s)
  | p :: ps =>
      let '(r, s1) := p s in
      let '(rs, s2) := allSettled ps s1 in
      (settle r :: rs, s2)
  end.

Definition Series_select (options : TimeSeriesSelectOptions)
  : M ZektaTimeSeries (list TimeSeriesEntry) :=
  let asc := opt_asc options in
  let from := opt_from options in
  let to := opt_to options in
  fun s =>
    let indexes := getTimeRangeBucketIndexesInArray s
                     {| range_from := from; range_to := to |} in
    let fromIndexInArray := range_from indexes in
    let toIndexInArray := range_to indexes in
    let visited :=
      if asc then seqZ fromIndexInArray (toIndexInArray - fromIndexInArray)
      else reverse (seqZ fromIndexInArray (toIndexInArray - fromIndexInArray)) in
    let promises := map (fun i => onBucket i (select options)) visited in
    let '(results, s') := allSettled promises s in
    match handlePromiseAllSettledResult results with
    | Returned lists => (Returned (concat lists), s')
    | Thrown e => (Thrown e, s')
    end.

(** The claim of the specification about [binarySearch], for one collection
    and one value. *)
Definition returnsSmallestInsertionIndex (collection : list Z) (value : Z) : Prop :=
  let k := binarySearch (Z.of_nat (length collection)) (compareWith collection value) in
  preservesOrder collection value k /\
  forall j, preservesOrder collection value j -> k <= j.

(** The largest length for which the shift of [getOptimalBufferLength]
    stays below 32 bits: the integer part of [2^30.5]. *)
Definition GROWTH_LIMIT : Z := 1518500249.

(** What the program builds: resizable storage has the maximum [2^32]. *)
Definition programBuffer (rb : ResizeableBuffer) : Prop :=
  rb_resizable rb = true -> rb_maxByteLength rb = MAX_BYTES.

(** The claim of the specification about a growing [resize], for one buffer
    and one length. *)
Definition growsAsSpecified (rb : ResizeableBuffer) (newLength : Z) : Prop :=
  byteLength rb < newLength <= MAX_BYTES ->
  exists rb',
    resize newLength rb = (Returned tt, rb') /\
    rb_length rb' = newLength /\
    byteLength rb' =
      Z.max initialByteLength
            (Z.min MAX_BYTES (2 ^ ceil_log2_plus_half newLength)) /\
    byteLength rb <= byteLength rb'.

(** ** The entries a loaded bucket holds *)

Definition encodeEntry (e : TimeSeriesEntry) : list Z :=
  encodeF64 (entry_time e) ++ entry_value e.

Definition encodeEntries (es : list TimeSeriesEntry) : list Z :=
  concat (map encodeEntry es).

Definition timesOf (es : list TimeSeriesEntry) : list Z := map entry_time es.

(** The views show the whole of the storage. *)
Definition viewsSpanBuffer (d : ResizeableBuffer) : Prop :=
  viewByteLength d = byteLength d.

(** The logical length lies within the views, the storage is the program's,
    and the views show all of it or, as over a file read empty, nothing. *)
Definition wellFormedBuffer (d : ResizeableBuffer) : Prop :=
  0 <= rb_length d <= viewByteLength d /\
  programBuffer d /\
  (rb_resizable d = true -> byteLength d <= MAX_BYTES) /\
  (viewsSpanBuffer d \/ viewByteLength d = 0).

(** An entry the bucket accepts. *)
Definition acceptable (b : ZektaTimeBucket) (e : TimeSeriesEntry) : Prop :=
  isTimeInRange b (entry_time e) = true /\
  Z.of_nat (length (entry_value e)) = b_valueByteLength b.

(** [stores b es]: the bucket [b] is loaded and the first [length] bytes of
    its data are the records of [es], one after the other; the entries lie
    in the bucket's range (I2) in ascending order of time (I1), and the
    logical length is their number times the record size (I3). *)
Definition stores (b : ZektaTimeBucket) (es : list TimeSeriesEntry) : Prop :=
  isSafeInteger (b_id b) = true /\
  0 <= b_valueByteLength b /\
  (exists d,
     b_data b = Some d /\
     wellFormedBuffer d /\
     rb_length d = Z.of_nat (length es) * entryByteLength b /\
     take (Z.to_nat (rb_length d)) (rb_bytes d) = encodeEntries es) /\
  Forall (acceptable b) es /\
  StronglySorted Z.le (timesOf es).

(** The entries of [es] whose time lies in [[from, to]]. *)
Definition inTimeRange (from to : Z) (e : TimeSeriesEntry) : bool :=
  (from <=? entry_time e) && (entry_time e <=? to).

(** Positions in a list of times [ts] sorted in ascending order. *)

(** The items before [k] are at most [t], the items from [k] on at least [t]. *)
Definition separatesAt (ts : list Z) (k : nat) (t : Z) : Prop :=
  (k <= length ts)%nat /\
  (forall i, (i < k)%nat -> nth i ts 0 <= t) /\
  (forall i, (k <= i < length ts)%nat -> t <= nth i ts 0).

(** [k] is the first position whose item is at least [t]. *)
Definition lowerBoundAt (ts : list Z) (k : nat) (t : Z) : Prop :=
  (k <= length ts)%nat /\
  (forall i, (i < k)%nat -> nth i ts 0 < t) /\
  (forall i, (k <= i < length ts)%nat -> t <= nth i ts 0).

(** [k] is the first position whose item is above [t]. *)
Definition upperBoundAt (ts : list Z) (k : nat) (t : Z) : Prop :=
  (k <= length ts)%nat /\
  (forall i, (i < k)%nat -> nth i ts 0 <= t) /\
  (forall i, (k <= i < length ts)%nat -> t < nth i ts 0).

(** A sequence of [push] calls, one after the other, while they succeed. *)
Definition pushAll (entries : list TimeSeriesEntry) : M ZektaTimeBucket unit :=
  forEachM (fun e => push (entry_time e) (entry_value e)) entries.

(** What [insert] throws at an entry the bucket does not accept. *)
Definition rejection (b : ZektaTimeBucket) (e : TimeSeriesEntry) : error :=
  if negb (isTimeInRange b (entry_time e)) then TimeOutOfRange (entry_time e)
  else InvalidValueLength (Z.of_nat (length (entry_value e))).

(** The claim of the specification about the dirty flag, for one operation
    on one bucket. *)
Definition leavesRequireFlushSet (operation : M ZektaTimeBucket unit)
    (b : ZektaTimeBucket) : Prop :=
  forall b', operation b = (Returned tt, b') -> b_requireFlush b' = true.

(** What the file of a bucket holds when it agrees with the data [d]. *)
Definition persisted (d : ResizeableBuffer) : option (list Z) :=
  if rb_length d =? 0 then None
  else Some (Uint8Array_subarray0 (rb_bytes d) (rb_length d)).

(** The claim of the specification about [flush], for one loaded bucket. *)
Definition flushPersistsData (b : ZektaTimeBucket) : Prop :=
  forall d unload b',
    b_data b = Some d ->
    flush unload b = (Returned tt, b') ->
    b_file b' = persisted d.

(** ** Buckets used as examples *)

(** Bucket 0 with one-byte values after
    [push(5,[1]); push(5,[2]); push(5,[3]); push(7,[9]); push(3,[8])]. *)
Definition bucketWithTies : ZektaTimeBucket :=
  snd (pushAll [mkEntry 5 [1]; mkEntry 5 [2]; mkEntry 5 [3]; mkEntry 7 [9]; mkEntry 3 [8]]
         (ZektaTimeBucket_new 0 1 None)).

(** A new bucket 0 with no file, once its data is loaded. *)
Definition emptyBucket : ZektaTimeBucket :=
  snd (loadData (ZektaTimeBucket_new 0 1 None)).

(** The same bucket after [insert([(600,[1]), (3,[2]), (1,[5])])], which
    throws at time 600. *)
Definition bucketAfterFailedInsert : ZektaTimeBucket :=
  snd (snd (insert ([mkEntry 600 [1]; mkEntry 3 [2]; mkEntry 1 [5]],
                    ZektaTimeBucket_new 0 1 None))).

(** A settled result with its values, if any, in the opposite order. *)
Definition reverseSettled {A} (r : PromiseSettledResult (list A))
  : PromiseSettledResult (list A) :=
  match r with
  | fulfilled l => fulfilled (reverse l)
  | rejected e => rejected e
  end.

(** An outcome with its list, if any, in the opposite order. *)
Definition reverseOutcome {A} (o : outcome (list A)) : outcome (list A) :=
  match o with
  | Returned l => Returned (reverse l)
  | Thrown e => Thrown e
  end.

(** A series of three buckets: bucket 0 with ties, bucket 1 with one entry,
    bucket 2 with two entries. *)
Definition seriesOfThree : ZektaTimeSeries :=
  {| s_valueByteLength := 1;
     s_buckets :=
       [bucketWithTies;
        snd (push 600 [7] (ZektaTimeBucket_new 1 1 None));
        snd (pushAll [mkEntry 1100 [7]; mkEntry 1030 [6]] (ZektaTimeBucket_new 2 1 None))] |}.

(** ** binary-search.ts: the iterations of the loop *)

(** The number of times the body of the [while] loop of [binarySearch]
    runs. *)
Fixpoint binarySearch_iterations (fuel : nat) (compare : Z -> Z) (low high : Z) : nat :=
  match fuel with
  | O => O
  | S fuel' =>
      if low <=? high then
        let mid := (low + high) / 2 in
        let result := compare mid in
        if result =? 0 then 1%nat
        else if result <? 0 then S (binarySearch_iterations fuel' compare (mid + 1) high)
        else S (binarySearch_iterations fuel' compare low (mid - 1))
      else O
  end.

(** ** zekta-time-bucket.ts: the assertion of [flush] *)

(** What [flush] asserts before it writes
    ([console.assert(this.#data !== undefined)]): a bucket whose dirty flag
    is set has its data loaded. *)
Definition flushAssertionHolds (b : ZektaTimeBucket) : Prop :=
  b_requireFlush b = true -> b_data b <> None.

(** ** zekta-time-series.ts: the other operations *)



(** [concurrentPromises(promises)] *)
Definition concurrentPromises {S A} (promises : list (M S A)) : M S unit :=
  fun s =>
    let '(results, s') := allSettled promises s in
    match handlePromiseAllSettledResult results with
    | Returned _ => (Returned tt, s')
    | Thrown e => (Thrown e, s')
    end.


(** The indexes of [this.#buckets.map(...)]. *)
Definition bucketIndexes (s : ZektaTimeSeries) : list Z :=
  seqZ 0 (Z.of_nat (length (s_buckets s))).

(** [drop()] of the series. *)
Definition Series_drop : M ZektaTimeSeries unit :=
  fun s => concurrentPromises (map (fun i => onBucket i drop_) (bucketIndexes s)) s.

(** [flush(options)] of the series. *)
Definition Series_flush (unload : bool) : M ZektaTimeSeries unit :=
  fun s => concurrentPromises (map (fun i => onBucket i (flush unload)) (bucketIndexes s)) s.

(** The ids of the buckets of a series, in the order of [#buckets]. *)
Definition bucketIds (s : ZektaTimeSeries) : list Z := map b_id (s_buckets s).

(** I4: the buckets are kept in strictly ascending order of id. *)
Definition bucketsInOrder (s : ZektaTimeSeries) : Prop :=
  StronglySorted Z.lt (bucketIds s).

(** [seriesStores s ess]: the buckets of [s] are in order (I4), have the
    value length of the series, and store, once loaded, the entries [ess],
    bucket by bucket. *)
Definition seriesStores (s : ZektaTimeSeries) (ess : list (list TimeSeriesEntry)) : Prop :=
  bucketsInOrder s /\
  Forall (fun b => b_valueByteLength b = s_valueByteLength s) (s_buckets s) /\
  Forall2 (fun b es => stores (loaded b) es) (s_buckets s) ess.





(** ** specializations/number/zekta-number-time-series.ts *)

Inductive ZektaNumberTimeSeriesType : Type :=
| u8 | i8 | u16 | i16 | u32 | i32 | f32 | f64.

Definition zektaNumberTimeSeriesTypeToByteLength (type : ZektaNumberTimeSeriesType) : Z :=
  match type with
  | u8 | i8 => 1
  | u16 | i16 => 2
  | u32 | i32 | f32 => 4
  | f64 => 8
  end.

(** The six integer types.  The two float types store IEEE 754 bytes, which
    this development does not model; their converters are left out. *)
Inductive ZektaIntegerTimeSeriesType : Type :=
| U8 | I8 | U16 | I16 | U32 | I32.

Definition numberType (type : ZektaIntegerTimeSeriesType) : ZektaNumberTimeSeriesType :=
  match type with
  | U8 => u8 | I8 => i8 | U16 => u16 | I16 => i16 | U32 => u32 | I32 => i32
  end.

(** [new Uint8Array(n)] once [setUintN(0, input, true)] or
    [setIntN(0, input, true)] has written an integer [input] to it: both
    store the low [n] bytes of its two's complement, least significant
    first. *)
Definition DataView_setInteger (n : Z) (input : Z) : list Z :=
  Z_to_little_endian n 8 input.

(** [getUintN(0, true)] on a view of [input]; a RangeError when [input] has
    fewer than [n] bytes. *)
Definition DataView_getUint (n : Z) (input : list Z) : outcome Z :=
  if Z.of_nat (length input) <? n then Thrown RangeError_outOfBounds
  else Returned (little_endian_to_Z 8 (take (Z.to_nat n) input)).

(** [getIntN(0, true)] *)
Definition DataView_getInt (n : Z) (input : list Z) : outcome Z :=
  if Z.of_nat (length input) <? n then Thrown RangeError_outOfBounds
  else
    let u := little_endian_to_Z 8 (take (Z.to_nat n) input) in
    Returned (if u <? 2 ^ (8 * n - 1) then u else u - 2 ^ (8 * n)).

(** The integer cases of [zektaNumberTimeSeriesTypeToNumberToUint8Array],
    on integer inputs. *)
Definition zektaNumberTimeSeriesTypeToNumberToUint8Array
    (type : ZektaIntegerTimeSeriesType) (input : Z) : list Z :=
  match type with
  | U8 => DataView_setInteger 1 input
  | I8 => DataView_setInteger 1 input
  | U16 => DataView_setInteger 2 input
  | I16 => DataView_setInteger 2 input
  | U32 => DataView_setInteger 4 input
  | I32 => DataView_setInteger 4 input
  end.

(** The integer cases of [zektaNumberTimeSeriesTypeToUint8ArrayToNumber];
    [console.assert] has no effect on the result. *)
Definition zektaNumberTimeSeriesTypeToUint8ArrayToNumber
    (type : ZektaIntegerTimeSeriesType) (input : list Z) : outcome Z :=
  match type with
  | U8 => DataView_getUint 1 input
  | I8 => DataView_getInt 1 input
  | U16 => DataView_getUint 2 input
  | I16 => DataView_getInt 2 input
  | U32 => DataView_getUint 4 input
  | I32 => DataView_getInt 4 input
  end.

(** The integers a type represents. *)
Definition representable (type : ZektaIntegerTimeSeriesType) (n : Z) : bool :=
  match type with
  | U8 => (0 <=? n) && (n <? 2 ^ 8)
  | I8 => (- 2 ^ 7 <=? n) && (n <? 2 ^ 7)
  | U16 => (0 <=? n) && (n <? 2 ^ 16)
  | I16 => (- 2 ^ 15 <=? n) && (n <? 2 ^ 15)
  | U32 => (0 <=? n) && (n <? 2 ^ 32)
  | I32 => (- 2 ^ 31 <=? n) && (n <? 2 ^ 31)
  end.






(* ================================================================== *)
(** * Part II: properties *)
(* ================================================================== *)

(** ** Binary search *)

Section BinarySearch.

Variable compare : Z -> Z.
Variable len : Z.
Hypothesis compare_monotone :
  forall i j, 0 <= i -> i <= j -> j < len -> compare i <= compare j.

Lemma binarySearch_loop_spec (fuel : nat) : forall low high,
  0 <= low -> high < len -> low <= high + 1 ->
  (forall i, 0 <= i < low -> compare i < 0) ->
  (forall i, high < i < len -> 0 < compare i) ->
  (Z.to_nat (high - low + 1) <= fuel)%nat ->
  let k := binarySearch_loop fuel compare low high in
  (low <= k <= high /\ compare k = 0) \/
  (low <= k <= high + 1 /\
   (forall i, 0 <= i < k -> compare i < 0) /\
   (forall i, k <= i < len -> 0 < compare i)).
Proof using compare_monotone.
  induction fuel as [|fuel IH]; intros low high Hlow Hhigh Hle Hbelow Habove Hfuel; simpl.
  - right. assert (low = high + 1) by lia. subst low.
    repeat split; try lia; auto. intros i Hi. apply Habove. lia.
  - destruct (Z.leb_spec low high) as [Hlh|Hlh].
    + assert (Hmid : low <= (low + high) / 2 <= high).
      { split; [apply Z.div_le_lower_bound | apply Z.div_le_upper_bound]; lia. }
      set (mid := (low + high) / 2) in *.
      destruct (Z.eqb_spec (compare mid) 0) as [Hz|Hnz].
      * left. split; [lia | exact Hz].
      * destruct (Z.ltb_spec (compare mid) 0) as [Hneg|Hpos].
        -- assert (Hb' : forall i, 0 <= i < mid + 1 -> compare i < 0).
           { intros i Hi. destruct (Z.le_gt_cases low i); [|apply Hbelow; lia].
             pose proof (compare_monotone i mid). lia. }
           destruct (IH (mid + 1) high ltac:(lia) Hhigh ltac:(lia) Hb' Habove ltac:(lia))
             as [[Hk Hc]|[Hk Hc]].
           ++ left. split; [lia | exact Hc].
           ++ right. split; [lia | exact Hc].
        -- assert (Ha' : forall i, mid - 1 < i < len -> 0 < compare i).
           { intros i Hi. destruct (Z.le_gt_cases i high); [|apply Habove; lia].
             pose proof (compare_monotone mid i). lia. }
           destruct (IH low (mid - 1) Hlow ltac:(lia) ltac:(lia) Hbelow Ha' ltac:(lia))
             as [[Hk Hc]|[Hk Hc]].
           ++ left. split; [lia | exact Hc].
           ++ right. split; [lia | exact Hc].
    + right. assert (low = high + 1) by lia. subst low.
      repeat split; try lia; auto. intros i Hi. apply Habove. lia.
Qed.

(** What the search returns on a monotone comparator: either an index
    where the comparator vanishes, or the boundary between the negative
    and the positive indexes. *)
Lemma binarySearch_spec :
  0 <= len ->
  let k := binarySearch len compare in
  (0 <= k < len /\ compare k = 0) \/
  (0 <= k <= len /\
   (forall i, 0 <= i < k -> compare i < 0) /\
   (forall i, k <= i < len -> 0 < compare i)).
Proof using compare_monotone.
  intros Hlen. unfold binarySearch.
  destruct (binarySearch_loop_spec (Z.to_nat len) 0 (len - 1)
              ltac:(lia) ltac:(lia) ltac:(lia) ltac:(intros; lia) ltac:(intros; lia)
              ltac:(lia)) as [[Hk Hc]|[Hk Hc]].
  - left. split; [lia | exact Hc].
  - right. split; [lia | exact Hc].
Qed.

(** In both cases the returned index separates the indexes whose item is
    at most the key from those whose item is at least the key. *)
Lemma binarySearch_separates :
  0 <= len ->
  let k := binarySearch len compare in
  0 <= k <= len /\
  (forall i, 0 <= i < k -> compare i <= 0) /\
  (forall i, k <= i < len -> 0 <= compare i).
Proof using compare_monotone.
  intros Hlen. cbv zeta.
  destruct (binarySearch_spec Hlen) as [[Hk Hc]|[Hk [Hb Ha]]].
  - set (k := binarySearch len compare) in *.
    split; [lia|]. split; intros i Hi.
    + pose proof (compare_monotone i k). lia.
    + pose proof (compare_monotone k i). lia.
  - split; [lia|]. split; intros i Hi.
    + specialize (Hb i Hi). lia.
    + specialize (Ha i Hi). lia.
Qed.

End BinarySearch.

(** More iterations than the length of the interval change nothing: the
    loop has ended by itself. *)
Lemma binarySearch_loop_fuel compare : forall fuel fuel' low high,
  (Z.to_nat (high - low + 1) <= fuel)%nat ->
  (Z.to_nat (high - low + 1) <= fuel')%nat ->
  binarySearch_loop fuel compare low high = binarySearch_loop fuel' compare low high.
Proof.
  induction fuel as [|fuel IH]; intros fuel' low high H H'.
  - destruct fuel'; simpl; [reflexivity|].
    destruct (Z.leb_spec low high); [lia | reflexivity].
  - destruct fuel' as [|fuel']; simpl.
    + destruct (Z.leb_spec low high); [lia | reflexivity].
    + destruct (Z.leb_spec low high) as [Hlh|]; [|reflexivity].
      assert (Hmid : low <= (low + high) / 2 <= high).
      { split; [apply Z.div_le_lower_bound | apply Z.div_le_upper_bound]; lia. }
      destruct (_ =? 0); [reflexivity|].
      destruct (_ <? 0); apply IH; lia.
Qed.

(** ** Sorted lists of numbers, by index *)

Lemma StronglySorted_nth (ts : list Z) :
  StronglySorted Z.le ts ->
  forall i j, (i <= j)%nat -> (j < length ts)%nat -> nth i ts 0 <= nth j ts 0.
Proof.
  induction 1 as [|t ts Hss IH Hall]; intros i j Hij Hj; simpl in *; [lia|].
  destruct i as [|i], j as [|j]; try lia.
  - rewrite Forall_forall in Hall. apply Hall, nth_elem_of. lia.
  - apply IH; lia.
Qed.

Lemma nth_take_lt (ts : list Z) (k i : nat) :
  (i < k)%nat -> nth i (take k ts) 0 = nth i ts 0.
Proof. intros. rewrite !nth_lookup, lookup_take_lt by lia. reflexivity. Qed.

Lemma nth_drop_add (ts : list Z) (k i : nat) :
  nth i (drop k ts) 0 = nth (k + i) ts 0.
Proof. rewrite !nth_lookup, lookup_drop. reflexivity. Qed.

Lemma elem_of_nth (ts : list Z) (x : Z) :
  x ∈ ts -> exists i, (i < length ts)%nat /\ nth i ts 0 = x.
Proof.
  intros [i Hi]%list_elem_of_lookup_1. exists i. split.
  - eapply lookup_lt_Some; eauto.
  - by apply nth_lookup_Some.
Qed.

(** Splicing [v] in at [k] keeps a sorted list sorted exactly when [k]
    separates the items at most [v] from the items at least [v]. *)
Lemma StronglySorted_splice (ts : list Z) (k : nat) (v : Z) :
  StronglySorted Z.le ts ->
  (k <= length ts)%nat ->
  (forall i, (i < k)%nat -> nth i ts 0 <= v) ->
  (forall i, (k <= i < length ts)%nat -> v <= nth i ts 0) ->
  StronglySorted Z.le (take k ts ++ v :: drop k ts).
Proof.
  intros Hss Hk Hbelow Habove.
  rewrite <- (take_drop k ts) in Hss.
  apply StronglySorted_app in Hss as (Hcross & Hl & Hr).
  apply StronglySorted_app_2; [|exact Hl|].
  - intros x1 x2 H1 H2.
    assert (Hx1 : x1 <= v).
    { apply elem_of_nth in H1 as (i & Hi & <-).
      rewrite length_take in Hi. rewrite nth_take_lt by lia. apply Hbelow. lia. }
    apply elem_of_cons in H2 as [->|H2]; [exact Hx1|].
    apply elem_of_nth in H2 as (i & Hi & <-).
    rewrite length_drop in Hi. rewrite nth_drop_add.
    etransitivity; [exact Hx1|]. apply Habove. lia.
  - apply StronglySorted_cons. split; [|exact Hr].
    apply Forall_forall. intros x Hx.
    apply elem_of_nth in Hx as (i & Hi & <-).
    rewrite length_drop in Hi. rewrite nth_drop_add. apply Habove. lia.
Qed.

Lemma StronglySorted_splice_inv (ts : list Z) (k : nat) (v : Z) :
  (k <= length ts)%nat ->
  StronglySorted Z.le (take k ts ++ v :: drop k ts) ->
  (forall i, (i < k)%nat -> nth i ts 0 <= v) /\
  (forall i, (k <= i < length ts)%nat -> v <= nth i ts 0).
Proof.
  intros Hk Hss. apply StronglySorted_app in Hss as (Hcross & _ & Hr).
  apply StronglySorted_cons in Hr as [Hr _]. rewrite Forall_forall in Hr.
  split; intros i Hi.
  - apply Hcross; [|left].
    rewrite <- (nth_take_lt ts k i) by lia. apply nth_elem_of.
    rewrite length_take. lia.
  - apply Hr. replace i with (k + (i - k))%nat by lia.
    rewrite <- nth_drop_add. apply nth_elem_of. rewrite length_drop. lia.
Qed.

Lemma compareWith_monotone (collection : list Z) (value : Z) :
  Sorted Z.le collection ->
  forall i j, 0 <= i -> i <= j -> j < Z.of_nat (length collection) ->
  compareWith collection value i <= compareWith collection value j.
Proof.
  intros Hs i j Hi Hij Hj. unfold compareWith.
  apply Sorted_StronglySorted in Hs; [|exact _].
  pose proof (StronglySorted_nth _ Hs (Z.to_nat i) (Z.to_nat j)). lia.
Qed.

Lemma preservesOrder_iff (collection : list Z) (value k : Z) :
  Sorted Z.le collection ->
  preservesOrder collection value k <->
  0 <= k <= Z.of_nat (length collection) /\
  (forall i, 0 <= i < k -> nth (Z.to_nat i) collection 0 <= value) /\
  (forall i, k <= i < Z.of_nat (length collection) ->
             value <= nth (Z.to_nat i) collection 0).
Proof.
  intros Hs. apply Sorted_StronglySorted in Hs; [|exact _].
  unfold preservesOrder, spliceIn. split.
  - intros [Hk Hsp]. split; [exact Hk|].
    apply Sorted_StronglySorted in Hsp; [|exact _].
    apply StronglySorted_splice_inv in Hsp as [Hb Ha]; [|lia].
    split; intros i Hi; [apply Hb | apply Ha]; lia.
  - intros (Hk & Hb & Ha). split; [exact Hk|].
    apply StronglySorted_Sorted, StronglySorted_splice; [exact Hs|lia| |].
    + intros i Hi. specialize (Hb (Z.of_nat i)). rewrite Nat2Z.id in Hb. apply Hb. lia.
    + intros i Hi. specialize (Ha (Z.of_nat i)). rewrite Nat2Z.id in Ha. apply Ha. lia.
Qed.

(** C7, as the code has it.  On a sorted collection [binarySearch] returns
    an index in [[0, length]] at which the key can be inserted with the
    order preserved; the index is the smallest such one unless the search
    met an item equal to the key, in which case it is the index of that
    item. *)
Theorem binarySearch_insertion_index (collection : list Z) (value : Z) :
  Sorted Z.le collection ->
  let k := binarySearch (Z.of_nat (length collection)) (compareWith collection value) in
  preservesOrder collection value k /\
  ((k < Z.of_nat (length collection) /\ nth (Z.to_nat k) collection 0 = value) \/
   (forall j, preservesOrder collection value j -> k <= j)).
Proof.
  intros Hs. cbv zeta.
  pose proof (binarySearch_separates _ _ (compareWith_monotone collection value Hs)
                ltac:(lia)) as (Hk & Hb & Ha).
  pose proof (binarySearch_spec _ _ (compareWith_monotone collection value Hs)
                ltac:(lia)) as Hcases.
  set (k := binarySearch _ _) in *. cbv zeta in Hcases.
  split.
  - apply preservesOrder_iff; [exact Hs|]. split; [exact Hk|].
    split; intros i Hi.
    + specialize (Hb i Hi). unfold compareWith in Hb. lia.
    + specialize (Ha i Hi). unfold compareWith in Ha. lia.
  - destruct Hcases as [[Hk' Hc]|(_ & Hlt & _)].
    + left. unfold compareWith in Hc. lia.
    + right. intros j Hj. apply preservesOrder_iff in Hj as (Hj & Hjb & Hja); [|exact Hs].
      destruct (Z.le_gt_cases k j) as [|Hjk]; [assumption|].
      specialize (Hlt j ltac:(lia)). specialize (Hja j ltac:(lia)).
      unfold compareWith in Hlt. lia.
Qed.

Lemma binarySearch_insertion_index_witness :
  preservesOrder [1; 2; 3; 4; 5] 2
    (binarySearch 5 (compareWith [1; 2; 3; 4; 5] 2)).
Proof.
  apply (binarySearch_insertion_index [1; 2; 3; 4; 5] 2).
  repeat constructor; lia.
Defined.

(** C7, as the specification words it, fails on a run of equal items: the
    search stops at the midpoint where it meets the key, while index 0
    preserves the order too. *)
Lemma binarySearch_not_smallest : ~ returnsSmallestInsertionIndex [5; 5; 5] 5.
Proof.
  intros [_ Hmin].
  assert (H0 : preservesOrder [5; 5; 5] 5 0).
  { split; [simpl; lia|]. unfold spliceIn. simpl. repeat constructor; lia. }
  specialize (Hmin 0 H0). vm_compute in Hmin. apply Hmin. reflexivity.
Qed.

(** ** The settled fan-out helper *)

Lemma rejectedReasons_fulfilled {A} (values : list A) :
  rejectedReasons (map fulfilled values) = [].
Proof. induction values; simpl; auto. Qed.

Lemma fulfilledValues_fulfilled {A} (values : list A) :
  fulfilledValues (map fulfilled values) = values.
Proof. induction values; simpl; congruence. Qed.

Lemma rejectedReasons_app {A} (rs1 rs2 : list (PromiseSettledResult A)) :
  rejectedReasons (rs1 ++ rs2) = rejectedReasons rs1 ++ rejectedReasons rs2.
Proof.
  induction rs1 as [|[v|e] rs1 IH]; simpl; auto. by rewrite IH.
Qed.

Lemma fulfilledValues_app {A} (rs1 rs2 : list (PromiseSettledResult A)) :
  fulfilledValues (rs1 ++ rs2) = fulfilledValues rs1 ++ fulfilledValues rs2.
Proof.
  induction rs1 as [|[v|e] rs1 IH]; simpl; auto. by rewrite IH.
Qed.

Lemma elem_of_rejectedReasons {A} (results : list (PromiseSettledResult A)) reason :
  reason ∈ rejectedReasons results <-> rejected reason ∈ results.
Proof.
  induction results as [|[v|e] rs IH]; simpl.
  - split; intros H; inversion H.
  - rewrite IH. split; [by right|]. intros H. by inversion H; subst.
  - rewrite !elem_of_cons, IH. split; intros [H|H]; auto; left; congruence.
Qed.

(** The number of failures among the settled results. *)
Lemma length_rejectedReasons {A} (results : list (PromiseSettledResult A)) :
  length (rejectedReasons results) = length (List.filter isRejected results).
Proof.
  induction results as [|[v|e] rs IH]; simpl; auto.
Qed.

(** C9.  No failure: the values, in order.  One failure, wherever it is:
    its reason is thrown as it is.  Two failures or more: an
    [AggregateError] that carries the reasons of all failures, in the order
    of the results. *)
Theorem handlePromiseAllSettledResult_cases {A} :
  (forall values : list A,
     handlePromiseAllSettledResult (map fulfilled values) = Returned values) /\
  (forall (before after : list A) reason,
     handlePromiseAllSettledResult
       (map fulfilled before ++ rejected reason :: map fulfilled after)
     = Thrown reason) /\
  (forall results : list (PromiseSettledResult A),
     (2 <= length (List.filter isRejected results))%nat ->
     handlePromiseAllSettledResult results
     = Thrown (AggregateError (rejectedReasons results)) /\
     (forall reason, reason ∈ rejectedReasons results <-> rejected reason ∈ results) /\
     length (rejectedReasons results)
     = length (List.filter isRejected results)).
Proof.
  split; [|split].
  - intros values. unfold handlePromiseAllSettledResult.
    by rewrite rejectedReasons_fulfilled, fulfilledValues_fulfilled.
  - intros before after reason. unfold handlePromiseAllSettledResult.
    rewrite rejectedReasons_app. simpl. by rewrite !rejectedReasons_fulfilled.
  - intros results Hn. rewrite <- length_rejectedReasons in *.
    split; [|split; [apply elem_of_rejectedReasons | reflexivity]].
    unfold handlePromiseAllSettledResult.
    destruct (rejectedReasons results) as [|e1 [|e2 es]]; simpl in Hn; try lia.
    reflexivity.
Qed.

Lemma handlePromiseAllSettledResult_cases_witness :
  handlePromiseAllSettledResult
    [rejected (TimeOutOfRange 600); fulfilled 1; rejected SizeLimitReached]
  = Thrown (AggregateError [TimeOutOfRange 600; SizeLimitReached]).
Proof.
  refine (proj1 (proj2 (proj2 (@handlePromiseAllSettledResult_cases Z)) _ _)).
  rewrite <- length_rejectedReasons. simpl. lia.
Defined.

(** ** The byte arena *)

Lemma ceil_log2_plus_half_spec (n : Z) :
  0 < n ->
  let k := ceil_log2_plus_half n in
  0 < k /\ 4 ^ (k - 1) < 2 * n * n <= 4 ^ k.
Proof.
  intros Hn. unfold ceil_log2_plus_half. cbv zeta.
  assert (Hm : 1 < 2 * n * n) by nia.
  pose proof (Z.log2_up_spec _ Hm) as [Hlo Hhi].
  pose proof (Z.log2_up_pos _ Hm) as Hj.
  set (j := Z.log2_up (2 * n * n)) in *.
  assert (H4 : forall e, 0 <= e -> 4 ^ e = 2 ^ (2 * e)).
  { intros e He. rewrite Z.pow_mul_r by lia. reflexivity. }
  destruct (Z.even j) eqn:Heven.
  - apply Z.even_spec in Heven as [i ->].
    replace ((2 * i + 1) / 2) with i by (apply Z.div_unique with 1; lia).
    split; [lia|]. rewrite !H4 by lia. split; [|exact Hhi].
    eapply Z.le_lt_trans; [|exact Hlo]. apply Z.pow_le_mono_r; lia.
  - assert (Hodd : Z.odd j = true) by (rewrite <- Z.negb_even, Heven; reflexivity).
    apply Z.odd_spec in Hodd as [i ->].
    replace ((2 * i + 1 + 1) / 2) with (i + 1) by (apply Z.div_unique with 0; lia).
    split; [lia|]. rewrite !H4 by lia. split.
    + replace (2 * (i + 1 - 1)) with (Z.pred (2 * i + 1)) by lia. exact Hlo.
    + etransitivity; [exact Hhi|]. apply Z.pow_le_mono_r; lia.
Qed.

Lemma ToUint32_ToInt32 (x : Z) : ToUint32 (ToInt32 x) = x mod 2 ^ 32.
Proof.
  unfold ToUint32, ToInt32. cbv zeta.
  destruct (_ <? _).
  - apply Z.mod_mod. lia.
  - replace (x mod 2 ^ 32 - 2 ^ 32) with (x mod 2 ^ 32 + (-1) * 2 ^ 32) by lia.
    rewrite Z_mod_plus_full. apply Z.mod_mod. lia.
Qed.

(** The shift count of [<<] is taken modulo 32. *)
Lemma getOptimalBufferLength_eq (n : Z) :
  0 < n ->
  getOptimalBufferLength n = 2 ^ (ceil_log2_plus_half n mod 32).
Proof.
  intros Hn. unfold getOptimalBufferLength.
  destruct (Z.ltb_spec 0 n); [|lia].
  set (k := ceil_log2_plus_half n).
  unfold js_ushr, js_shl. rewrite ToUint32_ToInt32.
  assert (Hc : ToUint32 k mod 32 = k mod 32).
  { unfold ToUint32. apply Z.mod_mod_divide. exists (2 ^ 27). reflexivity. }
  assert (H0 : ToUint32 0 mod 32 = 0) by reflexivity.
  rewrite Hc, H0. change (ToInt32 1) with 1. rewrite Z.mul_1_l, Z.pow_0_r, Z.div_1_r.
  pose proof (Z.mod_pos_bound k 32 ltac:(lia)) as Hb.
  apply Z.mod_small. split; [apply Z.pow_nonneg; lia|].
  apply Z.pow_lt_mono_r; lia.
Qed.

(** Below the limit the chosen capacity is the half-step power of two, which
    holds the requested length and stays under [2^32]. *)
Lemma getOptimalBufferLength_small (n : Z) :
  0 < n <= GROWTH_LIMIT ->
  getOptimalBufferLength n = 2 ^ ceil_log2_plus_half n /\
  n <= getOptimalBufferLength n < MAX_BYTES.
Proof.
  intros [Hn Hlim]. rewrite getOptimalBufferLength_eq by exact Hn.
  pose proof (ceil_log2_plus_half_spec n Hn) as (Hk & Hlo & Hhi).
  set (k := ceil_log2_plus_half n) in *. cbv zeta in *.
  assert (Hk31 : k <= 31).
  { destruct (Z.le_gt_cases k 31) as [|Hgt]; [assumption|exfalso].
    assert (4 ^ 31 <= 4 ^ (k - 1)) by (apply Z.pow_le_mono_r; lia).
    unfold GROWTH_LIMIT in Hlim.
    assert (2 * n * n <= 2 * 1518500249 * 1518500249) by nia.
    assert (2 * 1518500249 * 1518500249 < 4 ^ 31) by reflexivity. lia. }
  rewrite Z.mod_small by lia. split; [reflexivity|]. split.
  - destruct (Z.le_gt_cases n (2 ^ k)) as [|Hgt]; [assumption|exfalso].
    assert (4 ^ k = 2 ^ k * 2 ^ k).
    { rewrite <- Z.pow_mul_l. reflexivity. }
    assert (0 < 2 ^ k) by (apply Z.pow_pos_nonneg; lia). nia.
  - unfold MAX_BYTES. change 0x100000000 with (2 ^ 32).
    apply Z.pow_lt_mono_r; lia.
Qed.

(** Above it the shift wraps, and the chosen capacity is a tiny fraction of
    the requested length. *)
Lemma getOptimalBufferLength_wrapped (n : Z) :
  GROWTH_LIMIT < n ->
  0 < getOptimalBufferLength n /\ getOptimalBufferLength n * 2 ^ 30 < n.
Proof.
  intros Hlim. unfold GROWTH_LIMIT in Hlim.
  rewrite getOptimalBufferLength_eq by lia.
  pose proof (ceil_log2_plus_half_spec n ltac:(lia)) as (Hk & Hlo & Hhi).
  set (k := ceil_log2_plus_half n) in *. cbv zeta in *.
  assert (Hk32 : 32 <= k).
  { destruct (Z.le_gt_cases 32 k) as [|Hlt]; [assumption|exfalso].
    assert (4 ^ k <= 4 ^ 31) by (apply Z.pow_le_mono_r; lia).
    assert (4 ^ 31 < 2 * 1518500250 * 1518500250) by reflexivity. nia. }
  pose proof (Z.mod_pos_bound k 32 ltac:(lia)) as Hb.
  split; [apply Z.pow_pos_nonneg; lia|].
  assert (Hmod : k mod 32 <= k - 32).
  { pose proof (Z.div_mod k 32 ltac:(lia)).
    assert (1 <= k / 32) by (apply Z.div_le_lower_bound; lia). lia. }
  rewrite <- Z.pow_add_r by lia.
  assert (Hle : 2 ^ (k mod 32 + 30) <= 2 ^ (k - 2)) by (apply Z.pow_le_mono_r; lia).
  eapply Z.le_lt_trans; [exact Hle|].
  assert (H4 : 4 ^ (k - 1) = 2 ^ (k - 1) * 2 ^ (k - 1)).
  { rewrite <- Z.pow_mul_l. reflexivity. }
  assert (H2 : 2 ^ (k - 1) = 2 * 2 ^ (k - 2)).
  { replace (k - 1) with (Z.succ (k - 2)) by lia. apply Z.pow_succ_r. lia. }
  assert (0 < 2 ^ (k - 2)) by (apply Z.pow_pos_nonneg; lia).
  nia.
Qed.

Lemma viewByteLength_le (rb : ResizeableBuffer) :
  0 <= viewByteLength rb <= byteLength rb.
Proof. unfold byteLength, viewByteLength. destruct (rb_resizable rb); lia. Qed.

Lemma byteLength_nonneg (rb : ResizeableBuffer) : 0 <= byteLength rb.
Proof. pose proof (viewByteLength_le rb). lia. Qed.

Lemma byteLength_resizable (rb : ResizeableBuffer) :
  rb_resizable rb = true -> byteLength rb = viewByteLength rb.
Proof. unfold byteLength. intros ->. reflexivity. Qed.

Lemma viewsSpanBuffer_resizable (d : ResizeableBuffer) :
  rb_resizable d = true -> viewsSpanBuffer d.
Proof. intros Hr. unfold viewsSpanBuffer. by rewrite byteLength_resizable. Qed.

Lemma resize_shrink (newLength : Z) (rb : ResizeableBuffer) :
  programBuffer rb ->
  newLength <= byteLength rb -> newLength <= MAX_BYTES ->
  resize newLength rb = (Returned tt, set_rb_length newLength rb).
Proof.
  intros Hp Hle Hmax. unfold resize.
  destruct (rb_resizable rb) eqn:Hr.
  - rewrite (Hp Hr).
    destruct (Z.gtb_spec newLength MAX_BYTES); [lia|].
    destruct (Z.gtb_spec newLength (byteLength rb)); [lia|]. reflexivity.
  - destruct (Z.gtb_spec newLength (byteLength rb)); [lia|]. reflexivity.
Qed.

Lemma resize_grow (newLength : Z) (rb : ResizeableBuffer) :
  programBuffer rb ->
  byteLength rb < newLength <= GROWTH_LIMIT ->
  exists rb',
    resize newLength rb = (Returned tt, rb') /\
    rb_length rb' = newLength /\
    rb_resizable rb' = true /\
    rb_maxByteLength rb' = MAX_BYTES /\
    byteLength rb' = 2 ^ ceil_log2_plus_half newLength /\
    rb_bytes rb' = rb_bytes rb ++
                   replicate (Z.to_nat (byteLength rb' - viewByteLength rb)) 0.
Proof.
  intros Hp [Hgt Hlim].
  pose proof (viewByteLength_le rb) as Hc.
  pose proof (getOptimalBufferLength_small newLength ltac:(lia)) as (Heq & Hlo & Hhi).
  assert (HM : newLength <= MAX_BYTES) by (unfold GROWTH_LIMIT, MAX_BYTES in *; lia).
  unfold resize. destruct (rb_resizable rb) eqn:Hr.
  - rewrite (Hp Hr).
    destruct (Z.gtb_spec newLength MAX_BYTES); [lia|].
    destruct (Z.gtb_spec newLength (byteLength rb)); [|lia].
    rewrite Z.min_r by lia.
    eexists. split; [reflexivity|]. simpl.
    unfold byteLength, viewByteLength in *. simpl.
    rewrite length_resize, Hr, (Hp Hr).
    repeat split; try lia.
    rewrite resize_ge by lia. f_equal. f_equal. lia.
  - destruct (Z.gtb_spec newLength (byteLength rb)); [|lia].
    change 0x100000000 with MAX_BYTES. rewrite Z.min_r by lia.
    destruct (Z.gtb_spec (Z.of_nat (length (rb_bytes rb))) (getOptimalBufferLength newLength)).
    { unfold viewByteLength in *. lia. }
    eexists. split; [reflexivity|]. simpl.
    unfold byteLength, viewByteLength in *. simpl. rewrite length_app, length_replicate.
    repeat split; try lia.
    f_equal. f_equal. lia.
Qed.

(** A [resize] to a length within [GROWTH_LIMIT] returns, with room for
    that length. *)
Lemma resize_returns (rb : ResizeableBuffer) (newLength : Z) :
  programBuffer rb ->
  newLength <= GROWTH_LIMIT ->
  exists rb',
    resize newLength rb = (Returned tt, rb') /\
    rb_length rb' = newLength /\
    newLength <= byteLength rb'.
Proof.
  intros Hp Hlim. destruct (Z.gtb_spec newLength (byteLength rb)) as [Hgt|Hle].
  - destruct (resize_grow newLength rb Hp ltac:(lia)) as (rb' & Hres & Hl & _ & _ & Hc & _).
    pose proof (byteLength_nonneg rb).
    pose proof (getOptimalBufferLength_small newLength ltac:(lia)) as (Heq & Hlo & _).
    exists rb'. rewrite Hc, <- Heq. auto.
  - exists (set_rb_length newLength rb).
    rewrite resize_shrink by (try assumption; unfold GROWTH_LIMIT, MAX_BYTES in *; lia).
    auto.
Qed.

(** The same when the views show all of the storage: the room is theirs. *)
Lemma resize_returns_room (rb : ResizeableBuffer) (newLength : Z) :
  programBuffer rb -> viewsSpanBuffer rb ->
  newLength <= GROWTH_LIMIT ->
  exists rb',
    resize newLength rb = (Returned tt, rb') /\
    rb_length rb' = newLength /\
    newLength <= viewByteLength rb' /\
    viewsSpanBuffer rb'.
Proof.
  intros Hp Hs Hlim. destruct (Z.gtb_spec newLength (byteLength rb)) as [Hgt|Hle].
  - destruct (resize_grow newLength rb Hp ltac:(lia))
      as (rb' & Hres & Hl & Hr & _ & Hc & _).
    pose proof (byteLength_nonneg rb).
    pose proof (getOptimalBufferLength_small newLength ltac:(lia)) as (Heq & Hlo & _).
    exists rb'. rewrite <- (byteLength_resizable rb' Hr), Hc, <- Heq.
    split; [exact Hres|]. split; [exact Hl|].
    split; [lia | by apply viewsSpanBuffer_resizable].
  - exists (set_rb_length newLength rb).
    rewrite resize_shrink by (try assumption; unfold GROWTH_LIMIT, MAX_BYTES in *; lia).
    split; [reflexivity|]. split; [reflexivity|]. unfold viewsSpanBuffer in *.
    change (viewByteLength (set_rb_length newLength rb)) with (viewByteLength rb).
    change (byteLength (set_rb_length newLength rb)) with (byteLength rb).
    split; [lia | exact Hs].
Qed.

(** C6, as the code has it.  In a buffer of the program, for every new
    length up to [GROWTH_LIMIT], [resize] returns and sets the logical
    length.  Beyond the capacity it makes the capacity
    [2 ^ ceil(log2(newLength) + 0.5)], which holds the new length and is
    below [2^32]; nothing raises it to the initial 256.  Within the capacity
    it leaves the capacity as it is.  Either way the capacity does not
    decrease and the bytes already there are kept. *)
Theorem resize_capacity (rb : ResizeableBuffer) (newLength : Z) :
  programBuffer rb ->
  newLength <= GROWTH_LIMIT ->
  exists rb',
    resize newLength rb = (Returned tt, rb') /\
    rb_length rb' = newLength /\
    (byteLength rb < newLength ->
     byteLength rb' = 2 ^ ceil_log2_plus_half newLength /\
     newLength <= byteLength rb' < MAX_BYTES) /\
    (newLength <= byteLength rb -> byteLength rb' = byteLength rb) /\
    byteLength rb <= byteLength rb' /\
    take (length (rb_bytes rb)) (rb_bytes rb') = rb_bytes rb.
Proof.
  intros Hp Hlim. destruct (Z.gtb_spec newLength (byteLength rb)) as [Hgt|Hle].
  - destruct (resize_grow newLength rb Hp ltac:(lia)) as (rb' & Hres & Hl & _ & _ & Hc & Hb).
    pose proof (byteLength_nonneg rb).
    pose proof (getOptimalBufferLength_small newLength ltac:(lia)) as (Heq & Hlo & Hhi).
    exists rb'. rewrite Hc, <- Heq.
    repeat split; try assumption; try lia.
    rewrite Hb. apply take_app_length.
  - exists (set_rb_length newLength rb).
    rewrite resize_shrink by (try assumption; unfold GROWTH_LIMIT, MAX_BYTES in *; lia).
    assert (Hb : byteLength (set_rb_length newLength rb) = byteLength rb) by reflexivity.
    rewrite Hb. simpl. repeat split; try lia. apply take_ge. lia.
Qed.

Lemma resize_capacity_witness :
  exists rb',
    resize 257 ResizeableBuffer_new = (Returned tt, rb') /\
    rb_length rb' = 257 /\ byteLength rb' = 512.
Proof.
  destruct (resize_capacity ResizeableBuffer_new 257) as (rb' & H1 & H2 & H3 & _).
  - intros _. reflexivity.
  - unfold GROWTH_LIMIT. lia.
  - exists rb'. split; [exact H1|]. split; [exact H2|].
    apply H3. vm_compute. reflexivity.
Defined.

(** C6, as the specification words it, fails on a buffer that wraps a small
    file: the capacity becomes 32, not the initial 256; nothing clamps it
    from below. *)
Lemma resize_no_lower_clamp : ~ growsAsSpecified (ResizeableBuffer_wrap [1; 2; 3]) 20.
Proof.
  intros H. destruct H as (rb' & Hres & _ & Hcap & _).
  - vm_compute. split; [reflexivity | discriminate].
  - vm_compute in Hres. injection Hres as <-. vm_compute in Hcap. discriminate.
Qed.

(** From [GROWTH_LIMIT + 1] on the 32-bit shift wraps: growing a fresh
    buffer to that length leaves it a single byte of capacity. *)
Lemma resize_shift_wraps :
  let '(r, rb') := resize (GROWTH_LIMIT + 1) ResizeableBuffer_new in
  r = Returned tt /\ rb_length rb' = GROWTH_LIMIT + 1 /\ byteLength rb' = 1.
Proof. vm_compute. repeat split. Qed.

(** C5 on resizable storage: a length above [2^32] is refused. *)
Lemma resize_resizable_over_limit (rb : ResizeableBuffer) (newLength : Z) :
  rb_resizable rb = true -> rb_maxByteLength rb = MAX_BYTES ->
  MAX_BYTES < newLength ->
  resize newLength rb = (Thrown SizeLimitReached, rb).
Proof.
  intros Hr Hm Hgt. unfold resize. rewrite Hr, Hm.
  destruct (Z.gtb_spec newLength MAX_BYTES); [reflexivity | lia].
Qed.

(** C5 on a wrapped byte region: the branch has no such test.  Asked for
    [2^32 + 1] bytes, a buffer around two bytes read from a file returns
    normally, with that logical length over a capacity of two bytes. *)
Theorem resize_wrapped_over_limit :
  resize (MAX_BYTES + 1) (ResizeableBuffer_wrap [0; 0])
  = (Returned tt,
     {| rb_resizable := true;
        rb_maxByteLength := MAX_BYTES;
        rb_bytes := [0; 0];
        rb_length := MAX_BYTES + 1 |}).
Proof. vm_compute. reflexivity. Qed.

(** No length makes a wrapped region report the size limit. *)
Lemma resize_wrapped_never_size_limit (rb : ResizeableBuffer) (newLength : Z) :
  rb_resizable rb = false ->
  fst (resize newLength rb) <> Thrown SizeLimitReached.
Proof.
  intros Hr. unfold resize. rewrite Hr.
  destruct (_ >? _); [|simpl; discriminate].
  cbv zeta. destruct (_ >? _); simpl; discriminate.
Qed.

(** ** Records in the bytes of a bucket *)

Lemma length_encodeF64 (time : Z) : length (encodeF64 time) = 8%nat.
Proof.
  pose proof (length_Z_to_little_endian 8 8 time ltac:(lia)). unfold encodeF64. lia.
Qed.

Lemma decodeF64_encodeF64 (time : Z) :
  TIME_MIN <= time < TIME_MAX -> decodeF64 (encodeF64 time) = time.
Proof.
  unfold TIME_MIN, TIME_MAX, decodeF64, encodeF64. intros Ht.
  rewrite little_endian_to_Z_to_little_endian by lia.
  change (2 ^ (8 * 8)) with (2 ^ 64). change TIME_MAX with (2 ^ 63).
  destruct (Z.neg_nonneg_cases time) as [Hneg|Hpos].
  - replace (time mod 2 ^ 64) with (time + 2 ^ 64).
    + destruct (Z.ltb_spec (time + 2 ^ 64) (2 ^ 63)); lia.
    + symmetry. rewrite <- (Z_mod_plus_full time 1). rewrite Z.mul_1_l.
      apply Z.mod_small. lia.
  - rewrite Z.mod_small by lia.
    destruct (Z.ltb_spec time (2 ^ 63)); lia.
Qed.

(** On a safe integer the sum [id + 1] is exact. *)
Lemma js_succ_safe (id : Z) : isSafeInteger id = true -> js_succ id = id + 1.
Proof.
  unfold isSafeInteger, js_succ. intros Hs. apply andb_prop in Hs as [H1 H2].
  apply Z.leb_le in H1, H2.
  assert (E1 : (- 2 ^ 53 <=? id) = true) by (apply Z.leb_le; lia).
  assert (E2 : (id <? 2 ^ 53) = true) by (apply Z.ltb_lt; lia).
  rewrite E1, E2. reflexivity.
Qed.

Lemma bucket_to_safe (b : ZektaTimeBucket) :
  isSafeInteger (b_id b) = true -> bucket_to b = getTimeFromId (b_id b + 1).
Proof. intros Hs. unfold bucket_to. rewrite js_succ_safe by exact Hs. reflexivity. Qed.

(** The times a bucket with a safe integer id accepts can be stored. *)
Lemma isTimeInRange_bounds (b : ZektaTimeBucket) (time : Z) :
  isSafeInteger (b_id b) = true -> isTimeInRange b time = true ->
  TIME_MIN <= time < TIME_MAX.
Proof.
  intros Hs. unfold isTimeInRange. rewrite (bucket_to_safe b Hs). revert Hs.
  unfold isSafeInteger, bucket_from, getTimeFromId,
    timeRange, TIME_MIN, TIME_MAX.
  intros Hs Hr. apply andb_prop in Hs as [H1 H2]. apply andb_prop in Hr as [H3 H4].
  apply Z.leb_le in H1, H2, H3. apply Z.ltb_lt in H4.
  change (2 ^ 53) with 9007199254740992 in *.
  change (2 ^ 63) with 9223372036854775808. lia.
Qed.

Section Records.

Variable b : ZektaTimeBucket.
Hypothesis id_safe : isSafeInteger (b_id b) = true.
Hypothesis value_length_nonneg : 0 <= b_valueByteLength b.

Let R := entryByteLength b.

Lemma entryByteLength_pos : 8 <= R.
Proof using value_length_nonneg.
  unfold R, entryByteLength, timeByteLength. lia.
Qed.

Lemma length_encodeEntry (e : TimeSeriesEntry) :
  acceptable b e -> length (encodeEntry e) = Z.to_nat R.
Proof using value_length_nonneg.
  intros [_ Hv]. unfold encodeEntry. rewrite length_app, length_encodeF64.
  unfold R, entryByteLength, timeByteLength. lia.
Qed.

Lemma encodeEntries_cons (e : TimeSeriesEntry) (es : list TimeSeriesEntry) :
  encodeEntries (e :: es) = encodeEntry e ++ encodeEntries es.
Proof. reflexivity. Qed.

Lemma length_encodeEntries (es : list TimeSeriesEntry) :
  Forall (acceptable b) es ->
  length (encodeEntries es) = (length es * Z.to_nat R)%nat.
Proof using value_length_nonneg.
  induction 1 as [|e es He _ IH]; [reflexivity|].
  rewrite encodeEntries_cons, length_app, IH, length_encodeEntry by assumption.
  reflexivity.
Qed.

Lemma encodeEntries_app (es1 es2 : list TimeSeriesEntry) :
  encodeEntries (es1 ++ es2) = encodeEntries es1 ++ encodeEntries es2.
Proof. unfold encodeEntries. by rewrite map_app, concat_app. Qed.

(** The record of the [i]-th entry starts [i] record sizes into the bytes. *)
Lemma record_at (es : list TimeSeriesEntry) (rest : list Z) :
  Forall (acceptable b) es ->
  forall i e, es !! i = Some e ->
  take (Z.to_nat R) (drop (i * Z.to_nat R) (encodeEntries es ++ rest)) = encodeEntry e.
Proof using value_length_nonneg.
  induction 1 as [|e0 es He0 Hes IH]; intros i e Hi; [discriminate|].
  rewrite encodeEntries_cons, <- app_assoc.
  destruct i as [|i]; simpl in Hi.
  - injection Hi as ->. apply take_app_length'. by rewrite length_encodeEntry.
  - change (S i * Z.to_nat R)%nat with (Z.to_nat R + i * Z.to_nat R)%nat.
    rewrite drop_app_add' by (by rewrite length_encodeEntry). by apply IH.
Qed.

Lemma take_encodeEntries (es : list TimeSeriesEntry) (k : nat) :
  Forall (acceptable b) es ->
  take (k * Z.to_nat R) (encodeEntries es) = encodeEntries (take k es).
Proof using value_length_nonneg.
  intros Hes. revert k. induction Hes as [|e0 es He0 Hes IH]; intros k.
  - rewrite take_nil. change (encodeEntries []) with (@nil Z). apply take_nil.
  - destruct k as [|k]; [reflexivity|].
    change (S k * Z.to_nat R)%nat with (Z.to_nat R + k * Z.to_nat R)%nat.
    rewrite firstn_cons, !encodeEntries_cons.
    rewrite take_app_add' by (by rewrite length_encodeEntry). by rewrite IH.
Qed.

Lemma drop_encodeEntries (es : list TimeSeriesEntry) (k : nat) :
  Forall (acceptable b) es ->
  drop (k * Z.to_nat R) (encodeEntries es) = encodeEntries (drop k es).
Proof using value_length_nonneg.
  intros Hes. revert k. induction Hes as [|e0 es He0 Hes IH]; intros k.
  - rewrite drop_nil. change (encodeEntries []) with (@nil Z). apply drop_nil.
  - destruct k as [|k]; [reflexivity|].
    change (S k * Z.to_nat R)%nat with (Z.to_nat R + k * Z.to_nat R)%nat.
    rewrite skipn_cons, encodeEntries_cons.
    rewrite drop_app_add' by (by rewrite length_encodeEntry). by rewrite IH.
Qed.

Variable es : list TimeSeriesEntry.
Hypothesis b_stores : stores b es.

Lemma stores_bytes :
  exists d, b_data b = Some d /\ dataOf b = d /\ wellFormedBuffer d /\
    rb_length d = Z.of_nat (length es) * R /\
    rb_bytes d = encodeEntries es ++ drop (Z.to_nat (rb_length d)) (rb_bytes d).
Proof using b_stores.
  destruct b_stores as (_ & _ & (d & Hd & Hwf & Hlen & Hbytes) & _).
  exists d. unfold dataOf. rewrite Hd. repeat split; try assumption; try apply Hwf.
  rewrite <- Hbytes. symmetry. apply take_drop.
Qed.

Lemma stores_acceptable : Forall (acceptable b) es.
Proof using b_stores. apply b_stores. Qed.

Lemma stores_sorted : StronglySorted Z.le (timesOf es).
Proof using b_stores. apply b_stores. Qed.

(** Reading the record at the offset of the [i]-th entry gives that entry. *)
Lemma entryAt_stored (i : nat) (e : TimeSeriesEntry) :
  es !! i = Some e -> entryAt b (Z.of_nat i * R) = e.
Proof using b_stores value_length_nonneg id_safe.
  intros Hi. destruct stores_bytes as (d & _ & Hd & _ & _ & Hbytes).
  pose proof entryByteLength_pos as HR.
  pose proof (record_at es (drop (Z.to_nat (rb_length d)) (rb_bytes d))
                stores_acceptable i e Hi) as Hrec.
  rewrite <- Hbytes in Hrec.
  assert (Hacc : acceptable b e).
  { pose proof stores_acceptable as Hall. rewrite Forall_forall in Hall.
    eapply Hall, list_elem_of_lookup_2, Hi. }
  destruct Hacc as [Hrange Hvlen].
  replace (i * Z.to_nat R)%nat with (Z.to_nat (Z.of_nat i * R)) in Hrec by lia.
  destruct e as [t v]. simpl in *.
  unfold entryAt, getTime, getValue, DataView_getFloat64, Uint8Array_slice.
  rewrite Hd. f_equal.
  - replace (take 8 (drop (Z.to_nat (Z.of_nat i * R)) (rb_bytes d)))
      with (take 8 (take (Z.to_nat R) (drop (Z.to_nat (Z.of_nat i * R)) (rb_bytes d)))).
    + rewrite Hrec. unfold encodeEntry. cbn [entry_time entry_value].
      rewrite take_app_length' by (by rewrite length_encodeF64).
      apply decodeF64_encodeF64. eapply isTimeInRange_bounds; eauto.
    + rewrite take_take. f_equal. lia.
  - unfold timeByteLength.
    replace (Z.to_nat (Z.of_nat i * R + 8)) with (Z.to_nat (Z.of_nat i * R) + 8)%nat by lia.
    rewrite <- drop_drop.
    replace (Z.to_nat (Z.of_nat i * R + 8 + b_valueByteLength b - (Z.of_nat i * R + 8)))
      with (length v) by lia.
    replace (take (length v) (drop 8 (drop (Z.to_nat (Z.of_nat i * R)) (rb_bytes d))))
      with (take (length v)
              (drop 8 (take (Z.to_nat R) (drop (Z.to_nat (Z.of_nat i * R)) (rb_bytes d))))).
    + rewrite Hrec. unfold encodeEntry. cbn [entry_time entry_value].
      rewrite drop_app_length' by (by rewrite length_encodeF64).
      apply take_ge. lia.
    + rewrite !take_drop_commute, take_take. do 3 f_equal.
      unfold R, entryByteLength, timeByteLength. lia.
Qed.

Lemma getTime_stored (i : nat) :
  (i < length es)%nat -> getTime b (Z.of_nat i * R) = nth i (timesOf es) 0.
Proof using b_stores value_length_nonneg id_safe.
  intros Hi. destruct (lookup_lt_is_Some_2 es i Hi) as [e He].
  pose proof (entryAt_stored i e He) as Hat.
  unfold entryAt in Hat.
  erewrite nth_lookup_Some; [|unfold timesOf; rewrite list_lookup_fmap, He; reflexivity].
  by rewrite <- Hat.
Qed.

End Records.

(** ** Offsets of a time and of a time range *)

Section Offsets.

Variable b : ZektaTimeBucket.
Variable es : list TimeSeriesEntry.
Hypothesis b_stores : stores b es.

Let R := entryByteLength b.
Let n := length es.
Let ts := timesOf es.

Lemma stores_R : 8 <= R.
Proof using b_stores. apply entryByteLength_pos, b_stores. Qed.

Lemma stores_length : rb_length (dataOf b) = Z.of_nat n * R.
Proof using b_stores.
  destruct (stores_bytes b es b_stores) as (d & _ & -> & _ & Hl & _). exact Hl.
Qed.

Lemma length_ts : length ts = n.
Proof. unfold ts, timesOf. apply length_map. Qed.

Lemma getTime_index (i : nat) :
  (i < n)%nat -> getTime b (Z.of_nat i * R) = nth i ts 0.
Proof using b_stores.
  intros Hi. apply getTime_stored; try apply b_stores; assumption.
Qed.

Lemma getInsertionByteOffset_stored (time : Z) :
  exists k, getInsertionByteOffset b time = Z.of_nat k * R /\ separatesAt ts k time.
Proof using b_stores.
  pose proof stores_R as HR. pose proof stores_length as HL.
  pose proof length_ts as Hts.
  pose proof (stores_sorted b es b_stores) as Hsorted. fold ts in Hsorted.
  unfold getInsertionByteOffset. fold R. rewrite HL.
  destruct (Z.eqb_spec (Z.of_nat n * R) 0) as [H0|H0].
  { exists 0%nat. split; [lia|]. assert (n = 0%nat) by nia.
    unfold separatesAt. rewrite Hts. repeat split; intros; lia. }
  assert (Hn : (0 < n)%nat) by (destruct n; [lia | lia]).
  replace (Z.of_nat n * R - R) with (Z.of_nat (n - 1) * R) by nia.
  rewrite getTime_index by lia.
  destruct (Z.geb_spec time (nth (n - 1) ts 0)) as [Hlast|Hlast].
  { exists n. split; [reflexivity|]. unfold separatesAt. rewrite Hts.
    repeat split; [lia| |intros; lia].
    intros i Hi. pose proof (StronglySorted_nth ts Hsorted i (n - 1)). lia. }
  change 0 with (Z.of_nat 0 * R) at 1. rewrite getTime_index by lia.
  destruct (Z.leb_spec time (nth 0 ts 0)) as [Hfirst|Hfirst].
  { exists 0%nat. split; [reflexivity|]. unfold separatesAt. rewrite Hts.
    repeat split; [lia|intros; lia|].
    intros i Hi. pose proof (StronglySorted_nth ts Hsorted 0 i). lia. }
  rewrite Z.div_mul by lia.
  set (compare := fun index => getTime b (index * R) - time).
  assert (Hcmp : forall i, 0 <= i < Z.of_nat n ->
                           compare i = nth (Z.to_nat i) ts 0 - time).
  { intros i Hi. unfold compare.
    rewrite <- (Z2Nat.id i) at 1 by lia. rewrite getTime_index by lia. reflexivity. }
  assert (Hmono : forall i j, 0 <= i -> i <= j -> j < Z.of_nat n ->
                              compare i <= compare j).
  { intros i j Hi Hij Hj. rewrite !Hcmp by lia.
    pose proof (StronglySorted_nth ts Hsorted (Z.to_nat i) (Z.to_nat j)). lia. }
  pose proof (binarySearch_separates compare (Z.of_nat n) Hmono ltac:(lia))
    as (Hk & Hb & Ha).
  set (k := binarySearch (Z.of_nat n) compare) in *.
  exists (Z.to_nat k). split; [f_equal; lia|].
  unfold separatesAt. rewrite Hts. split; [lia|]. split; intros i Hi.
  - specialize (Hb (Z.of_nat i) ltac:(lia)). rewrite Hcmp in Hb by lia.
    rewrite Nat2Z.id in Hb. lia.
  - specialize (Ha (Z.of_nat i) ltac:(lia)). rewrite Hcmp in Ha by lia.
    rewrite Nat2Z.id in Ha. lia.
Qed.

Lemma walkBackward_stored (from : Z) : forall fuel k,
  (k <= fuel)%nat -> (k <= n)%nat ->
  exists k',
    walkBackward fuel b from (Z.of_nat k * R) = Z.of_nat k' * R /\
    (k' <= k)%nat /\
    (forall i, (k' <= i < k)%nat -> nth i ts 0 = from) /\
    (k' = 0%nat \/ nth (k' - 1) ts 0 <> from).
Proof using b_stores.
  pose proof stores_R as HR.
  induction fuel as [|fuel IH]; intros k Hfuel Hk.
  { exists 0%nat. assert (k = 0%nat) by lia. subst k.
    repeat split; auto; intros; lia. }
  simpl. fold R.
  destruct (Z.geb_spec (Z.of_nat k * R) R) as [Hge|Hlt]; simpl.
  - assert (Hk1 : (1 <= k)%nat) by nia.
    replace (Z.of_nat k * R - R) with (Z.of_nat (k - 1) * R) by nia.
    rewrite getTime_index by lia.
    destruct (Z.eqb_spec from (nth (k - 1) ts 0)) as [Heq|Hne].
    + destruct (IH (k - 1)%nat ltac:(lia) ltac:(lia)) as (k' & Hw & Hle & Hrun & Hstop).
      exists k'. split; [exact Hw|]. split; [lia|]. split; [|exact Hstop].
      intros i Hi. destruct (Nat.eq_dec i (k - 1)%nat) as [->|]; [auto|].
      apply Hrun. lia.
    + exists k. repeat split; [lia| intros; lia |]. right. auto.
  - assert (k = 0%nat) by nia. subst k.
    exists 0%nat. repeat split; auto; intros; lia.
Qed.

Lemma walkForward_stored (to : Z) : forall fuel k,
  (n - k <= fuel)%nat -> (k <= n)%nat ->
  exists k',
    walkForward fuel b to (Z.of_nat k * R) = Z.of_nat k' * R /\
    (k <= k' <= n)%nat /\
    (forall i, (k <= i < k')%nat -> nth i ts 0 = to) /\
    (k' = n \/ nth k' ts 0 <> to).
Proof using b_stores.
  pose proof stores_R as HR. pose proof stores_length as HL.
  induction fuel as [|fuel IH]; intros k Hfuel Hk.
  { exists k. assert (k = n) by lia. repeat split; auto; intros; lia. }
  simpl. fold R. rewrite HL.
  destruct (Z.ltb_spec (Z.of_nat k * R) (Z.of_nat n * R)) as [Hlt|Hge]; simpl.
  - assert (Hkn : (k < n)%nat) by nia.
    rewrite getTime_index by lia.
    destruct (Z.eqb_spec to (nth k ts 0)) as [Heq|Hne].
    + replace (Z.of_nat k * R + R) with (Z.of_nat (S k) * R) by lia.
      destruct (IH (S k) ltac:(lia) ltac:(lia)) as (k' & Hw & Hle & Hrun & Hstop).
      exists k'. split; [exact Hw|]. split; [lia|]. split; [|exact Hstop].
      intros i Hi. destruct (Nat.eq_dec i k) as [->|]; [auto|].
      apply Hrun. lia.
    + exists k. repeat split; [lia | lia | intros; lia |]. right. auto.
  - assert (k = n) by nia. subst k.
    exists n. repeat split; auto; intros; lia.
Qed.

(** The two offsets are the records of the first entry at or after [from]
    and of the first entry after [to]. *)
Lemma getTimeRangeByteOffsets_stored (from to : Z) :
  exists lo hi,
    getTimeRangeByteOffsets b {| range_from := from; range_to := to |}
    = {| range_from := Z.of_nat lo * R; range_to := Z.of_nat hi * R |} /\
    lowerBoundAt ts lo from /\ upperBoundAt ts hi to.
Proof using b_stores.
  pose proof stores_R as HR. pose proof stores_length as HL.
  pose proof length_ts as Hts.
  pose proof (stores_sorted b es b_stores) as Hsorted. fold ts in Hsorted.
  unfold getTimeRangeByteOffsets. cbn [range_from range_to].
  destruct (getInsertionByteOffset_stored from) as (k1 & -> & Hk1 & Hb1 & Ha1).
  destruct (getInsertionByteOffset_stored to) as (k2 & -> & Hk2 & Hb2 & Ha2).
  rewrite Hts in *.
  destruct (walkBackward_stored from (Z.to_nat (Z.of_nat k1 * R)) k1 ltac:(nia) Hk1)
    as (lo & -> & Hlo & Hrun1 & Hstop1).
  destruct (walkForward_stored to (Z.to_nat (rb_length (dataOf b) - Z.of_nat k2 * R)) k2
              ltac:(rewrite HL; nia) Hk2)
    as (hi & -> & Hhi & Hrun2 & Hstop2).
  exists lo, hi. split; [reflexivity|].
  unfold lowerBoundAt, upperBoundAt. rewrite Hts. split.
  - split; [lia|]. split; intros i Hi.
    + destruct Hstop1 as [->|Hstop1]; [lia|].
      pose proof (StronglySorted_nth ts Hsorted i (lo - 1) ltac:(lia) ltac:(lia)).
      destruct (Nat.eq_dec lo k1) as [->|Hne].
      * specialize (Hb1 (k1 - 1)%nat ltac:(lia)). lia.
      * specialize (Hrun1 lo ltac:(lia)).
        pose proof (StronglySorted_nth ts Hsorted (lo - 1) lo ltac:(lia) ltac:(lia)).
        lia.
    + destruct (Nat.lt_ge_cases i k1) as [Hlt|Hge].
      * rewrite Hrun1 by lia. lia.
      * apply Ha1. lia.
  - split; [lia|]. split; intros i Hi.
    + destruct (Nat.lt_ge_cases i k2) as [Hlt|Hge].
      * apply Hb2. lia.
      * rewrite Hrun2 by lia. lia.
    + destruct Hstop2 as [->|Hstop2]; [lia|].
      pose proof (StronglySorted_nth ts Hsorted hi i ltac:(lia) ltac:(lia)).
      destruct (Nat.eq_dec hi k2) as [->|Hne].
      * specialize (Ha2 k2 ltac:(lia)). lia.
      * specialize (Hrun2 (hi - 1)%nat ltac:(lia)).
        pose proof (StronglySorted_nth ts Hsorted (hi - 1) hi ltac:(lia) ltac:(lia)).
        lia.
Qed.

End Offsets.

(** ** Selection *)

Lemma loadData_loaded (b : ZektaTimeBucket) (d : ResizeableBuffer) :
  b_data b = Some d -> loadData b = (Returned tt, b).
Proof. intros Hd. unfold loadData, modify. by rewrite Hd. Qed.

Lemma loadData_is_Some (b : ZektaTimeBucket) :
  exists d, b_data (snd (loadData b)) = Some d.
Proof.
  unfold loadData, modify. simpl.
  destruct (b_data b) eqn:Hd; [eauto|]. destruct (b_file b); simpl; eauto.
Qed.

Lemma loadData_idempotent (b : ZektaTimeBucket) :
  loadData (snd (loadData b)) = (Returned tt, snd (loadData b)).
Proof. destruct (loadData_is_Some b) as [d Hd]. by apply loadData_loaded with d. Qed.

(** The descending loop of [select] visits the records of the ascending
    loop in the opposite order. *)
Lemma descending_is_reverse {A} (f : Z -> A) (R : Z) (len : nat) : forall lo hi,
  hi - lo = Z.of_nat len * R ->
  map (fun i => f (hi - R - i * R)) (seqZ 0 (Z.of_nat len))
  = reverse (map (fun i => f (lo + i * R)) (seqZ 0 (Z.of_nat len))).
Proof.
  induction len as [|len IH]; intros lo hi Hspan; [reflexivity|].
  rewrite seqZ_S at 2. rewrite map_app, reverse_app. simpl.
  rewrite seqZ_cons by lia. simpl.
  f_equal; [f_equal; lia|].
  replace (Z.pred (Z.of_nat (S len))) with (Z.of_nat len) by lia.
  rewrite <- (IH lo (hi - R)) by lia.
  change (Z.succ 0) with (1 + 0). rewrite <- fmap_add_seqZ.
  rewrite <- list_fmap_compose. apply map_ext. intros i. simpl. f_equal. lia.
Qed.

Lemma filter_all_false {A} (f : A -> bool) (l : list A) :
  (forall i x, l !! i = Some x -> f x = false) -> List.filter f l = [].
Proof.
  induction l as [|x l IH]; intros H; [reflexivity|]. simpl.
  rewrite (H 0%nat x eq_refl). apply IH. intros i y Hy. apply (H (S i) y Hy).
Qed.

Lemma filter_all_true {A} (f : A -> bool) (l : list A) :
  (forall i x, l !! i = Some x -> f x = true) -> List.filter f l = l.
Proof.
  induction l as [|x l IH]; intros H; [reflexivity|]. simpl.
  rewrite (H 0%nat x eq_refl). f_equal. apply IH. intros i y Hy. apply (H (S i) y Hy).
Qed.

Lemma nth_timesOf (es : list TimeSeriesEntry) (i : nat) (e : TimeSeriesEntry) :
  es !! i = Some e -> nth i (timesOf es) 0 = entry_time e.
Proof.
  intros He. apply nth_lookup_Some. unfold timesOf. by rewrite list_lookup_fmap, He.
Qed.

Lemma lower_le_upper (ts : list Z) (lo hi : nat) (from to : Z) :
  from <= to -> lowerBoundAt ts lo from -> upperBoundAt ts hi to -> (lo <= hi)%nat.
Proof.
  intros Hft (Hlo & Hlb & _) (Hhi & _ & Hua).
  destruct (Nat.le_gt_cases lo hi) as [|Hgt]; [assumption|exfalso].
  specialize (Hlb hi ltac:(lia)). specialize (Hua hi ltac:(lia)). lia.
Qed.

(** In a list sorted by time the entries of a time range are the slice
    between its two bounds. *)
Lemma filter_inTimeRange_slice (es : list TimeSeriesEntry) (lo hi : nat) (from to : Z) :
  lowerBoundAt (timesOf es) lo from -> upperBoundAt (timesOf es) hi to ->
  (lo <= hi)%nat ->
  List.filter (inTimeRange from to) es = take (hi - lo) (drop lo es) /\
  List.filter (fun e => negb (inTimeRange from to e)) es = take lo es ++ drop hi es /\
  es = take lo es ++ take (hi - lo) (drop lo es) ++ drop hi es.
Proof.
  unfold lowerBoundAt, upperBoundAt.
  replace (length (timesOf es)) with (length es) by (symmetry; apply length_map).
  intros (Hlo & Hlb & Hla) (Hhi & Hub & Hua) Hle.
  assert (Hsplit : es = take lo es ++ take (hi - lo) (drop lo es) ++ drop hi es).
  { rewrite <- (take_drop lo es) at 1. f_equal.
    rewrite <- (take_drop (hi - lo) (drop lo es)) at 1. f_equal.
    rewrite drop_drop. f_equal. lia. }
  assert (Hbefore : forall i e, take lo es !! i = Some e -> inTimeRange from to e = false).
  { intros i e He. apply lookup_take_Some in He as [He Hi].
    specialize (Hlb i Hi). rewrite (nth_timesOf es i e He) in Hlb.
    unfold inTimeRange. destruct (Z.leb_spec from (entry_time e)); [lia | reflexivity]. }
  assert (Hinside : forall i e, take (hi - lo) (drop lo es) !! i = Some e ->
                                inTimeRange from to e = true).
  { intros i e He. apply lookup_take_Some in He as [He Hi]. rewrite lookup_drop in He.
    pose proof (lookup_lt_Some _ _ _ He) as Hlt.
    specialize (Hla (lo + i)%nat ltac:(lia)). specialize (Hub (lo + i)%nat ltac:(lia)).
    rewrite (nth_timesOf es _ e He) in Hla, Hub.
    unfold inTimeRange. apply andb_true_intro. split; apply Z.leb_le; lia. }
  assert (Hafter : forall i e, drop hi es !! i = Some e -> inTimeRange from to e = false).
  { intros i e He. rewrite lookup_drop in He.
    pose proof (lookup_lt_Some _ _ _ He) as Hlt.
    specialize (Hua (hi + i)%nat ltac:(lia)). rewrite (nth_timesOf es _ e He) in Hua.
    unfold inTimeRange. destruct (Z.leb_spec (entry_time e) to); [lia|].
    apply andb_false_r. }
  split; [|split; [|exact Hsplit]].
  - rewrite Hsplit at 1. rewrite !List.filter_app.
    rewrite (filter_all_false _ _ Hbefore), (filter_all_true _ _ Hinside),
      (filter_all_false _ _ Hafter). by rewrite app_nil_r.
  - rewrite Hsplit at 1. rewrite !List.filter_app.
    rewrite (filter_all_true _ (take lo es)), (filter_all_false _ (take _ (drop _ _))),
      (filter_all_true _ (drop hi es)); [reflexivity|..].
    + intros i e He. by rewrite (Hafter i e He).
    + intros i e He. by rewrite (Hinside i e He).
    + intros i e He. by rewrite (Hbefore i e He).
Qed.

Section Selection.

Variable b : ZektaTimeBucket.
Variable es : list TimeSeriesEntry.
Hypothesis b_stores : stores b es.

Let R := entryByteLength b.

Lemma map_entryAt_slice (lo : nat) : forall len,
  (lo + len <= length es)%nat ->
  map (fun i => entryAt b (Z.of_nat lo * R + i * R)) (seqZ 0 (Z.of_nat len))
  = take len (drop lo es).
Proof using b_stores.
  induction len as [|len IH]; intros Hlen; [by rewrite take_0|].
  rewrite seqZ_S, map_app, IH by lia. simpl.
  destruct (lookup_lt_is_Some_2 es (lo + len)%nat ltac:(lia)) as [e He].
  rewrite (take_S_r _ _ e) by (by rewrite lookup_drop).
  f_equal. f_equal.
  replace (Z.of_nat lo * R + (0 + Z.of_nat len) * R)
    with (Z.of_nat (lo + len) * R) by lia.
  apply (entryAt_stored b) with es; try apply b_stores; assumption.
Qed.

Lemma stores_out_of_range (from to : Z) :
  (from >=? bucket_to b) || (to <? bucket_from b) = true ->
  List.filter (inTimeRange from to) es = [].
Proof using b_stores.
  intros Hout. apply filter_all_false. intros i e He.
  pose proof (stores_acceptable b es b_stores) as Hall. rewrite Forall_forall in Hall.
  destruct (Hall e (list_elem_of_lookup_2 _ _ _ He)) as [Hr _].
  unfold isTimeInRange in Hr. apply andb_prop in Hr as [H1 H2].
  apply Z.leb_le in H1. apply Z.ltb_lt in H2.
  unfold inTimeRange. apply orb_prop in Hout as [H|H].
  - apply Z.geb_le in H. destruct (Z.leb_spec from (entry_time e)); [lia|reflexivity].
  - apply Z.ltb_lt in H. destruct (Z.leb_spec (entry_time e) to); [lia|].
    apply andb_false_r.
Qed.

(** What [select] returns on a bucket that stores [es]. *)
Lemma select_stored (asc : bool) (from to : Z) :
  from <= to ->
  select {| opt_asc := asc; opt_from := from; opt_to := to |} b
  = (Returned (if asc then List.filter (inTimeRange from to) es
               else reverse (List.filter (inTimeRange from to) es)), b).
Proof using b_stores.
  intros Hft. unfold select. cbn [opt_asc opt_from opt_to].
  destruct ((from >=? bucket_to b) || (to <? bucket_from b)) eqn:Hout.
  { rewrite (stores_out_of_range from to Hout). by destruct asc. }
  destruct (stores_bytes b es b_stores) as (d & Hd & _).
  unfold runDataOperation, bind. rewrite (loadData_loaded b d Hd).
  destruct (getTimeRangeByteOffsets_stored b es b_stores from to)
    as (lo & hi & -> & Hlower & Hupper).
  cbn [range_from range_to]. fold R.
  pose proof (stores_R b es b_stores) as HR. fold R in HR.
  pose proof (lower_le_upper _ _ _ _ _ Hft Hlower Hupper) as Hle.
  destruct (filter_inTimeRange_slice es lo hi from to Hlower Hupper Hle) as (-> & _ & _).
  assert (Hhi : (hi <= length es)%nat).
  { destruct Hupper as [H _]. unfold timesOf in H. by rewrite length_map in H. }
  replace (Z.of_nat hi * R - Z.of_nat lo * R) with (Z.of_nat (hi - lo) * R) by nia.
  rewrite Z_mod_mult, Z.div_mul by lia.
  destruct (Z.eqb_spec R 0); [lia|].
  destruct (Z.ltb_spec (Z.of_nat (hi - lo)) 0); [lia|]. simpl.
  destruct asc.
  - by rewrite map_entryAt_slice by lia.
  - rewrite (descending_is_reverse (entryAt b) R (hi - lo) (Z.of_nat lo * R)) by nia.
    by rewrite map_entryAt_slice by lia.
Qed.

End Selection.

(** C8 for a single bucket, in whatever state: when the ascending [select]
    returns a list, the descending one returns its reverse; when one throws,
    the other throws the same; both leave the same state. *)
Lemma select_descending (b : ZektaTimeBucket) (from to : Z) :
  select {| opt_asc := false; opt_from := from; opt_to := to |} b
  = (match fst (select {| opt_asc := true; opt_from := from; opt_to := to |} b) with
     | Returned entries => Returned (reverse entries)
     | Thrown e => Thrown e
     end,
     snd (select {| opt_asc := true; opt_from := from; opt_to := to |} b)).
Proof.
  unfold select. cbn [opt_asc opt_from opt_to].
  destruct ((from >=? bucket_to b) || (to <? bucket_from b)); [reflexivity|].
  unfold runDataOperation, bind. destruct (loadData b) as [[[]|e] b1]; [|reflexivity].
  set (offsets := getTimeRangeByteOffsets b1 _).
  set (R := entryByteLength b1).
  set (span := range_to offsets - range_from offsets).
  destruct ((R =? 0) || negb (span mod R =? 0) || (span / R <? 0)) eqn:Hbad;
    [reflexivity|].
  cbn [fst snd]. f_equal.
  apply orb_false_elim in Hbad as [Hbad Hneg].
  apply orb_false_elim in Hbad as [HR0 Hmod].
  apply Z.eqb_neq in HR0. apply Z.ltb_ge in Hneg.
  apply negb_false_iff, Z.eqb_eq in Hmod.
  f_equal.
  rewrite <- (Z2Nat.id (span / R)) by exact Hneg.
  apply descending_is_reverse.
  rewrite Z2Nat.id by exact Hneg. apply Z.div_exact in Hmod; [|lia]. fold span. lia.
Qed.

(** ** Edits of the bytes *)

Lemma overwrite_adjacent (offset : Z) (s1 s2 bytes : list Z) :
  0 <= offset -> (Z.to_nat offset + length s1 <= length bytes)%nat ->
  overwrite (offset + Z.of_nat (length s1)) s2 (overwrite offset s1 bytes)
  = overwrite offset (s1 ++ s2) bytes.
Proof.
  intros H0 Hfit. unfold overwrite.
  replace (Z.to_nat (offset + Z.of_nat (length s1)))
    with (Z.to_nat offset + length s1)%nat by lia.
  set (o := Z.to_nat offset) in *.
  assert (Ho : length (take o bytes) = o) by (rewrite length_take; lia).
  rewrite (app_assoc (take o bytes) s1).
  rewrite take_app_length' by (rewrite length_app; lia).
  rewrite drop_app_add' by (rewrite length_app; lia).
  rewrite drop_drop, length_app, <- !app_assoc.
  do 4 f_equal. lia.
Qed.

Lemma length_overwrite (offset : Z) (source bytes : list Z) :
  (Z.to_nat offset + length source <= length bytes)%nat ->
  length (overwrite offset source bytes) = length bytes.
Proof.
  intros Hfit. unfold overwrite.
  rewrite !length_app, length_take, length_drop. lia.
Qed.

Lemma relativeIndex_inside (len i : Z) : 0 <= i <= len -> relativeIndex len i = i.
Proof.
  intros Hi. unfold relativeIndex. destruct (Z.ltb_spec i 0); lia.
Qed.

Lemma relativeIndex_bounds (len i : Z) : 0 <= len -> 0 <= relativeIndex len i <= len.
Proof.
  intros Hlen. unfold relativeIndex. destruct (Z.ltb_spec i 0); lia.
Qed.

Lemma length_copyWithin (target start end_ : Z) (bytes : list Z) :
  length (copyWithin target start end_ bytes) = length bytes.
Proof.
  unfold copyWithin. cbv zeta.
  pose proof (relativeIndex_bounds (Z.of_nat (length bytes)) target ltac:(lia)).
  pose proof (relativeIndex_bounds (Z.of_nat (length bytes)) start ltac:(lia)).
  pose proof (relativeIndex_bounds (Z.of_nat (length bytes)) end_ ltac:(lia)).
  destruct (0 <? Z.min _ _) eqn:Hc; [|reflexivity].
  apply Z.ltb_lt in Hc.
  rewrite !length_app, !length_take, !length_drop. lia.
Qed.

(** Making room for a record of [R] bytes at [off] in [L] bytes of content,
    and writing the record there. *)
Lemma open_and_write (bytes record : list Z) (off L R : Z) :
  0 <= off <= L -> 0 <= R -> L + R <= Z.of_nat (length bytes) ->
  Z.of_nat (length record) = R ->
  take (Z.to_nat (L + R))
       (overwrite off record (copyWithin (off + R) off (L + R) bytes))
  = take (Z.to_nat off) bytes ++ record ++
    take (Z.to_nat (L - off)) (drop (Z.to_nat off) bytes).
Proof.
  intros Hoff HR Hfit Hrec. unfold copyWithin. cbv zeta.
  rewrite !relativeIndex_inside by lia.
  set (len := Z.of_nat (length bytes)) in *.
  destruct (Z.ltb_spec 0 (Z.min (L + R - off) (len - (off + R)))) as [Hc|Hc].
  - set (count := Z.min (L + R - off) (len - (off + R))) in *.
    set (A := take (Z.to_nat (off + R)) bytes).
    set (M := take (Z.to_nat count) (drop (Z.to_nat off) bytes)).
    set (T := drop (Z.to_nat (off + R + count)) bytes).
    assert (HA : length A = Z.to_nat (off + R)).
    { unfold A. rewrite length_take. lia. }
    assert (HM : length M = Z.to_nat count).
    { unfold M. rewrite length_take, length_drop. lia. }
    unfold overwrite.
    assert (E1 : take (Z.to_nat off) (A ++ M ++ T) = take (Z.to_nat off) bytes).
    { rewrite take_app_le by lia. unfold A. rewrite take_take. f_equal. lia. }
    assert (E2 : drop (Z.to_nat off + length record) (A ++ M ++ T) = M ++ T).
    { apply drop_app_length'. lia. }
    rewrite E1, E2.
    rewrite (app_assoc _ record). rewrite take_app_ge by (rewrite length_app, length_take; lia).
    rewrite <- app_assoc. do 2 f_equal.
    rewrite length_app, length_take.
    rewrite take_app_le by lia. unfold M. rewrite take_take. f_equal. lia.
  - assert (off = L) by lia. subst off.
    unfold overwrite.
    replace (Z.to_nat (L - L)) with 0%nat by lia. rewrite take_0, app_nil_r.
    rewrite app_assoc. apply take_app_length'.
    rewrite length_app, length_take. lia.
Qed.

(** Closing the gap [[lo, hi)] in [L] bytes of content. *)
Lemma close_gap (bytes : list Z) (lo hi L : Z) :
  0 <= lo <= hi -> hi <= L -> L <= Z.of_nat (length bytes) ->
  take (Z.to_nat (L - (hi - lo))) (copyWithin lo hi L bytes)
  = take (Z.to_nat lo) bytes ++ take (Z.to_nat (L - hi)) (drop (Z.to_nat hi) bytes).
Proof.
  intros Hlo Hhi Hfit. unfold copyWithin. cbv zeta.
  rewrite !relativeIndex_inside by lia.
  set (len := Z.of_nat (length bytes)) in *.
  rewrite Z.min_l by lia.
  destruct (Z.ltb_spec 0 (L - hi)) as [Hc|Hc].
  - rewrite app_assoc. rewrite take_app_length'; [reflexivity|].
    rewrite length_app, !length_take, length_drop. lia.
  - assert (hi = L) by lia. subst hi.
    replace (Z.to_nat (L - L)) with 0%nat by lia. rewrite take_0, app_nil_r.
    f_equal. lia.
Qed.

(** ** Growing the arena of a bucket *)

Lemma wellFormedBuffer_new : wellFormedBuffer ResizeableBuffer_new.
Proof.
  split; [vm_compute; split; discriminate|].
  split; [intros _; reflexivity|].
  split; [intros _; vm_compute; discriminate | left; reflexivity].
Qed.

Lemma wellFormedBuffer_view (bytes : list Z) :
  wellFormedBuffer (ResizeableBuffer_view (readFile_bufferByteLength bytes) bytes).
Proof.
  unfold wellFormedBuffer, programBuffer, viewsSpanBuffer, byteLength, viewByteLength,
    readFile_bufferByteLength.
  cbn [rb_resizable rb_maxByteLength rb_bytes rb_length ResizeableBuffer_view].
  split; [lia|]. split; [discriminate|]. split; [discriminate|].
  destruct (Z.eqb_spec (Z.of_nat (length bytes)) 0); [by right | left; lia].
Qed.

(** Writing bytes in place changes neither the views nor the storage. *)
Lemma byteLength_set_rb_bytes (bytes : list Z) (d : ResizeableBuffer) :
  length bytes = length (rb_bytes d) ->
  viewByteLength (set_rb_bytes bytes d) = viewByteLength d /\
  byteLength (set_rb_bytes bytes d) = byteLength d.
Proof.
  intros Hl. unfold byteLength, viewByteLength. cbn [rb_bytes rb_resizable
    rb_maxByteLength set_rb_bytes]. rewrite Hl. split; reflexivity.
Qed.

Lemma wellFormedBuffer_set_rb_bytes (bytes : list Z) (d : ResizeableBuffer) :
  length bytes = length (rb_bytes d) ->
  wellFormedBuffer d -> wellFormedBuffer (set_rb_bytes bytes d).
Proof.
  intros Hl. unfold wellFormedBuffer, programBuffer, viewsSpanBuffer.
  destruct (byteLength_set_rb_bytes bytes d Hl) as [-> ->]. tauto.
Qed.

Lemma wellFormedBuffer_set_rb_length (newLength : Z) (d : ResizeableBuffer) :
  0 <= newLength <= viewByteLength d ->
  wellFormedBuffer d -> wellFormedBuffer (set_rb_length newLength d).
Proof.
  intros Hn (_ & Hp & Hcap & Hspan).
  split; [exact Hn|]. split; [exact Hp|]. split; [exact Hcap | exact Hspan].
Qed.

(** A [resize] that returns either has room for the new length in views that
    show all of the storage, with the bytes it had followed by fresh ones;
    or was asked for more than [GROWTH_LIMIT] and is left with views too
    short for any record; or has kept views that show nothing. *)
Lemma resize_Returned (d d' : ResizeableBuffer) (newLength : Z) :
  wellFormedBuffer d -> 0 <= newLength ->
  resize newLength d = (Returned tt, d') ->
  rb_length d' = newLength /\
  programBuffer d' /\
  (rb_resizable d' = true -> byteLength d' <= MAX_BYTES) /\
  ((newLength <= viewByteLength d' /\ viewsSpanBuffer d' /\
    exists extra, rb_bytes d' = rb_bytes d ++ extra) \/
   (viewByteLength d' * 2 ^ 30 < newLength /\
    (viewByteLength d' < 8 \/ rb_length d <= viewByteLength d')) \/
   viewByteLength d' = 0).
Proof.
  intros (Hlen & Hprog & Hcap & Hspan) Hn Hres.
  pose proof (viewByteLength_le d) as Hc0.
  unfold resize in Hres. destruct (rb_resizable d) eqn:Hr.
  - specialize (Hprog Hr). specialize (Hcap eq_refl). rewrite Hprog in Hres.
    rewrite (byteLength_resizable d Hr) in *.
    destruct (Z.gtb_spec newLength MAX_BYTES) as [|Hmax]; [discriminate|].
    destruct (Z.gtb_spec newLength (viewByteLength d)) as [Hgrow|Hstay];
      injection Hres as <-.
    + set (d1 := set_rb_length _ _).
      assert (Hr1 : rb_resizable d1 = true) by exact Hr.
      assert (Hv1 : viewByteLength d1
                    = Z.min MAX_BYTES (getOptimalBufferLength newLength)).
      { unfold viewByteLength, d1. cbn [rb_bytes set_rb_length ArrayBuffer_resize].
        rewrite length_resize.
        destruct (Z.le_gt_cases newLength GROWTH_LIMIT) as [Hsmall|Hbig].
        - pose proof (getOptimalBufferLength_small newLength ltac:(lia)) as (_ & Hlo & Hhi).
          lia.
        - pose proof (getOptimalBufferLength_wrapped newLength Hbig) as [Hpos Hwr]. lia. }
      split; [reflexivity|]. split; [intros _; exact Hprog|].
      rewrite (byteLength_resizable d1 Hr1), Hv1.
      split; [intros _; lia|].
      destruct (Z.le_gt_cases newLength GROWTH_LIMIT) as [Hsmall|Hbig].
      * left. pose proof (getOptimalBufferLength_small newLength ltac:(lia))
          as (_ & Hlo & Hhi).
        split; [unfold MAX_BYTES in *; lia|].
        split; [by apply viewsSpanBuffer_resizable|].
        exists (replicate (Z.to_nat (Z.min MAX_BYTES (getOptimalBufferLength newLength))
                           - length (rb_bytes d)) 0).
        apply resize_ge. unfold viewByteLength, MAX_BYTES in *. lia.
      * right. left.
        pose proof (getOptimalBufferLength_wrapped newLength Hbig) as [Hpos Hwr].
        assert (Hm : Z.min MAX_BYTES (getOptimalBufferLength newLength)
                     <= getOptimalBufferLength newLength) by lia.
        split; [nia|]. left. unfold MAX_BYTES in *. lia.
    + split; [reflexivity|]. split; [intros _; exact Hprog|].
      split; [intros Hr1; rewrite (byteLength_resizable _ Hr1); exact Hcap|].
      left. split; [exact Hstay|].
      split; [by apply viewsSpanBuffer_resizable|].
      exists []. by rewrite app_nil_r.
  - destruct (Z.gtb_spec newLength (byteLength d)) as [Hgrow|Hstay].
    + cbv zeta in Hres.
      destruct (Z.gtb_spec (Z.of_nat (length (rb_bytes d)))
                  (Z.min 0x100000000 (getOptimalBufferLength newLength))) as [|Hfits];
        [discriminate|].
      injection Hres as <-.
      set (d1 := mkResizeableBuffer _ _ _ _).
      assert (Hr1 : rb_resizable d1 = true) by reflexivity.
      assert (Hv1 : viewByteLength d1
                    = Z.min MAX_BYTES (getOptimalBufferLength newLength)).
      { unfold viewByteLength, d1. cbn [rb_bytes].
        rewrite length_app, length_replicate. unfold MAX_BYTES. lia. }
      split; [reflexivity|]. split; [intros _; reflexivity|].
      rewrite (byteLength_resizable d1 Hr1), Hv1.
      split; [intros _; lia|].
      destruct (Z.le_gt_cases newLength GROWTH_LIMIT) as [Hsmall|Hbig].
      * left. pose proof (getOptimalBufferLength_small newLength ltac:(lia))
          as (_ & Hlo & Hhi). unfold MAX_BYTES in *.
        split; [lia|]. split; [by apply viewsSpanBuffer_resizable|].
        unfold d1. cbn [rb_bytes]. eauto.
      * right. left.
        pose proof (getOptimalBufferLength_wrapped newLength Hbig) as [Hpos Hwr].
        split; [nia|]. right. unfold viewByteLength, MAX_BYTES in *. lia.
    + injection Hres as <-.
      split; [reflexivity|].
      split; [unfold programBuffer; cbn [rb_resizable set_rb_length]; congruence|].
      split; [cbn [rb_resizable set_rb_length]; congruence|].
      destruct Hspan as [Hspan|Hzero].
      * left. unfold viewsSpanBuffer in *.
        change (viewByteLength (set_rb_length newLength d)) with (viewByteLength d).
        change (byteLength (set_rb_length newLength d)) with (byteLength d).
        split; [lia|]. split; [exact Hspan|].
        exists []. by rewrite app_nil_r.
      * right. right. exact Hzero.
Qed.

(** ** Pushing a record *)

(** [pushRaw], step by step. *)
Lemma pushRaw_unfold (time : Z) (value : list Z) (b : ZektaTimeBucket) :
  pushRaw time value b =
  let off := getInsertionByteOffset b time in
  let R := entryByteLength b in
  match resize (rb_length (dataOf b) + R) (dataOf b) with
  | (Thrown e, d1) => (Thrown e, set_b_data (Some d1) b)
  | (Returned _, d1) =>
      let d2 := set_rb_bytes (copyWithin (off + R) off (rb_length d1) (rb_bytes d1)) d1 in
      if (off <? 0) || (off + 8 >? viewByteLength d2)
      then (Thrown RangeError_outOfBounds, set_b_data (Some d2) b)
      else
        let d3 := set_rb_bytes (overwrite off (encodeF64 time) (rb_bytes d2)) d2 in
        if (off + timeByteLength <? 0) ||
           (Z.of_nat (length value) + (off + timeByteLength) >? viewByteLength d3)
        then (Thrown RangeError_outOfBounds, set_b_data (Some d3) b)
        else
          (Returned off,
           set_b_data
             (Some (set_rb_bytes (overwrite (off + timeByteLength) value (rb_bytes d3)) d3))
             b)
  end.
Proof.
  unfold pushRaw, bind, gets, onData, setTime, setValue, onData, ret,
    Uint8Array_copyWithin, modify, DataView_setFloat64, Uint8Array_set.
  cbn [dataOf b_data set_b_data].
  destruct (resize _ (dataOf b)) as [[[]|e] d1]; [|reflexivity].
  cbn [dataOf b_data set_b_data].
  destruct ((_ <? 0) || _); [reflexivity|].
  cbn [dataOf b_data set_b_data].
  destruct ((_ <? 0) || _); reflexivity.
Qed.

Lemma timesOf_splice (es : list TimeSeriesEntry) (k : nat) (e : TimeSeriesEntry) :
  timesOf (take k es ++ e :: drop k es)
  = take k (timesOf es) ++ entry_time e :: drop k (timesOf es).
Proof.
  unfold timesOf. rewrite map_app. simpl. by rewrite <- fmap_take, <- fmap_drop.
Qed.

Section PushRaw.

Variable b : ZektaTimeBucket.
Variable es : list TimeSeriesEntry.
Hypothesis b_stores : stores b es.

Variable time : Z.
Variable value : list Z.
Hypothesis entry_acceptable : acceptable b (mkEntry time value).

Let R := entryByteLength b.

(** A [pushRaw] that returns has put the record at a position that keeps
    the entries in order, and has touched neither the flag nor the file. *)
Lemma pushRaw_stored (off : Z) (b' : ZektaTimeBucket) :
  pushRaw time value b = (Returned off, b') ->
  exists k,
    off = Z.of_nat k * R /\
    separatesAt (timesOf es) k time /\
    stores b' (take k es ++ mkEntry time value :: drop k es) /\
    b_requireFlush b' = b_requireFlush b /\
    b_file b' = b_file b /\
    b_id b' = b_id b /\
    b_valueByteLength b' = b_valueByteLength b.
Proof using b_stores entry_acceptable.
  pose proof (stores_R b es b_stores) as HR. fold R in HR.
  pose proof (stores_length b es b_stores) as HL. fold R in HL.
  pose proof (stores_acceptable b es b_stores) as Hacc.
  destruct (stores_bytes b es b_stores) as (d & Hd & Hdata & Hwf & _ & Hbytes).
  destruct b_stores as (Hsafe & HV & _ & _ & Hsorted).
  destruct entry_acceptable as [Htime Hvalue]. cbn [entry_time entry_value] in *.
  rewrite pushRaw_unfold. cbv zeta. fold R.
  destruct (getInsertionByteOffset_stored b es b_stores time) as (k & -> & Hsep).
  fold R.
  pose proof Hsep as (Hk & _ & _). unfold timesOf in Hk. rewrite length_map in Hk.
  rewrite Hdata in *. rewrite HL.
  set (L := Z.of_nat (length es) * R) in *.
  destruct (resize (L + R) d) as [[[]|e] d1] eqn:Hres; [|discriminate].
  destruct (resize_Returned d d1 (L + R) Hwf ltac:(lia) Hres)
    as (Hlen1 & Hprog1 & Hcap1 & Hroom).
  rewrite Hlen1.
  set (bytes2 := copyWithin _ _ _ _).
  assert (Hlen2 : length bytes2 = length (rb_bytes d1)) by apply length_copyWithin.
  unfold viewByteLength. cbn [rb_bytes set_rb_bytes].
  destruct ((Z.of_nat k * R <? 0) || _) eqn:Hchk1; [discriminate|].
  apply orb_false_elim in Hchk1 as [_ Hfit1]. rewrite Z.gtb_ltb, Z.ltb_ge in Hfit1.
  rewrite length_overwrite by (rewrite length_encodeF64; lia).
  destruct ((Z.of_nat k * R + timeByteLength <? 0) || _) eqn:Hchk2; [discriminate|].
  apply orb_false_elim in Hchk2 as [_ Hfit2]. rewrite Z.gtb_ltb, Z.ltb_ge in Hfit2.
  unfold timeByteLength in *.
  assert (HRV : R = 8 + b_valueByteLength b) by reflexivity.
  intros Heq. injection Heq as <- <-.
  destruct Hroom as [(Hroom & Hspan1 & [extra Hextra])|[[Hwrap Hsmall]|Hzero]].
  2:{ exfalso. unfold viewByteLength in *. rewrite Hlen2 in *.
      destruct Hsmall as [Hsmall|Hsmall]; [lia|].
      destruct Hwf as [Hwf _].
      assert (0 < Z.of_nat (length (rb_bytes d1))) by lia. nia. }
  2:{ exfalso. unfold viewByteLength in *. rewrite Hlen2 in *. lia. }
  exists k. split; [reflexivity|]. split; [exact Hsep|].
  split; [|repeat split; reflexivity].
  unfold stores. cbn [b_id b_valueByteLength b_data set_b_data].
  split; [exact Hsafe|]. split; [exact HV|]. split; [|split].
  - eexists. split; [reflexivity|].
    assert (Hov : overwrite (Z.of_nat k * R + 8) value
                    (overwrite (Z.of_nat k * R) (encodeF64 time) bytes2)
                  = overwrite (Z.of_nat k * R) (encodeF64 time ++ value) bytes2).
    { replace 8 with (Z.of_nat (length (encodeF64 time)))
        by (rewrite length_encodeF64; reflexivity).
      apply overwrite_adjacent; [lia|]. rewrite length_encodeF64. lia. }
    unfold wellFormedBuffer, programBuffer, viewsSpanBuffer, byteLength, viewByteLength in *.
    cbn [rb_length rb_bytes rb_resizable rb_maxByteLength set_rb_bytes].
    rewrite Hov.
    rewrite length_overwrite by (rewrite length_app, length_encodeF64; lia).
    rewrite Hlen2, Hlen1.
    split; [repeat split; try assumption; try lia; by left|].
    split.
    { rewrite length_app, length_cons, length_take, length_drop.
      change (entryByteLength _) with R. unfold L. nia. }
    unfold bytes2.
    rewrite open_and_write;
      [|unfold L; nia|lia|lia|rewrite length_app, length_encodeF64; lia].
    rewrite encodeEntries_app, encodeEntries_cons.
    unfold encodeEntry. cbn [entry_time entry_value].
    assert (Hpre : take (Z.to_nat L) (rb_bytes d1) = encodeEntries es).
    { rewrite Hextra, take_app_le by (destruct Hwf; lia).
      rewrite Hbytes at 1. apply take_app_length'.
      rewrite (length_encodeEntries b) by assumption. fold R. unfold L. lia. }
    f_equal; [|f_equal].
    + rewrite <- (take_encodeEntries b) by assumption. fold R. rewrite <- Hpre.
      rewrite take_take. f_equal. unfold L. nia.
    + rewrite <- (drop_encodeEntries b) by assumption. fold R. rewrite <- Hpre.
      rewrite take_drop_commute. f_equal; [nia|]. f_equal. unfold L. nia.
  - apply Forall_app. split; [by apply Forall_take|].
    apply Forall_cons. split; [|by apply Forall_drop].
    split; assumption.
  - rewrite timesOf_splice. cbn [entry_time].
    destruct Hsep as (Hk' & Hb & Ha).
    apply StronglySorted_splice; assumption.
Qed.

(** While the content stays within [GROWTH_LIMIT], [pushRaw] returns on
    data whose views show all of the storage. *)
Lemma pushRaw_returns :
  viewsSpanBuffer (dataOf b) ->
  rb_length (dataOf b) + R <= GROWTH_LIMIT ->
  exists off b', pushRaw time value b = (Returned off, b').
Proof using b_stores entry_acceptable.
  intros Hspan Hlim.
  pose proof (stores_R b es b_stores) as HR. fold R in HR.
  pose proof (stores_length b es b_stores) as HL. fold R in HL.
  destruct (stores_bytes b es b_stores) as (d & Hd & Hdata & Hwf & _ & Hbytes).
  destruct entry_acceptable as [Htime Hvalue]. cbn [entry_time entry_value] in *.
  rewrite pushRaw_unfold. cbv zeta. fold R.
  destruct (getInsertionByteOffset_stored b es b_stores time) as (k & -> & Hsep).
  fold R.
  pose proof Hsep as (Hk & _ & _). unfold timesOf in Hk. rewrite length_map in Hk.
  rewrite Hdata in *. rewrite HL in *.
  set (L := Z.of_nat (length es) * R) in *.
  destruct Hwf as (Hlen & Hprog & _).
  destruct (resize_returns_room d (L + R) Hprog Hspan Hlim) as (d1 & -> & Hlen1 & Hroom & _).
  rewrite Hlen1.
  unfold viewByteLength in *. cbn [rb_bytes set_rb_bytes].
  rewrite length_copyWithin.
  assert (HRV : R = 8 + b_valueByteLength b) by reflexivity.
  destruct (Z.ltb_spec (Z.of_nat k * R) 0); [lia|].
  destruct (Z.gtb_spec (Z.of_nat k * R + 8) (Z.of_nat (length (rb_bytes d1)))); [nia|].
  cbn [orb].
  rewrite length_overwrite by (rewrite length_encodeF64, length_copyWithin; nia).
  rewrite length_copyWithin. unfold timeByteLength.
  destruct (Z.ltb_spec (Z.of_nat k * R + 8) 0); [lia|].
  destruct (Z.gtb_spec (Z.of_nat (length value) + (Z.of_nat k * R + 8))
              (Z.of_nat (length (rb_bytes d1)))); [nia|].
  cbn [orb]. eauto.
Qed.

End PushRaw.

(** A bucket that stores an entry has views that show all of its storage. *)
Lemma stores_viewsSpanBuffer (b : ZektaTimeBucket) (es : list TimeSeriesEntry) :
  stores b es -> es <> [] -> viewsSpanBuffer (dataOf b).
Proof.
  intros Hst Hne.
  pose proof (stores_R b es Hst) as HR.
  pose proof (stores_length b es Hst) as HL.
  destruct (stores_bytes b es Hst) as (d & Hd & Hdata & Hwf & _).
  rewrite Hdata in *. destruct Hwf as (Hlen & _ & _ & [Hspan|Hzero]); [exact Hspan|].
  exfalso. destruct es as [|e es]; [congruence|]. simpl length in HL. nia.
Qed.

(** ** The operations of a bucket *)

Lemma runDataOperation_unfold {A} (task : M ZektaTimeBucket unit -> M ZektaTimeBucket A)
    (b : ZektaTimeBucket) :
  runDataOperation task b = task requireFlush (snd (loadData b)).
Proof. reflexivity. Qed.

Lemma stores_set_requireFlush (flag : bool) (b : ZektaTimeBucket)
    (es : list TimeSeriesEntry) :
  stores b es -> stores (set_b_requireFlush flag b) es.
Proof. intros H. exact H. Qed.

Lemma stores_loaded (b : ZektaTimeBucket) (es : list TimeSeriesEntry) :
  stores b es -> snd (loadData b) = b.
Proof.
  intros (_ & _ & (d & Hd & _) & _). by rewrite (loadData_loaded b d Hd).
Qed.

Lemma acceptable_congr (b b' : ZektaTimeBucket) (e : TimeSeriesEntry) :
  b_id b' = b_id b -> b_valueByteLength b' = b_valueByteLength b ->
  acceptable b' e <-> acceptable b e.
Proof.
  intros Hid HV.
  unfold acceptable, isTimeInRange, bucket_from, bucket_to. by rewrite Hid, HV.
Qed.

(** A [push] that returns has checked the entry, stored it in order and set
    the flag. *)
Lemma push_stored (b b' : ZektaTimeBucket) (es : list TimeSeriesEntry)
    (time : Z) (value : list Z) :
  stores (snd (loadData b)) es ->
  push time value b = (Returned tt, b') ->
  exists k,
    acceptable b (mkEntry time value) /\
    separatesAt (timesOf es) k time /\
    stores b' (take k es ++ mkEntry time value :: drop k es) /\
    b_requireFlush b' = true /\
    b_file b' = b_file (snd (loadData b)) /\
    b_id b' = b_id b /\
    b_valueByteLength b' = b_valueByteLength b.
Proof.
  intros Hst. unfold push. rewrite runDataOperation_unfold.
  set (b1 := snd (loadData b)) in *.
  assert (Hid : b_id b1 = b_id b /\ b_valueByteLength b1 = b_valueByteLength b).
  { unfold b1, loadData, modify. simpl.
    destruct (b_data b); [done|]. by destruct (b_file b). }
  destruct Hid as [Hid HV].
  unfold bind, throwIfTimeOutOfRange, throwIfValueLengthIsInvalid.
  destruct (isTimeInRange b1 time) eqn:Htime; [|discriminate]. cbn [negb].
  destruct (Z.eqb_spec (Z.of_nat (length value)) (b_valueByteLength b1)) as [Hlen|];
    [|discriminate]. cbn [negb].
  assert (Hacc : acceptable b1 (mkEntry time value)) by (split; assumption).
  destruct (pushRaw time value b1) as [[off|e] b2] eqn:Hpush; [|discriminate].
  destruct (pushRaw_stored b1 es Hst time value Hacc off b2 Hpush)
    as (k & _ & Hsep & Hst2 & Hflag & Hfile & Hid2 & HV2).
  unfold requireFlush, modify. intros Heq. injection Heq as <-.
  exists k. split; [by apply (acceptable_congr b b1)|].
  split; [exact Hsep|]. split; [by apply stores_set_requireFlush|].
  cbn [b_requireFlush b_file b_id b_valueByteLength set_b_requireFlush].
  repeat split; congruence.
Qed.

Lemma Permutation_splice {A} (l : list A) (k : nat) (x : A) :
  take k l ++ x :: drop k l ≡ₚ x :: l.
Proof.
  rewrite <- Permutation_middle. by rewrite take_drop.
Qed.

(** After a sequence of successful pushes the bucket stores what it stored
    before and the pushed entries, each of which it accepts. *)
Lemma pushAll_stored (entries : list TimeSeriesEntry) : forall b es b',
  stores (snd (loadData b)) es ->
  pushAll entries b = (Returned tt, b') ->
  exists es',
    stores (snd (loadData b')) es' /\
    es' ≡ₚ entries ++ es /\
    Forall (acceptable b) entries.
Proof.
  induction entries as [|e entries IH]; intros b es b' Hst Hrun.
  - injection Hrun as <-. exists es. auto.
  - unfold pushAll in Hrun. simpl in Hrun. unfold bind in Hrun.
    destruct (push (entry_time e) (entry_value e) b) as [[[]|err] b1] eqn:Hpush;
      [|discriminate].
    destruct (push_stored b b1 es _ _ Hst Hpush)
      as (k & Hacc & _ & Hst1 & _ & _ & Hid & HV).
    rewrite <- (stores_loaded _ _ Hst1) in Hst1.
    destruct (IH b1 _ b' Hst1 Hrun) as (es' & Hst' & Hperm & Hall).
    exists es'. split; [exact Hst'|]. split.
    + rewrite Hperm, Permutation_splice. destruct e. simpl.
      by rewrite Permutation_middle.
    + constructor; [by destruct e|].
      eapply Forall_impl; [exact Hall|]. intros x. by apply acceptable_congr.
Qed.

Lemma select_loadData (options : TimeSeriesSelectOptions) (b : ZektaTimeBucket) :
  fst (select options b) = fst (select options (snd (loadData b))).
Proof.
  unfold select.
  assert (Hid : bucket_to (snd (loadData b)) = bucket_to b /\
                bucket_from (snd (loadData b)) = bucket_from b).
  { unfold loadData, modify. simpl.
    destruct (b_data b); [done|]. by destruct (b_file b). }
  destruct Hid as [-> ->].
  destruct (_ || _); [reflexivity|].
  rewrite !runDataOperation_unfold. by rewrite loadData_idempotent.
Qed.

Lemma stores_new (id valueByteLength : Z) :
  isSafeInteger id = true -> 0 <= valueByteLength ->
  stores (snd (loadData (ZektaTimeBucket_new id valueByteLength None))) [].
Proof.
  intros Hsafe HV. unfold stores. simpl.
  split; [exact Hsafe|]. split; [exact HV|].
  split; [|split; constructor].
  eexists. split; [reflexivity|]. split; [apply wellFormedBuffer_new|].
  split; reflexivity.
Qed.

(** A range that covers the bucket selects every entry. *)
Lemma filter_covering (b : ZektaTimeBucket) (es : list TimeSeriesEntry) (from to : Z) :
  stores b es -> from <= bucket_from b -> bucket_to b <= to ->
  List.filter (inTimeRange from to) es = es.
Proof.
  intros Hst Hfrom Hto. apply filter_all_true. intros i e He.
  pose proof (stores_acceptable b es Hst) as Hall. rewrite Forall_forall in Hall.
  destruct (Hall e (list_elem_of_lookup_2 _ _ _ He)) as [Hr _].
  unfold isTimeInRange in Hr. apply andb_prop in Hr as [H1 H2].
  apply Z.leb_le in H1. apply Z.ltb_lt in H2.
  unfold inTimeRange. apply andb_true_intro. split; apply Z.leb_le; lia.
Qed.

Lemma bucket_from_lt_to (b : ZektaTimeBucket) :
  isSafeInteger (b_id b) = true -> bucket_from b < bucket_to b.
Proof.
  intros Hs. rewrite (bucket_to_safe b Hs).
  unfold bucket_from, getTimeFromId, timeRange. lia.
Qed.

Lemma StronglySorted_le_NoDup_lt (ts : list Z) :
  StronglySorted Z.le ts -> NoDup ts -> StronglySorted Z.lt ts.
Proof.
  induction 1 as [|t ts Hss IH Hall]; intros Hnd; [constructor|].
  apply NoDup_cons in Hnd as [Hnotin Hnd].
  constructor; [by apply IH|].
  rewrite Forall_forall in *. intros x Hx. specialize (Hall x Hx).
  assert (x <> t) by (intros ->; contradiction). lia.
Qed.

(** Loading touches the data only. *)
Lemma loadData_fields (b : ZektaTimeBucket) :
  b_id (snd (loadData b)) = b_id b /\
  b_valueByteLength (snd (loadData b)) = b_valueByteLength b /\
  b_requireFlush (snd (loadData b)) = b_requireFlush b /\
  b_file (snd (loadData b)) = b_file b.
Proof.
  unfold loadData, modify. cbn [snd]. destruct (b_data b); [done|].
  destruct (b_file b) eqn:Hfile; cbn; rewrite ?Hfile; auto.
Qed.

Lemma loadData_id (b : ZektaTimeBucket) : b_id (snd (loadData b)) = b_id b.
Proof.
  unfold loadData, modify. simpl. destruct (b_data b); [done|]. by destruct (b_file b).
Qed.

Lemma push_id (time : Z) (value : list Z) (b b' : ZektaTimeBucket) :
  push time value b = (Returned tt, b') -> b_id b' = b_id b.
Proof.
  unfold push. rewrite runDataOperation_unfold.
  unfold bind, throwIfTimeOutOfRange, throwIfValueLengthIsInvalid.
  destruct (negb (isTimeInRange _ _)); [discriminate|].
  destruct (negb (_ =? _)); [discriminate|].
  rewrite pushRaw_unfold. cbv zeta.
  destruct (resize _ _) as [[[]|e1] d1]; [|discriminate].
  destruct (_ || _); [discriminate|]. destruct (_ || _); [discriminate|].
  unfold requireFlush, modify. intros H. injection H as <-. apply loadData_id.
Qed.

Lemma pushAll_id (entries : list TimeSeriesEntry) : forall b b',
  pushAll entries b = (Returned tt, b') -> b_id b' = b_id b.
Proof.
  induction entries as [|e entries IH]; intros b b' H.
  - by injection H as <-.
  - unfold pushAll in H. simpl in H. unfold bind in H.
    destruct (push _ _ b) as [[[]|err] b1] eqn:Hp; [|discriminate].
    rewrite (IH b1 b' H). by apply push_id in Hp.
Qed.

(** C1.  Take a bucket that holds no entry (a new bucket with no file, or a
    loaded bucket that stores nothing).  After any sequence of successful
    pushes at pairwise distinct times, a [select] in ascending order over a
    range that covers the bucket returns the pushed entries and nothing
    else, in strictly ascending order of time; each pushed time lay in the
    bucket's range. *)
Theorem push_select_round_trip (b0 b' : ZektaTimeBucket) (entries : list TimeSeriesEntry)
    (from to : Z) :
  stores (loaded b0) [] ->
  NoDup (timesOf entries) ->
  pushAll entries b0 = (Returned tt, b') ->
  from <= bucket_from b0 -> bucket_to b0 <= to ->
  exists result,
    fst (select {| opt_asc := true; opt_from := from; opt_to := to |} b')
    = Returned result /\
    result ≡ₚ entries /\
    StronglySorted Z.lt (timesOf result) /\
    Forall (fun e => bucket_from b0 <= entry_time e < bucket_to b0) entries.
Proof.
  intros Hempty Hnd Hrun Hfrom Hto.
  destruct (pushAll_stored _ b0 [] b' Hempty Hrun) as (es' & Hst & Hperm & Hall).
  rewrite app_nil_r in Hperm.
  assert (Hids : bucket_from (snd (loadData b')) = bucket_from b0 /\
                 bucket_to (snd (loadData b')) = bucket_to b0).
  { unfold bucket_from, bucket_to.
    by rewrite loadData_id, (pushAll_id _ _ _ Hrun). }
  destruct Hids as [Hf Ht].
  assert (Hsafe0 : isSafeInteger (b_id b0) = true).
  { destruct Hempty as (Hs & _). unfold loaded in Hs. by rewrite loadData_id in Hs. }
  exists es'. split; [|split; [exact Hperm|split]].
  - rewrite select_loadData.
    rewrite (select_stored _ es' Hst true from to)
      by (pose proof (bucket_from_lt_to b0 Hsafe0); lia).
    cbn [fst]. f_equal. apply (filter_covering (snd (loadData b'))); [exact Hst|lia|lia].
  - apply StronglySorted_le_NoDup_lt; [apply (stores_sorted _ _ Hst)|].
    unfold timesOf. rewrite Hperm. exact Hnd.
  - eapply Forall_impl; [exact Hall|]. intros x [Hr _].
    unfold isTimeInRange in Hr.
    apply andb_prop in Hr as [H1 H2]. apply Z.leb_le in H1. apply Z.ltb_lt in H2. lia.
Qed.

Lemma push_select_round_trip_witness :
  exists result,
    fst (select {| opt_asc := true; opt_from := 0; opt_to := 512 |}
           (snd (pushAll [mkEntry 10 [1]; mkEntry 1 [2]; mkEntry 2 [3]; mkEntry 4 [4]]
                   (ZektaTimeBucket_new 0 1 None))))
    = Returned result /\
    result ≡ₚ [mkEntry 10 [1]; mkEntry 1 [2]; mkEntry 2 [3]; mkEntry 4 [4]].
Proof.
  destruct (push_select_round_trip (ZektaTimeBucket_new 0 1 None)
              (snd (pushAll [mkEntry 10 [1]; mkEntry 1 [2]; mkEntry 2 [3]; mkEntry 4 [4]]
                      (ZektaTimeBucket_new 0 1 None)))
              [mkEntry 10 [1]; mkEntry 1 [2]; mkEntry 2 [3]; mkEntry 4 [4]]
              0 512) as (result & Hsel & Hperm & _).
  - apply (stores_new 0 1); [reflexivity | lia].
  - unfold timesOf. simpl.
    repeat (apply NoDup_cons_2; [rewrite list_elem_of_In; simpl; lia|]).
    apply NoDup_nil_2.
  - vm_compute. reflexivity.
  - vm_compute. discriminate.
  - vm_compute. discriminate.
  - exists result. split; assumption.
Defined.

(** ** Deleting a time range *)

Lemma delete_unfold (from to : Z) (b : ZektaTimeBucket) :
  delete {| range_from := from; range_to := to |} b =
  if (from >=? bucket_to b) || (to <? bucket_from b) then (Returned tt, b)
  else
    let b1 := snd (loadData b) in
    let offsets := getTimeRangeByteOffsets b1 {| range_from := from; range_to := to |} in
    let lo := range_from offsets in
    let hi := range_to offsets in
    if lo =? hi then (Returned tt, b1)
    else
      let d := dataOf b1 in
      let d1 := set_rb_bytes (copyWithin lo hi (rb_length d) (rb_bytes d)) d in
      match resize (rb_length d1 - (hi - lo)) d1 with
      | (Returned _, d2) => (Returned tt, set_b_requireFlush true (set_b_data (Some d2) b1))
      | (Thrown e, d2) => (Thrown e, set_b_data (Some d2) b1)
      end.
Proof.
  unfold delete. cbn [range_from range_to].
  destruct (_ || _); [reflexivity|].
  rewrite runDataOperation_unfold. cbv zeta.
  unfold bind, gets, ret, onData, Uint8Array_copyWithin, modify, requireFlush.
  destruct (_ =? _); [reflexivity|].
  cbn [dataOf b_data set_b_data].
  destruct (resize _ _) as [[[]|e] d2]; reflexivity.
Qed.

Lemma resize_within (newLength : Z) (rb : ResizeableBuffer) :
  wellFormedBuffer rb -> newLength <= byteLength rb ->
  resize newLength rb = (Returned tt, set_rb_length newLength rb).
Proof.
  intros (_ & Hp & Hcap & _) Hle. unfold resize.
  destruct (rb_resizable rb) eqn:Hr.
  - rewrite (Hp Hr). specialize (Hcap eq_refl).
    destruct (Z.gtb_spec newLength MAX_BYTES); [lia|].
    destruct (Z.gtb_spec newLength (byteLength rb)); [lia|]. reflexivity.
  - destruct (Z.gtb_spec newLength (byteLength rb)); [lia|]. reflexivity.
Qed.

Lemma stores_not_inTimeRange (b : ZektaTimeBucket) (es : list TimeSeriesEntry)
    (from to : Z) :
  stores b es ->
  (from >=? bucket_to b) || (to <? bucket_from b) = true ->
  List.filter (fun e => negb (inTimeRange from to e)) es = es.
Proof.
  intros Hst Hout. apply filter_all_true. intros i e He.
  pose proof (stores_acceptable b es Hst) as Hall. rewrite Forall_forall in Hall.
  destruct (Hall e (list_elem_of_lookup_2 _ _ _ He)) as [Hr _].
  unfold isTimeInRange in Hr. apply andb_prop in Hr as [H1 H2].
  apply Z.leb_le in H1. apply Z.ltb_lt in H2.
  unfold inTimeRange. apply orb_prop in Hout as [H|H].
  - apply Z.geb_le in H. destruct (Z.leb_spec from (entry_time e)); [lia|reflexivity].
  - apply Z.ltb_lt in H. destruct (Z.leb_spec (entry_time e) to); [lia|].
    by rewrite andb_false_r.
Qed.

Lemma StronglySorted_take_drop (ts : list Z) (lo hi : nat) :
  (lo <= hi)%nat -> StronglySorted Z.le ts ->
  StronglySorted Z.le (take lo ts ++ drop hi ts).
Proof.
  intros Hle Hss.
  rewrite <- (take_drop lo ts) in Hss.
  apply StronglySorted_app in Hss as (Hcross & Hl & Hr).
  apply StronglySorted_app_2; [|exact Hl|].
  - intros x1 x2 H1 H2. apply Hcross; [exact H1|].
    replace hi with (lo + (hi - lo))%nat in H2 by lia. rewrite <- drop_drop in H2.
    by apply (subseteq_drop (hi - lo)).
  - replace hi with (lo + (hi - lo))%nat by lia. rewrite <- drop_drop.
    rewrite <- (take_drop (hi - lo) (drop lo ts)) in Hr.
    by apply StronglySorted_app in Hr as (_ & _ & Hr).
Qed.

(** [delete] on a bucket that stores [es] returns, leaves the entries
    outside the range, and sets the flag unless it changed nothing. *)
Lemma delete_stored (b : ZektaTimeBucket) (es : list TimeSeriesEntry) (from to : Z) :
  stores b es -> from <= to ->
  exists b',
    delete {| range_from := from; range_to := to |} b = (Returned tt, b') /\
    stores b' (List.filter (fun e => negb (inTimeRange from to e)) es) /\
    b_file b' = b_file b /\
    ((b' = b /\ List.filter (inTimeRange from to) es = []) \/
     (b_requireFlush b' = true /\ List.filter (inTimeRange from to) es <> [])).
Proof.
  intros Hst Hft. rewrite delete_unfold.
  destruct ((from >=? bucket_to b) || (to <? bucket_from b)) eqn:Hout.
  { exists b. rewrite (stores_not_inTimeRange b es from to Hst Hout).
    rewrite (stores_out_of_range b es Hst from to Hout). auto 6. }
  cbv zeta. rewrite (stores_loaded b es Hst).
  pose proof (stores_R b es Hst) as HR.
  pose proof (stores_length b es Hst) as HL.
  pose proof (stores_acceptable b es Hst) as Hacc.
  destruct (getTimeRangeByteOffsets_stored b es Hst from to)
    as (lo & hi & -> & Hlower & Hupper).
  cbn [range_from range_to].
  set (R := entryByteLength b) in *.
  pose proof (lower_le_upper _ _ _ _ _ Hft Hlower Hupper) as Hle.
  destruct (filter_inTimeRange_slice es lo hi from to Hlower Hupper Hle)
    as (Hin & -> & _).
  assert (Hhi : (hi <= length es)%nat).
  { destruct Hupper as [H _]. unfold timesOf in H. by rewrite length_map in H. }
  destruct (Z.eqb_spec (Z.of_nat lo * R) (Z.of_nat hi * R)) as [Heq|Hne].
  { assert (lo = hi) by nia. subst hi. exists b. rewrite take_drop, Hin.
    replace (lo - lo)%nat with 0%nat by lia. rewrite take_0. auto 6. }
  assert (Hlt : (lo < hi)%nat) by (destruct (Nat.eq_dec lo hi); [subst; lia | lia]).
  destruct (stores_bytes b es Hst) as (d & Hd & Hdata & Hwf & _ & Hbytes).
  rewrite Hdata in *. cbn [rb_length set_rb_bytes]. rewrite HL.
  set (L := Z.of_nat (length es) * R) in *.
  rewrite resize_within.
  2:{ apply wellFormedBuffer_set_rb_bytes; [apply length_copyWithin | exact Hwf]. }
  2:{ etransitivity; [|apply viewByteLength_le].
      unfold viewByteLength. cbn [rb_bytes set_rb_bytes]. rewrite length_copyWithin.
      destruct Hwf as (Hlen & _). unfold viewByteLength in Hlen. nia. }
  eexists. split; [reflexivity|].
  destruct Hst as (Hsafe & HV & _ & _ & Hsorted).
  split; [|split; [reflexivity|]].
  - unfold stores. cbn [b_id b_valueByteLength b_data set_b_data set_b_requireFlush].
    split; [exact Hsafe|]. split; [exact HV|]. split; [|split].
    + eexists. split; [reflexivity|].
      split.
      { apply wellFormedBuffer_set_rb_length;
          [|apply wellFormedBuffer_set_rb_bytes; [apply length_copyWithin | exact Hwf]].
        unfold viewByteLength. cbn [rb_bytes set_rb_bytes]. rewrite length_copyWithin.
        destruct Hwf as (Hlen & _). unfold viewByteLength in Hlen. nia. }
      cbn [rb_length rb_bytes rb_resizable rb_maxByteLength set_rb_bytes set_rb_length].
      pose proof Hwf as (Hlen & _). unfold viewByteLength in Hlen.
      split.
      { rewrite length_app, length_take, length_drop.
        change (entryByteLength _) with R. unfold L. nia. }
      rewrite close_gap by (unfold L; nia).
      rewrite encodeEntries_app.
      assert (Hpre : take (Z.to_nat L) (rb_bytes d) = encodeEntries es).
      { rewrite Hbytes at 1. apply take_app_length'.
        rewrite (length_encodeEntries b) by assumption. unfold L, R. lia. }
      f_equal.
      * rewrite <- (take_encodeEntries b) by assumption. fold R. rewrite <- Hpre.
        rewrite take_take. f_equal. unfold L. nia.
      * rewrite <- (drop_encodeEntries b) by assumption. fold R. rewrite <- Hpre.
        rewrite take_drop_commute. f_equal; [nia|]. f_equal. unfold L. nia.
    + apply Forall_app. split; [by apply Forall_take | by apply Forall_drop].
    + unfold timesOf. rewrite map_app, fmap_take, fmap_drop.
      apply StronglySorted_take_drop; [lia | exact Hsorted].
  - right. split; [reflexivity|]. rewrite Hin. intros Hnil.
    apply (f_equal length) in Hnil. rewrite length_take, length_drop in Hnil.
    simpl in Hnil. lia.
Qed.



Lemma stores_bucketWithTies :
  stores bucketWithTies
    [mkEntry 3 [8]; mkEntry 5 [1]; mkEntry 5 [2]; mkEntry 5 [3]; mkEntry 7 [9]].
Proof.
  unfold stores. split; [reflexivity|]. split; [vm_compute; discriminate|].
  split; [|split].
  - eexists. split; [vm_compute; reflexivity|].
    split; [|split; vm_compute; reflexivity].
    split; [vm_compute; split; discriminate|].
    split; [intros _; reflexivity|].
    split; [intros _; vm_compute; discriminate | left; vm_compute; reflexivity].
  - repeat constructor.
  - unfold timesOf. simpl. repeat constructor; lia.
Qed.


(** ** The dirty flag *)




(** The same for a [delete] whose range matches no entry and for an [insert]
    of the empty batch. *)
Lemma noop_mutations_leave_flag_clear :
  ~ leavesRequireFlushSet (delete {| range_from := 100; range_to := 200 |}) emptyBucket /\
  snd (insert ([], emptyBucket)) = ([], emptyBucket).
Proof.
  split; [|reflexivity].
  intros H. specialize (H emptyBucket eq_refl). discriminate H.
Qed.

(** The bounds of [delete] matter in this order.  With [from] above [to] no
    entry lies in the range, yet [delete] can lengthen the data and set the
    flag: on the bucket with ties, once flushed, [delete] of the range from
    6 to 4 takes the data from 45 to 72 bytes. *)
Lemma delete_reversed_range_sets_flag :
  let b := snd (flush false bucketWithTies) in
  let r := delete {| range_from := 6; range_to := 4 |} b in
  stores b [mkEntry 3 [8]; mkEntry 5 [1]; mkEntry 5 [2]; mkEntry 5 [3]; mkEntry 7 [9]] /\
  b_requireFlush b = false /\
  rb_length (dataOf b) = 45 /\
  fst r = Returned tt /\
  b_requireFlush (snd r) = true /\
  rb_length (dataOf (snd r)) = 72.
Proof.
  cbv zeta. split; [|vm_compute; repeat split].
  unfold stores. split; [vm_compute; reflexivity|]. split; [vm_compute; discriminate|].
  split; [|split].
  - eexists. split; [vm_compute; reflexivity|].
    split; [|split; vm_compute; reflexivity].
    split; [vm_compute; split; discriminate|].
    split; [intros _; reflexivity|].
    split; [intros _; vm_compute; discriminate | left; vm_compute; reflexivity].
  - repeat constructor.
  - unfold timesOf. simpl. repeat constructor; lia.
Qed.

(** ** Flushing *)


(** C3, as the code has it.  On a loaded bucket [flush] returns.  When the
    flag is set, the file afterwards holds exactly the first [length] bytes
    of the data, or is absent when the length is zero, and the flag is
    cleared; when the flag is clear, the file is left as it was.  The data
    is released exactly when [unload] is asked for. *)
Theorem flush_persists (b : ZektaTimeBucket) (d : ResizeableBuffer) (unload : bool) :
  b_data b = Some d ->
  exists b',
    flush unload b = (Returned tt, b') /\
    b_file b' = (if b_requireFlush b then persisted d else b_file b) /\
    b_requireFlush b' = false /\
    b_data b' = (if unload then None else Some d).
Proof.
  intros Hd. unfold flush, persisted. rewrite Hd.
  destruct (b_requireFlush b) eqn:Hflag.
  - destruct (rb_length d =? 0); destruct unload; eexists;
      (split; [reflexivity|]); cbn; auto.
  - destruct unload; eexists; (split; [reflexivity|]); cbn; auto.
Qed.

Lemma flush_persists_witness :
  exists b',
    flush false bucketWithTies = (Returned tt, b') /\
    b_file b' = Some [3; 0; 0; 0; 0; 0; 0; 0; 8;   5; 0; 0; 0; 0; 0; 0; 0; 1;
                      5; 0; 0; 0; 0; 0; 0; 0; 2;   5; 0; 0; 0; 0; 0; 0; 0; 3;
                      7; 0; 0; 0; 0; 0; 0; 0; 9].
Proof.
  destruct (flush_persists bucketWithTies (dataOf bucketWithTies) false)
    as (b' & Hflush & Hfile & _).
  - vm_compute. reflexivity.
  - exists b'. split; [exact Hflush|]. rewrite Hfile. vm_compute. reflexivity.
Defined.

(** C3, as the specification words it, fails on a bucket whose flag is
    clear while its data differs from the file: after the failed [insert]
    the data holds two records, and [flush] leaves the file absent. *)
Lemma flush_skips_clean_bucket : ~ flushPersistsData bucketAfterFailedInsert.
Proof.
  intros H.
  specialize (H (dataOf bucketAfterFailedInsert) false bucketAfterFailedInsert
                eq_refl eq_refl).
  vm_compute in H. discriminate H.
Qed.

(** ** A batch that fails part-way *)



Lemma insert_step_accepts (b : ZektaTimeBucket) (e : TimeSeriesEntry)
    (array : list TimeSeriesEntry) :
  acceptable b e ->
  insert_step e (array, b)
  = (match fst (pushRaw (entry_time e) (entry_value e) b) with
     | Returned _ => Returned tt
     | Thrown err => Thrown err
     end,
     (array, snd (pushRaw (entry_time e) (entry_value e) b))).
Proof.
  intros [Hr Hv]. unfold insert_step, bind, withEntries, throwIfTimeOutOfRange,
    throwIfValueLengthIsInvalid, ret.
  rewrite Hr. cbn [negb].
  destruct (Z.eqb_spec (Z.of_nat (length (entry_value e))) (b_valueByteLength b));
    [|contradiction].
  cbn [negb]. by destruct (pushRaw _ _ b) as [[off|err] b1].
Qed.


Lemma Array_sort_place_Permutation {A} (compare : A -> A -> Z) (x : A) (l : list A) :
  Array_sort_place compare x l ≡ₚ x :: l.
Proof.
  induction l as [|y l IH]; simpl; [reflexivity|].
  destruct (_ <=? _); [reflexivity|]. rewrite IH. apply perm_swap.
Qed.

Lemma Array_sort_Permutation {A} (compare : A -> A -> Z) (l : list A) :
  Array_sort compare l ≡ₚ l.
Proof.
  induction l as [|x l IH]; simpl; [reflexivity|].
  by rewrite Array_sort_place_Permutation, IH.
Qed.

Lemma Array_sort_place_sorted (x : TimeSeriesEntry) (l : list TimeSeriesEntry) :
  StronglySorted Z.le (timesOf l) ->
  StronglySorted Z.le (timesOf (Array_sort_place sortTimeSeriesEntries x l)).
Proof.
  induction l as [|y l IH]; intros Hss; simpl.
  - repeat constructor.
  - unfold sortTimeSeriesEntries at 1.
    simpl in Hss. apply StronglySorted_cons in Hss as [Hall Hss].
    destruct (Z.leb_spec (entry_time x - entry_time y) 0) as [Hle|Hgt]; simpl.
    + apply StronglySorted_cons. split.
      * constructor; [lia|]. eapply Forall_impl; [exact Hall|]. simpl. intros; lia.
      * apply StronglySorted_cons. auto.
    + apply StronglySorted_cons. split; [|by apply IH].
      unfold timesOf. rewrite (Array_sort_place_Permutation _ x l). simpl.
      constructor; [lia | exact Hall].
Qed.

(** The model of [entries.sort(sortTimeSeriesEntries)] orders the batch by
    ascending time and keeps its entries. *)
Lemma Array_sort_sorted (l : list TimeSeriesEntry) :
  StronglySorted Z.le (timesOf (Array_sort sortTimeSeriesEntries l)) /\
  Array_sort sortTimeSeriesEntries l ≡ₚ l.
Proof.
  split; [|apply Array_sort_Permutation].
  induction l as [|x l IH]; simpl; [constructor|]. by apply Array_sort_place_sorted.
Qed.



(** ** Selection across the buckets of a series *)

Lemma onBucket_fst {A} (i : Z) (m : M ZektaTimeBucket A) (s : ZektaTimeSeries) :
  fst (onBucket i m s) =
  if i <? 0 then Thrown TypeError_undefined
  else match s_buckets s !! Z.to_nat i with
       | Some b => fst (m b)
       | None => Thrown TypeError_undefined
       end.
Proof.
  unfold onBucket. destruct (i <? 0); [reflexivity|].
  destruct (s_buckets s !! Z.to_nat i) as [b|]; [|reflexivity].
  by destruct (m b).
Qed.

(** A task of one bucket leaves the other buckets as they are. *)
Lemma onBucket_other {A B} (i j : Z) (m : M ZektaTimeBucket A) (m' : M ZektaTimeBucket B)
    (s : ZektaTimeSeries) :
  i <> j ->
  fst (onBucket j m' (snd (onBucket i m s))) = fst (onBucket j m' s).
Proof.
  intros Hij. rewrite !onBucket_fst.
  destruct (Z.ltb_spec j 0) as [|Hj]; [reflexivity|].
  unfold onBucket. destruct (Z.ltb_spec i 0) as [|Hi]; [reflexivity|].
  destruct (s_buckets s !! Z.to_nat i) as [b|] eqn:Hb; [|reflexivity].
  destruct (m b) as [r b1]. cbn [snd s_buckets set_s_buckets].
  rewrite list_lookup_insert_ne by lia. reflexivity.
Qed.

(** The tasks of distinct buckets settle as they would one by one. *)
Lemma allSettled_onBucket {A} (m : M ZektaTimeBucket A) (indexes : list Z) :
  NoDup indexes ->
  forall s s0,
    (forall j, j ∈ indexes -> fst (onBucket j m s) = fst (onBucket j m s0)) ->
    fst (allSettled (map (fun i => onBucket i m) indexes) s)
    = map (fun i => settle (fst (onBucket i m s0))) indexes.
Proof.
  induction 1 as [|i indexes Hnotin Hnd IH]; intros s s0 Hsame; [reflexivity|].
  simpl. destruct (onBucket i m s) as [r s1] eqn:Hrun.
  destruct (allSettled _ s1) as [rs s2] eqn:Hrest. simpl.
  f_equal.
  - rewrite <- (Hsame i) by left. by rewrite Hrun.
  - rewrite <- (IH s1 s0); [by rewrite Hrest|].
    intros j Hj. rewrite <- (Hsame j) by (by right).
    replace s1 with (snd (onBucket i m s)) by (by rewrite Hrun).
    apply onBucket_other. intros ->. contradiction.
Qed.

Lemma rejectedReasons_reverse {A} (rs : list (PromiseSettledResult A)) :
  rejectedReasons (reverse rs) = reverse (rejectedReasons rs).
Proof.
  induction rs as [|[v|e] rs IH]; [reflexivity| |].
  - rewrite reverse_cons, rejectedReasons_app, IH. simpl. by rewrite app_nil_r.
  - rewrite reverse_cons, rejectedReasons_app, IH. simpl. by rewrite reverse_cons.
Qed.

Lemma fulfilledValues_reverse {A} (rs : list (PromiseSettledResult A)) :
  fulfilledValues (reverse rs) = reverse (fulfilledValues rs).
Proof.
  induction rs as [|[v|e] rs IH]; [reflexivity| |].
  - rewrite reverse_cons, fulfilledValues_app, IH. simpl. by rewrite reverse_cons.
  - rewrite reverse_cons, fulfilledValues_app, IH. simpl. by rewrite app_nil_r.
Qed.

Lemma rejectedReasons_reverseSettled {A} (rs : list (PromiseSettledResult (list A))) :
  rejectedReasons (map reverseSettled rs) = rejectedReasons rs.
Proof. induction rs as [|[v|e] rs IH]; simpl; congruence. Qed.

Lemma fulfilledValues_reverseSettled {A} (rs : list (PromiseSettledResult (list A))) :
  fulfilledValues (map reverseSettled rs) = map reverse (fulfilledValues rs).
Proof. induction rs as [|[v|e] rs IH]; simpl; congruence. Qed.

Lemma concat_reverse {A} (ls : list (list A)) :
  concat (reverse (map reverse ls)) = reverse (concat ls).
Proof.
  induction ls as [|l ls IH]; [reflexivity|].
  simpl. rewrite reverse_cons, concat_app, IH, reverse_app. simpl.
  by rewrite app_nil_r.
Qed.

Lemma settle_reverseOutcome {A} (o : outcome (list A)) :
  settle (reverseOutcome o) = reverseSettled (settle o).
Proof. by destruct o. Qed.

Lemma select_descending_fst (b : ZektaTimeBucket) (from to : Z) :
  fst (select {| opt_asc := false; opt_from := from; opt_to := to |} b)
  = reverseOutcome (fst (select {| opt_asc := true; opt_from := from; opt_to := to |} b)).
Proof. by rewrite select_descending. Qed.

(** C8.  For a single bucket and for a series, in whatever state and for
    whatever range: when [select] in ascending order returns a list,
    [select] in descending order returns exactly its reverse; when the
    former throws, so does the latter. *)
Theorem select_descending_is_reverse :
  (forall (b : ZektaTimeBucket) (from to : Z),
     match fst (select {| opt_asc := true; opt_from := from; opt_to := to |} b) with
     | Returned entries =>
         fst (select {| opt_asc := false; opt_from := from; opt_to := to |} b)
         = Returned (reverse entries)
     | Thrown e =>
         fst (select {| opt_asc := false; opt_from := from; opt_to := to |} b) = Thrown e
     end) /\
  (forall (s : ZektaTimeSeries) (from to : Z),
     match fst (Series_select {| opt_asc := true; opt_from := from; opt_to := to |} s) with
     | Returned entries =>
         fst (Series_select {| opt_asc := false; opt_from := from; opt_to := to |} s)
         = Returned (reverse entries)
     | Thrown _ =>
         exists e,
           fst (Series_select {| opt_asc := false; opt_from := from; opt_to := to |} s)
           = Thrown e
     end).
Proof.
  split.
  - intros b from to. rewrite select_descending_fst.
    by destruct (fst (select _ b)).
  - intros s from to. unfold Series_select. cbn [opt_asc opt_from opt_to].
    set (indexes := getTimeRangeBucketIndexesInArray s _).
    set (visited := seqZ (range_from indexes) (range_to indexes - range_from indexes)).
    set (ascending := {| opt_asc := true; opt_from := from; opt_to := to |}).
    set (descending := {| opt_asc := false; opt_from := from; opt_to := to |}).
    pose proof (allSettled_onBucket (select ascending) visited (NoDup_seqZ _ _) s s
                  (fun _ _ => eq_refl)) as Hasc.
    assert (Hnd : NoDup (reverse visited)).
    { rewrite reverse_Permutation. apply NoDup_seqZ. }
    pose proof (allSettled_onBucket (select descending) (reverse visited) Hnd s s
                  (fun _ _ => eq_refl)) as Hdesc.
    destruct (allSettled (map _ visited) s) as [rsA sA].
    destruct (allSettled (map _ (reverse visited)) s) as [rsD sD].
    cbn [fst] in Hasc, Hdesc.
    assert (HrsD : rsD = reverse (map reverseSettled rsA)).
    { rewrite Hasc, Hdesc.
      change (map ?f ?l) with (f <$> l). rewrite <- list_fmap_compose, fmap_reverse.
      f_equal. apply list_fmap_ext. intros _ i _. simpl.
      rewrite <- settle_reverseOutcome. f_equal.
      rewrite !onBucket_fst. destruct (i <? 0); [reflexivity|].
      destruct (s_buckets s !! Z.to_nat i); [|reflexivity].
      apply select_descending_fst. }
    unfold handlePromiseAllSettledResult. rewrite HrsD.
    rewrite rejectedReasons_reverse, rejectedReasons_reverseSettled.
    rewrite fulfilledValues_reverse, fulfilledValues_reverseSettled.
    destruct (rejectedReasons rsA) as [|e1 [|e2 errors]]; cbn [fst].
    + rewrite reverse_nil. cbn [fst]. by rewrite concat_reverse.
    + rewrite reverse_singleton. cbn [fst]. eauto.
    + rewrite !reverse_cons.
      destruct (reverse errors) as [|e3 [|e4 l]]; simpl; eauto.
Qed.

(** On the example series, over a range that spans its three buckets. *)
Lemma Series_select_both_ways :
  fst (Series_select {| opt_asc := true; opt_from := 4; opt_to := 1050 |} seriesOfThree)
  = Returned [mkEntry 5 [1]; mkEntry 5 [2]; mkEntry 5 [3]; mkEntry 7 [9];
              mkEntry 600 [7]; mkEntry 1030 [6]] /\
  fst (Series_select {| opt_asc := false; opt_from := 4; opt_to := 1050 |} seriesOfThree)
  = Returned [mkEntry 1030 [6]; mkEntry 600 [7]; mkEntry 7 [9];
              mkEntry 5 [3]; mkEntry 5 [2]; mkEntry 5 [1]].
Proof. split; vm_compute; reflexivity. Qed.

(* ================================================================== *)
(** * Part III: further properties *)
(* ================================================================== *)

(** ** More on the helpers *)

Lemma binarySearch_loop_bounds (compare : Z -> Z) : forall fuel low high,
  low <= high + 1 ->
  low <= binarySearch_loop fuel compare low high <= high + 1.
Proof.
  induction fuel as [|fuel IH]; intros low high H; cbn [binarySearch_loop]; [lia|].
  destruct (Z.leb_spec low high); [|lia].
  assert (Hmid : low <= (low + high) / 2 <= high).
  { split; [apply Z.div_le_lower_bound | apply Z.div_le_upper_bound]; lia. }
  destruct (compare ((low + high) / 2) =? 0); [lia|].
  destruct (compare ((low + high) / 2) <? 0).
  - specialize (IH ((low + high) / 2 + 1) high ltac:(lia)). lia.
  - specialize (IH low ((low + high) / 2 - 1) ltac:(lia)). lia.
Qed.

Lemma binarySearch_bounds (len : Z) (compare : Z -> Z) :
  0 <= len -> 0 <= binarySearch len compare <= len.
Proof.
  intros H. unfold binarySearch.
  pose proof (binarySearch_loop_bounds compare (Z.to_nat len) 0 (len - 1)). lia.
Qed.

Lemma binarySearch_loop_ext (compare compare' : Z -> Z) : forall fuel low high,
  (forall i, low <= i <= high -> compare i = compare' i) ->
  binarySearch_loop fuel compare low high = binarySearch_loop fuel compare' low high.
Proof.
  induction fuel as [|fuel IH]; intros low high Hext; cbn [binarySearch_loop]; [reflexivity|].
  destruct (Z.leb_spec low high); [|reflexivity].
  assert (Hmid : low <= (low + high) / 2 <= high).
  { split; [apply Z.div_le_lower_bound | apply Z.div_le_upper_bound]; lia. }
  rewrite <- (Hext _ Hmid).
  destruct (compare ((low + high) / 2) =? 0); [reflexivity|].
  destruct (compare ((low + high) / 2) <? 0); apply IH; intros i Hi; apply Hext; lia.
Qed.

(** X1.  [binarySearch] calls the comparator on indexes of the collection
    only, and returns an index in [[0, length]]: two comparators that agree
    on [[0, length)] give the same result, whatever they answer elsewhere
    and whether or not they are monotone. *)
Theorem binarySearch_stays_inside (len : Z) (compare compare' : Z -> Z) :
  0 <= len ->
  (forall i, 0 <= i < len -> compare i = compare' i) ->
  binarySearch len compare = binarySearch len compare' /\
  0 <= binarySearch len compare <= len.
Proof.
  intros Hlen Hext. split.
  - unfold binarySearch. apply binarySearch_loop_ext.
    intros i Hi. apply Hext. lia.
  - unfold binarySearch.
    pose proof (binarySearch_loop_bounds compare (Z.to_nat len) 0 (len - 1)). lia.
Qed.

Lemma binarySearch_stays_inside_witness :
  binarySearch 3 (compareWith [1; 4; 9] 5)
  = binarySearch 3 (fun i => if i <? 3 then compareWith [1; 4; 9] 5 i else -7) /\
  0 <= binarySearch 3 (compareWith [1; 4; 9] 5) <= 3.
Proof.
  apply (binarySearch_stays_inside 3); [lia|].
  intros i Hi. destruct (Z.ltb_spec i 3); [reflexivity|lia].
Defined.

(** X2.  On a monotone comparator that is zero somewhere on the collection,
    [binarySearch] returns an index where it is zero: a value that is
    present is found. *)
Theorem binarySearch_finds_match (len : Z) (compare : Z -> Z) (j : Z) :
  (forall i i', 0 <= i -> i <= i' -> i' < len -> compare i <= compare i') ->
  0 <= j < len -> compare j = 0 ->
  0 <= binarySearch len compare < len /\
  compare (binarySearch len compare) = 0.
Proof.
  intros Hmono Hj Hzero.
  pose proof (binarySearch_spec compare len Hmono ltac:(lia)) as Hspec.
  cbv zeta in Hspec.
  destruct Hspec as [Hfound | (Hk & Hbelow & Habove)]; [exact Hfound|].
  exfalso.
  destruct (Z.lt_ge_cases j (binarySearch len compare)) as [Hlt | Hge].
  - specialize (Hbelow j ltac:(lia)). lia.
  - specialize (Habove j ltac:(lia)). lia.
Qed.

Lemma binarySearch_finds_match_witness :
  compareWith [1; 4; 4; 9] 4 (binarySearch 4 (compareWith [1; 4; 4; 9] 4)) = 0.
Proof.
  apply (binarySearch_finds_match 4 (compareWith [1; 4; 4; 9] 4) 2).
  - intros i i' Hi Hii' Hi'.
    assert (Hcases : (i = 0 \/ i = 1 \/ i = 2 \/ i = 3) /\
                     (i' = 0 \/ i' = 1 \/ i' = 2 \/ i' = 3)) by lia.
    destruct Hcases as [[-> | [-> | [-> | ->]]] [-> | [-> | [-> | ->]]]];
      vm_compute; try discriminate; lia.
  - lia.
  - reflexivity.
Defined.

Lemma binarySearch_iterations_log (compare : Z -> Z) : forall fuel bound low high,
  high - low + 1 < 2 ^ Z.of_nat bound ->
  (binarySearch_iterations fuel compare low high <= bound)%nat.
Proof.
  induction fuel as [|fuel IH]; intros bound low high Hsize;
    cbn [binarySearch_iterations]; [lia|].
  destruct (Z.leb_spec low high); [|lia].
  destruct bound as [|bound]; [simpl in Hsize; lia|].
  rewrite Nat2Z.inj_succ, Z.pow_succ_r in Hsize by lia.
  assert (Hmid : low <= (low + high) / 2 <= high).
  { split; [apply Z.div_le_lower_bound | apply Z.div_le_upper_bound]; lia. }
  assert (Hhalf : 2 * ((low + high) / 2) <= low + high < 2 * ((low + high) / 2) + 2).
  { pose proof (Z.div_mod (low + high) 2 ltac:(lia)).
    pose proof (Z.mod_pos_bound (low + high) 2 ltac:(lia)). lia. }
  destruct (compare ((low + high) / 2) =? 0); [lia|].
  destruct (compare ((low + high) / 2) <? 0).
  - specialize (IH bound ((low + high) / 2 + 1) high ltac:(lia)). lia.
  - specialize (IH bound low ((low + high) / 2 - 1) ltac:(lia)). lia.
Qed.

Lemma binarySearch_loop_log (compare : Z -> Z) : forall fuel fuel' low high,
  high - low + 1 < 2 ^ Z.of_nat fuel ->
  high - low + 1 < 2 ^ Z.of_nat fuel' ->
  binarySearch_loop fuel compare low high = binarySearch_loop fuel' compare low high.
Proof.
  induction fuel as [|fuel IH]; intros fuel' low high Hsize Hsize'.
  - simpl in Hsize. destruct fuel' as [|fuel']; [reflexivity|].
    cbn [binarySearch_loop]. destruct (Z.leb_spec low high); [lia | reflexivity].
  - destruct fuel' as [|fuel'].
    + simpl in Hsize'. cbn [binarySearch_loop].
      destruct (Z.leb_spec low high); [lia | reflexivity].
    + cbn [binarySearch_loop]. destruct (Z.leb_spec low high); [|reflexivity].
      rewrite Nat2Z.inj_succ, Z.pow_succ_r in Hsize, Hsize' by lia.
      assert (Hhalf : 2 * ((low + high) / 2) <= low + high < 2 * ((low + high) / 2) + 2).
      { pose proof (Z.div_mod (low + high) 2 ltac:(lia)).
        pose proof (Z.mod_pos_bound (low + high) 2 ltac:(lia)). lia. }
      destruct (compare ((low + high) / 2) =? 0); [reflexivity|].
      destruct (compare ((low + high) / 2) <? 0); apply IH; lia.
Qed.

(** X3.  The search is logarithmic: on a collection of [length >= 1] items
    the loop body runs, and the comparator is called, at most
    [floor (log2 length) + 1] times, for every comparator; after that many
    iterations the loop has ended with the result of the search. *)
Theorem binarySearch_is_logarithmic (len : Z) (compare : Z -> Z) :
  0 < len ->
  (forall fuel,
     (binarySearch_iterations fuel compare 0 (len - 1) <= Z.to_nat (Z.log2 len) + 1)%nat) /\
  binarySearch_loop (Z.to_nat (Z.log2 len) + 1) compare 0 (len - 1)
  = binarySearch len compare.
Proof.
  intros Hlen.
  pose proof (Z.log2_spec len Hlen) as [_ Hup].
  pose proof (Z.log2_nonneg len).
  assert (Hsize : len - 1 - 0 + 1 < 2 ^ Z.of_nat (Z.to_nat (Z.log2 len) + 1)).
  { replace (Z.of_nat (Z.to_nat (Z.log2 len) + 1)) with (Z.succ (Z.log2 len)) by lia.
    lia. }
  split.
  - intros fuel. by apply binarySearch_iterations_log.
  - unfold binarySearch. apply binarySearch_loop_log; [exact Hsize|].
    rewrite Z2Nat.id by lia. pose proof (Z.pow_gt_lin_r 2 len ltac:(lia)). lia.
Qed.

Lemma binarySearch_is_logarithmic_witness :
  (binarySearch_iterations 1000 (fun i => (i - 1000)%Z) 0 (1000 - 1)
   <= Z.to_nat (Z.log2 1000) + 1)%nat.
Proof.
  apply (binarySearch_is_logarithmic 1000 (fun i => i - 1000)). lia.
Defined.

Lemma fulfilled_of_no_rejection {A} (results : list (PromiseSettledResult A)) :
  rejectedReasons results = [] -> results = map fulfilled (fulfilledValues results).
Proof.
  induction results as [|[value | reason] results IH]; intros H; simpl in *.
  - reflexivity.
  - f_equal. by apply IH.
  - discriminate.
Qed.

(** X4.  [handlePromiseAllSettledResult] returns exactly when every result
    is fulfilled, and then returns the values in the order of the results:
    no value is dropped or reordered, and one rejection is enough for a
    throw. *)
Theorem handlePromiseAllSettledResult_returns_iff {A}
    (results : list (PromiseSettledResult A)) (values : list A) :
  handlePromiseAllSettledResult results = Returned values <->
  results = map fulfilled values.
Proof.
  split.
  - unfold handlePromiseAllSettledResult.
    destruct (rejectedReasons results) as [|r [|r' rs]] eqn:Hrej; intros H;
      try discriminate.
    injection H as <-. by apply fulfilled_of_no_rejection.
  - intros ->. unfold handlePromiseAllSettledResult.
    by rewrite rejectedReasons_fulfilled, fulfilledValues_fulfilled.
Qed.

(** ** More on the byte arena *)

(** X5.  The capacity [getOptimalBufferLength] proposes for a length [n] up
    to the growth limit is a power of two [c] with
    [2 * n^2 <= c^2 < 8 * n^2]: it exceeds [n] by a factor between
    [sqrt 2] and [2 * sqrt 2], so at least 41 percent of head room is left
    and less than three times the length is reserved. *)
Theorem getOptimalBufferLength_headroom (n : Z) :
  0 < n <= GROWTH_LIMIT ->
  let c := getOptimalBufferLength n in
  (exists k, 0 < k < 32 /\ c = 2 ^ k) /\
  2 * n * n <= c * c < 8 * n * n /\
  n < c < 3 * n.
Proof.
  intros Hn. cbv zeta.
  destruct (getOptimalBufferLength_small n Hn) as (Heq & Hle & Hmax).
  pose proof (ceil_log2_plus_half_spec n ltac:(lia)) as (Hk & Hlo & Hhi).
  cbv zeta in Hlo, Hhi. rewrite Heq in *.
  set (k := ceil_log2_plus_half n) in *.
  assert (H4 : 4 ^ k = 2 ^ k * 2 ^ k) by (rewrite <- Z.pow_mul_l; reflexivity).
  assert (H41 : 4 ^ k = 4 * 4 ^ (k - 1)).
  { replace k with (Z.succ (k - 1)) at 1 by lia. apply Z.pow_succ_r. lia. }
  assert (Hpos : 0 < 2 ^ k) by (apply Z.pow_pos_nonneg; lia).
  split; [|split; [|split]].
  - exists k. split; [|reflexivity]. split; [exact Hk|].
    destruct (Z.lt_ge_cases k 32) as [|Hge]; [assumption|exfalso].
    assert (2 ^ 32 <= 2 ^ k) by (apply Z.pow_le_mono_r; lia).
    unfold MAX_BYTES in Hmax. change 0x100000000 with (2 ^ 32) in Hmax. lia.
  - lia.
  - nia.
  - nia.
Qed.

Lemma getOptimalBufferLength_headroom_witness :
  2 * 257 * 257 <= getOptimalBufferLength 257 * getOptimalBufferLength 257 < 8 * 257 * 257.
Proof.
  apply (getOptimalBufferLength_headroom 257). unfold GROWTH_LIMIT. lia.
Defined.

(** X6.  Up to the growth limit the proposed capacity is monotone in the
    requested length. *)
Theorem getOptimalBufferLength_monotone (n m : Z) :
  0 < n -> n <= m -> m <= GROWTH_LIMIT ->
  getOptimalBufferLength n <= getOptimalBufferLength m.
Proof.
  intros Hn Hnm Hm.
  destruct (getOptimalBufferLength_small n ltac:(lia)) as (-> & _).
  destruct (getOptimalBufferLength_small m ltac:(lia)) as (-> & _).
  pose proof (ceil_log2_plus_half_spec n ltac:(lia)) as (Hk & _).
  apply Z.pow_le_mono_r; [lia|].
  unfold ceil_log2_plus_half.
  apply Z.div_le_mono; [lia|].
  apply Z.add_le_mono_r, Z.log2_up_le_mono. nia.
Qed.

Lemma getOptimalBufferLength_monotone_witness :
  getOptimalBufferLength 300 <= getOptimalBufferLength 400.
Proof.
  apply (getOptimalBufferLength_monotone 300 400); unfold GROWTH_LIMIT; lia.
Defined.

(** X7.  On the resizable storage the program builds, [resize] throws
    exactly when the requested length exceeds the maximum of [2^32] bytes;
    the error is then the size-limit error and the buffer is left as it
    was: neither its length nor its capacity has changed. *)
Theorem resize_throws_iff_over_limit (rb : ResizeableBuffer) (newLength : Z) :
  rb_resizable rb = true -> rb_maxByteLength rb = MAX_BYTES ->
  (fst (resize newLength rb) = Thrown SizeLimitReached <-> MAX_BYTES < newLength) /\
  (forall e, fst (resize newLength rb) = Thrown e ->
             e = SizeLimitReached /\ snd (resize newLength rb) = rb).
Proof.
  intros Hres Hmax. unfold resize. rewrite Hres, Hmax.
  destruct (Z.gtb_spec newLength MAX_BYTES) as [Hgt | Hle]; cbn [fst snd].
  - split; [split; [lia | reflexivity]|].
    intros e He. injection He as <-. split; reflexivity.
  - split; [split; [discriminate | lia]|].
    intros e He. discriminate He.
Qed.

Lemma resize_throws_iff_over_limit_witness :
  fst (resize (MAX_BYTES + 1) ResizeableBuffer_new) = Thrown SizeLimitReached.
Proof.
  apply (resize_throws_iff_over_limit ResizeableBuffer_new (MAX_BYTES + 1));
    [reflexivity | reflexivity | lia].
Defined.

(** ** Times and bucket ids *)

(** Beyond the safe integers the end of a bucket's range is rounded: the
    bucket of id [2^53] ends where it starts and accepts no time, not even
    the times that [getIdFromTime] maps to it. *)
Lemma isTimeInRange_beyond_safe (b : ZektaTimeBucket) (time : Z) :
  b_id b = 2 ^ 53 ->
  isTimeInRange b time = false /\ getIdFromTime (getTimeFromId (b_id b)) = b_id b.
Proof.
  intros Hid. unfold isTimeInRange, bucket_from, bucket_to. rewrite Hid.
  split.
  - replace (js_succ (2 ^ 53)) with (2 ^ 53) by (vm_compute; reflexivity).
    destruct (Z.leb_spec (getTimeFromId (2 ^ 53)) time); [|reflexivity].
    destruct (Z.ltb_spec time (getTimeFromId (2 ^ 53))); [lia | reflexivity].
  - vm_compute. reflexivity.
Qed.



(** ** More on the operations of a bucket *)

Lemma loaded_fields (b : ZektaTimeBucket) :
  b_id (loaded b) = b_id b /\
  b_valueByteLength (loaded b) = b_valueByteLength b /\
  b_requireFlush (loaded b) = b_requireFlush b /\
  b_file (loaded b) = b_file b.
Proof. apply loadData_fields. Qed.

Lemma isTimeInRange_congr (b b' : ZektaTimeBucket) (time : Z) :
  b_id b' = b_id b -> isTimeInRange b' time = isTimeInRange b time.
Proof.
  intros Hid. unfold isTimeInRange, bucket_from, bucket_to. by rewrite Hid.
Qed.

(** X9.  A [push] of an entry the bucket does not accept throws before
    anything is written: the error is the range error when the time is out
    of the bucket's range, the length error otherwise, and the bucket is
    left as loading it leaves it, with the dirty flag and the file as they
    were. *)
Theorem push_rejects_unacceptable (b : ZektaTimeBucket) (time : Z) (value : list Z) :
  ~ acceptable b (mkEntry time value) ->
  push time value b = (Thrown (rejection b (mkEntry time value)), loaded b) /\
  b_requireFlush (loaded b) = b_requireFlush b /\
  b_file (loaded b) = b_file b.
Proof.
  intros Hbad.
  destruct (loaded_fields b) as (Hid & HV & Hflag & Hfile).
  split; [|split; assumption].
  unfold push. rewrite runDataOperation_unfold. fold (loaded b).
  unfold bind, throwIfTimeOutOfRange, throwIfValueLengthIsInvalid, rejection.
  cbn [entry_time entry_value].
  rewrite (isTimeInRange_congr b (loaded b)) by exact Hid.
  destruct (isTimeInRange b time) eqn:Htime; cbn [negb]; [|reflexivity].
  rewrite HV.
  destruct (Z.eqb_spec (Z.of_nat (length value)) (b_valueByteLength b)) as [Hlen|_];
    cbn [negb]; [|reflexivity].
  exfalso. apply Hbad. split; assumption.
Qed.

Lemma push_rejects_unacceptable_witness :
  push 600 [1] emptyBucket = (Thrown (TimeOutOfRange 600), emptyBucket).
Proof.
  refine (proj1 (push_rejects_unacceptable emptyBucket 600 [1] _)).
  intros [Hr _]. vm_compute in Hr. discriminate Hr.
Defined.

Lemma push_returns (b : ZektaTimeBucket) (es : list TimeSeriesEntry)
    (time : Z) (value : list Z) :
  stores (loaded b) es ->
  acceptable b (mkEntry time value) ->
  viewsSpanBuffer (dataOf (loaded b)) ->
  rb_length (dataOf (loaded b)) + entryByteLength b <= GROWTH_LIMIT ->
  exists b', push time value b = (Returned tt, b').
Proof.
  intros Hst Hacc Hspan Hlim.
  destruct (loaded_fields b) as (Hid & HV & _).
  assert (Hacc1 : acceptable (loaded b) (mkEntry time value)).
  { by apply (acceptable_congr b (loaded b)). }
  destruct (pushRaw_returns (loaded b) es Hst time value Hacc1) as (off & b2 & Hraw).
  { exact Hspan. }
  { unfold entryByteLength in *. by rewrite HV. }
  exists (set_b_requireFlush true b2).
  unfold push. rewrite runDataOperation_unfold. fold (loaded b).
  unfold bind, throwIfTimeOutOfRange, throwIfValueLengthIsInvalid.
  destruct Hacc1 as [Htime Hlen]. cbn [entry_time entry_value] in Htime, Hlen.
  rewrite Htime. cbn [negb].
  rewrite (proj2 (Z.eqb_eq _ _) Hlen). cbn [negb].
  by rewrite Hraw.
Qed.

(** X10.  On a bucket that stores [es] in data whose views show all of its
    storage (as they do except over a file read empty), a [push] of an entry
    the bucket accepts returns as long as the data stays within the growth
    limit; the bucket then stores the old entries with the new one put in at
    a position that keeps the times in ascending order, the dirty flag is set
    and the file is untouched. *)
Theorem push_returns_in_order (b : ZektaTimeBucket) (es : list TimeSeriesEntry)
    (time : Z) (value : list Z) :
  stores (loaded b) es ->
  acceptable b (mkEntry time value) ->
  viewsSpanBuffer (dataOf (loaded b)) ->
  rb_length (dataOf (loaded b)) + entryByteLength b <= GROWTH_LIMIT ->
  exists b' k,
    push time value b = (Returned tt, b') /\
    (k <= length es)%nat /\
    stores b' (take k es ++ mkEntry time value :: drop k es) /\
    StronglySorted Z.le (timesOf (take k es ++ mkEntry time value :: drop k es)) /\
    b_requireFlush b' = true /\
    b_file b' = b_file b.
Proof.
  intros Hst Hacc Hspan Hlim.
  destruct (loaded_fields b) as (_ & _ & _ & Hfile).
  destruct (push_returns b es time value Hst Hacc Hspan Hlim) as (b' & Hpush).
  destruct (push_stored b b' es time value Hst Hpush)
    as (k & _ & (Hk & _) & Hst' & Hflag' & Hfile' & _).
  exists b', k.
  split; [exact Hpush|]. split; [|split; [exact Hst'|split; [|split; [exact Hflag'|]]]].
  - unfold timesOf in Hk. by rewrite length_map in Hk.
  - apply (stores_sorted b' _ Hst').
  - rewrite Hfile'. exact Hfile.
Qed.

Lemma push_returns_in_order_witness :
  exists b' k,
    push 5 [4] bucketWithTies = (Returned tt, b') /\
    (k <= 5)%nat /\
    stores b'
      (take k [mkEntry 3 [8]; mkEntry 5 [1]; mkEntry 5 [2]; mkEntry 5 [3]; mkEntry 7 [9]]
       ++ mkEntry 5 [4] ::
       drop k [mkEntry 3 [8]; mkEntry 5 [1]; mkEntry 5 [2]; mkEntry 5 [3]; mkEntry 7 [9]]).
Proof.
  destruct (push_returns_in_order bucketWithTies
              [mkEntry 3 [8]; mkEntry 5 [1]; mkEntry 5 [2]; mkEntry 5 [3]; mkEntry 7 [9]]
              5 [4]) as (b' & k & Hpush & Hk & Hst & _).
  - exact stores_bucketWithTies.
  - split; vm_compute; reflexivity.
  - vm_compute. reflexivity.
  - vm_compute. discriminate.
  - exists b', k. split; [exact Hpush|]. split; [exact Hk | exact Hst].
Defined.

(** Over a file read empty the first write fails: [resize] finds the room
    in the storage behind the views and keeps it, and [setFloat64] finds no
    room in the views.  The data is left with a length that its views do not
    hold. *)
Lemma push_over_empty_file (b : ZektaTimeBucket) (time : Z) (value : list Z) :
  b_data b = None -> b_file b = Some [] ->
  acceptable b (mkEntry time value) ->
  entryByteLength b <= 0x10000 ->
  fst (push time value b) = Thrown RangeError_outOfBounds /\
  rb_length (dataOf (snd (push time value b))) = entryByteLength b /\
  viewByteLength (dataOf (snd (push time value b))) = 0.
Proof.
  intros Hd Hf Hacc HR.
  assert (Hloaded : loaded b = set_b_data (Some (ResizeableBuffer_view 0x10000 [])) b).
  { unfold loaded, loadData, modify. cbn [snd]. by rewrite Hd, Hf. }
  assert (Hacc1 : acceptable (loaded b) (mkEntry time value)).
  { apply (acceptable_congr b (loaded b)); [apply loaded_fields .. | exact Hacc]. }
  destruct Hacc1 as [Htime Hlen]. cbn [entry_time entry_value] in Htime, Hlen.
  unfold push. rewrite runDataOperation_unfold. fold (loaded b).
  unfold bind, throwIfTimeOutOfRange, throwIfValueLengthIsInvalid.
  rewrite Htime. cbn [negb]. rewrite (proj2 (Z.eqb_eq _ _) Hlen). cbn [negb].
  rewrite pushRaw_unfold. cbv zeta. rewrite Hloaded.
  change (entryByteLength (set_b_data _ b)) with (entryByteLength b).
  unfold getInsertionByteOffset.
  cbn [dataOf b_data set_b_data rb_length ResizeableBuffer_view length].
  change (Z.of_nat 0) with 0. change (0 =? 0) with true. cbv iota.
  rewrite Z.add_0_l.
  rewrite resize_shrink.
  - cbn [rb_bytes rb_length set_rb_length ResizeableBuffer_view].
    assert (Hv : forall t s e d,
              viewByteLength (set_rb_bytes (copyWithin t s e []) d) = 0).
    { intros. unfold viewByteLength. cbn [rb_bytes set_rb_bytes].
      by rewrite length_copyWithin. }
    rewrite Hv. change ((0 <? 0) || (0 + 8 >? 0)) with true. cbv iota.
    cbn [fst snd dataOf b_data set_b_data rb_length set_rb_bytes set_rb_length].
    rewrite Hv. repeat split.
  - discriminate.
  - exact HR.
  - unfold MAX_BYTES. lia.
Qed.

Lemma pushRaw_offset (time : Z) (value : list Z) (b b' : ZektaTimeBucket) (off : Z) :
  pushRaw time value b = (Returned off, b') -> off = getInsertionByteOffset b time.
Proof.
  rewrite pushRaw_unfold. cbv zeta.
  destruct (resize _ _) as [[[]|e] d1]; [|discriminate].
  destruct (_ || _); [discriminate|].
  destruct (_ || _); [discriminate|].
  intros H. by injection H as <- _.
Qed.

Lemma getInsertionByteOffset_latest (b : ZektaTimeBucket) (es : list TimeSeriesEntry)
    (time : Z) :
  stores b es ->
  Forall (fun e => entry_time e <= time) es ->
  getInsertionByteOffset b time = Z.of_nat (length es) * entryByteLength b.
Proof.
  intros Hst Hall.
  pose proof (stores_R b es Hst) as HR.
  pose proof (stores_length b es Hst) as HL.
  unfold getInsertionByteOffset. rewrite HL.
  destruct (Z.eqb_spec (Z.of_nat (length es) * entryByteLength b) 0) as [H0|Hn0];
    [lia|].
  assert (Hpos : (0 < length es)%nat) by (destruct es; simpl in *; lia).
  replace (Z.of_nat (length es) * entryByteLength b - entryByteLength b)
    with (Z.of_nat (length es - 1) * entryByteLength b) by nia.
  rewrite (getTime_index b es Hst (length es - 1)) by lia.
  destruct (lookup_lt_is_Some_2 es (length es - 1) ltac:(lia)) as [e He].
  rewrite (nth_timesOf es _ e He).
  rewrite Forall_lookup in Hall. specialize (Hall _ _ He). cbn beta in Hall.
  destruct (Z.geb_spec time (entry_time e)); [reflexivity|lia].
Qed.

Lemma getInsertionByteOffset_earliest (b : ZektaTimeBucket) (es : list TimeSeriesEntry)
    (time : Z) :
  stores b es ->
  Forall (fun e => time <= entry_time e) es ->
  Exists (fun e => time < entry_time e) es ->
  getInsertionByteOffset b time = 0.
Proof.
  intros Hst Hall Hex.
  pose proof (stores_R b es Hst) as HR.
  pose proof (stores_length b es Hst) as HL.
  pose proof (stores_sorted b es Hst) as Hsorted.
  apply Exists_exists in Hex as (e & Hin & Hlt).
  apply list_elem_of_lookup in Hin as [i Hi].
  pose proof (lookup_lt_Some _ _ _ Hi) as Hilt.
  unfold getInsertionByteOffset. rewrite HL.
  destruct (Z.eqb_spec (Z.of_nat (length es) * entryByteLength b) 0) as [H0|Hn0];
    [reflexivity|].
  replace (Z.of_nat (length es) * entryByteLength b - entryByteLength b)
    with (Z.of_nat (length es - 1) * entryByteLength b) by nia.
  rewrite (getTime_index b es Hst (length es - 1)) by lia.
  pose proof (StronglySorted_nth _ Hsorted i (length es - 1) ltac:(lia)) as Hle.
  unfold timesOf in Hle at 1. rewrite length_map in Hle. specialize (Hle ltac:(lia)).
  rewrite (nth_timesOf es i e Hi) in Hle.
  destruct (Z.geb_spec time (nth (length es - 1) (timesOf es) 0)); [lia|].
  change 0 with (Z.of_nat 0 * entryByteLength b) at 1.
  rewrite (getTime_index b es Hst 0) by lia.
  destruct (lookup_lt_is_Some_2 es 0 ltac:(lia)) as [e0 He0].
  rewrite (nth_timesOf es _ e0 He0).
  rewrite Forall_lookup in Hall. specialize (Hall _ _ He0). cbn beta in Hall.
  destruct (Z.leb_spec time (entry_time e0)); [reflexivity|lia].
Qed.

(** X11.  The two shortcuts of [#getInsertionByteOffset].  A pushed entry
    whose time is at least every stored time goes to the end, after the
    entries of the same time; an entry whose time is at most every stored
    time and below one of them goes to the front, before the entries of the
    same time. *)
Theorem push_at_the_ends (b b' : ZektaTimeBucket) (es : list TimeSeriesEntry)
    (time : Z) (value : list Z) :
  stores (loaded b) es ->
  push time value b = (Returned tt, b') ->
  (Forall (fun e => entry_time e <= time) es ->
   stores b' (es ++ [mkEntry time value])) /\
  (Forall (fun e => time <= entry_time e) es ->
   Exists (fun e => time < entry_time e) es ->
   stores b' (mkEntry time value :: es)).
Proof.
  intros Hst Hpush.
  pose proof (stores_R _ es Hst) as HR.
  assert (Hat : exists k,
             getInsertionByteOffset (loaded b) time
             = Z.of_nat k * entryByteLength (loaded b) /\
             stores b' (take k es ++ mkEntry time value :: drop k es)).
  { revert Hpush. unfold push. rewrite runDataOperation_unfold. fold (loaded b).
    unfold bind, throwIfTimeOutOfRange, throwIfValueLengthIsInvalid.
    destruct (isTimeInRange (loaded b) time) eqn:Htime; [|discriminate]. cbn [negb].
    destruct (Z.eqb_spec (Z.of_nat (length value)) (b_valueByteLength (loaded b)))
      as [Hlen|]; [|discriminate]. cbn [negb].
    destruct (pushRaw time value (loaded b)) as [[off|e] b2] eqn:Hraw; [|discriminate].
    unfold requireFlush, modify. intros Heq. injection Heq as <-.
    destruct (pushRaw_stored (loaded b) es Hst time value (conj Htime Hlen) off b2 Hraw)
      as (k & Hoff & _ & Hst2 & _).
    exists k. split; [|by apply stores_set_requireFlush].
    by rewrite <- (pushRaw_offset _ _ _ _ _ Hraw). }
  destruct Hat as (k & Hoff & Hst').
  split.
  - intros Hall.
    rewrite (getInsertionByteOffset_latest _ es time Hst Hall) in Hoff.
    assert (k = length es) by nia. subst k.
    by rewrite firstn_all, drop_all in Hst'.
  - intros Hall Hex.
    rewrite (getInsertionByteOffset_earliest _ es time Hst Hall Hex) in Hoff.
    assert (k = 0%nat) by nia. subst k.
    exact Hst'.
Qed.

Lemma push_at_the_ends_witness :
  stores (snd (push 7 [6] bucketWithTies))
    ([mkEntry 3 [8]; mkEntry 5 [1]; mkEntry 5 [2]; mkEntry 5 [3]; mkEntry 7 [9]]
     ++ [mkEntry 7 [6]]).
Proof.
  refine (proj1 (push_at_the_ends bucketWithTies (snd (push 7 [6] bucketWithTies))
                   [mkEntry 3 [8]; mkEntry 5 [1]; mkEntry 5 [2]; mkEntry 5 [3]; mkEntry 7 [9]]
                   7 [6] _ _) _).
  - exact stores_bucketWithTies.
  - vm_compute. reflexivity.
  - repeat constructor; cbn; lia.
Defined.

Lemma select_state (options : TimeSeriesSelectOptions) (b : ZektaTimeBucket) :
  snd (select options b) = b \/ snd (select options b) = loaded b.
Proof.
  unfold select. destruct (_ || _); [by left|]. right.
  rewrite runDataOperation_unfold. fold (loaded b).
  destruct (_ || _); [reflexivity|]. by destruct (opt_asc options).
Qed.

(** X12.  [select] is read-only.  It leaves the bucket as it was or as
    loading it leaves it, whatever the options and whether it returns or
    throws; the file and the dirty flag are untouched, and asking again
    gives the same answer. *)
Theorem select_is_read_only (options : TimeSeriesSelectOptions) (b : ZektaTimeBucket) :
  (snd (select options b) = b \/ snd (select options b) = loaded b) /\
  b_file (snd (select options b)) = b_file b /\
  b_requireFlush (snd (select options b)) = b_requireFlush b /\
  fst (select options (snd (select options b))) = fst (select options b).
Proof.
  pose proof (select_state options b) as Hstate.
  destruct (loaded_fields b) as (_ & _ & Hflag & Hfile).
  split; [exact Hstate|].
  destruct Hstate as [-> | ->]; [done|].
  split; [exact Hfile|]. split; [exact Hflag|].
  symmetry. apply select_loadData.
Qed.

Lemma filter_complement_nil {A} (f : A -> bool) (l : list A) :
  List.filter f (List.filter (fun x => negb (f x)) l) = [].
Proof.
  induction l as [|x l IH]; [reflexivity|]. simpl.
  destruct (f x) eqn:Hx; simpl; [exact IH|]. by rewrite Hx.
Qed.

(** X13.  After [delete] over a range, the range is empty and stays so: a
    [select] over the same range returns no entry, and a second [delete]
    over it changes nothing, not even the dirty flag. *)
Theorem delete_then_nothing_left (b : ZektaTimeBucket) (es : list TimeSeriesEntry)
    (asc : bool) (from to : Z) :
  stores b es -> from <= to ->
  exists b',
    delete {| range_from := from; range_to := to |} b = (Returned tt, b') /\
    select {| opt_asc := asc; opt_from := from; opt_to := to |} b' = (Returned [], b') /\
    delete {| range_from := from; range_to := to |} b' = (Returned tt, b').
Proof.
  intros Hst Hft.
  destruct (delete_stored b es from to Hst Hft) as (b' & Hdel & Hst' & _).
  exists b'. split; [exact Hdel|]. split.
  - rewrite (select_stored b' _ Hst' asc from to Hft).
    rewrite filter_complement_nil. by destruct asc.
  - destruct (delete_stored b' _ from to Hst' Hft)
      as (b'' & Hdel' & _ & _ & [[-> _] | [_ Hne]]); [exact Hdel'|].
    exfalso. apply Hne. apply filter_complement_nil.
Qed.

Lemma delete_then_nothing_left_witness :
  exists b',
    delete {| range_from := 4; range_to := 6 |} bucketWithTies = (Returned tt, b') /\
    select {| opt_asc := true; opt_from := 4; opt_to := 6 |} b' = (Returned [], b') /\
    delete {| range_from := 4; range_to := 6 |} b' = (Returned tt, b').
Proof.
  apply (delete_then_nothing_left bucketWithTies
           [mkEntry 3 [8]; mkEntry 5 [1]; mkEntry 5 [2]; mkEntry 5 [3]; mkEntry 7 [9]]
           true 4 6 stores_bucketWithTies).
  lia.
Defined.

(** X14.  [drop] empties the bucket: it returns, the bucket then stores no
    entry and every [select] on it returns none; the capacity and the file
    are kept, and the dirty flag is set exactly when there was an entry to
    remove. *)
Theorem drop_empties (b : ZektaTimeBucket) (es : list TimeSeriesEntry) :
  stores b es ->
  exists b',
    drop_ b = (Returned tt, b') /\
    stores b' [] /\
    byteLength (dataOf b') = byteLength (dataOf b) /\
    b_file b' = b_file b /\
    b_requireFlush b' = (match es with [] => b_requireFlush b | _ => true end) /\
    forall asc from to,
      from <= to ->
      select {| opt_asc := asc; opt_from := from; opt_to := to |} b' = (Returned [], b').
Proof.
  intros Hst.
  pose proof (stores_R b es Hst) as HR.
  pose proof (stores_length b es Hst) as HL.
  destruct (stores_bytes b es Hst) as (d & Hd & Hdata & Hwf & _ & _).
  assert (Hempty : forall b', stores b' [] ->
            forall asc from to, from <= to ->
            select {| opt_asc := asc; opt_from := from; opt_to := to |} b'
            = (Returned [], b')).
  { intros b' Hst' asc from to Hft.
    rewrite (select_stored b' [] Hst' asc from to Hft). by destruct asc. }
  unfold drop_. rewrite runDataOperation_unfold, (stores_loaded b es Hst).
  unfold bind, gets. rewrite HL.
  destruct (Z.eqb_spec (Z.of_nat (length es) * entryByteLength b) 0) as [H0|Hn0].
  - assert (es = []) by (destruct es; [reflexivity | simpl in H0; nia]). subst es.
    exists b. auto 7.
  - unfold onData. rewrite Hdata.
    rewrite resize_within
      by (try exact Hwf; pose proof (byteLength_nonneg d); lia).
    eexists. split; [reflexivity|].
    assert (Hst' : stores (set_b_requireFlush true
                             (set_b_data (Some (set_rb_length 0 d)) b)) []).
    { destruct Hst as (Hsafe & HV & _ & _ & _).
      unfold stores. cbn [b_id b_valueByteLength b_data set_b_data set_b_requireFlush].
      split; [exact Hsafe|]. split; [exact HV|]. split; [|split; constructor].
      eexists. split; [reflexivity|].
      split; [|split; reflexivity].
      apply wellFormedBuffer_set_rb_length; [|exact Hwf].
      pose proof (viewByteLength_le d). lia. }
    split; [exact Hst'|]. split; [|split; [reflexivity|split]].
    + reflexivity.
    + destruct es; [simpl in Hn0; lia | reflexivity].
    + apply Hempty, Hst'.
Qed.

Lemma drop_empties_witness :
  exists b',
    drop_ bucketWithTies = (Returned tt, b') /\
    stores b' [] /\
    b_requireFlush b' = true.
Proof.
  destruct (drop_empties bucketWithTies
              [mkEntry 3 [8]; mkEntry 5 [1]; mkEntry 5 [2]; mkEntry 5 [3]; mkEntry 7 [9]]
              stores_bucketWithTies) as (b' & Hdrop & Hst & _ & _ & Hflag & _).
  exists b'. split; [exact Hdrop|]. split; [exact Hst | exact Hflag].
Defined.

(** ** Flushing *)

(** X15.  Flushing with [unload] and loading again is the identity on the
    entries.  A dirty bucket that stores [es] is written out as the records
    of [es] one after the other (no file when there is none), its data is
    released, and the next load brings back a bucket that stores [es], with
    the dirty flag clear. *)
Theorem flush_unload_reload (b : ZektaTimeBucket) (es : list TimeSeriesEntry) :
  stores b es -> b_requireFlush b = true ->
  exists b',
    flush true b = (Returned tt, b') /\
    b_data b' = None /\
    b_requireFlush b' = false /\
    b_file b' = (match es with [] => None | _ => Some (encodeEntries es) end) /\
    stores (loaded b') es.
Proof.
  intros Hst Hflag.
  pose proof (stores_R b es Hst) as HR.
  pose proof (stores_acceptable b es Hst) as Hacc.
  destruct (stores_bytes b es Hst) as (d & Hd & _ & Hwf & HL & Hbytes).
  destruct Hst as (Hsafe & HV & _ & _ & Hsorted).
  assert (Hlen : length (encodeEntries es) = Z.to_nat (rb_length d)).
  { rewrite (length_encodeEntries b HV es Hacc), HL. lia. }
  assert (Hpre : take (Z.to_nat (rb_length d)) (rb_bytes d) = encodeEntries es).
  { rewrite Hbytes at 1. by apply take_app_length'. }
  unfold flush. rewrite Hflag, Hd.
  eexists. split; [reflexivity|].
  cbn [b_data b_requireFlush b_file set_b_data set_b_requireFlush].
  split; [reflexivity|]. split; [reflexivity|].
  destruct (Z.eqb_spec (rb_length d) 0) as [H0|Hn0].
  - assert (es = []) by (destruct es; [reflexivity | simpl in HL; nia]). subst es.
    split; [reflexivity|].
    unfold stores, loaded, loadData, modify.
    cbn [snd b_data b_id b_valueByteLength b_file set_b_data set_b_requireFlush
         set_b_file].
    split; [exact Hsafe|]. split; [exact HV|]. split; [|split; constructor].
    eexists. split; [reflexivity|]. split; [apply wellFormedBuffer_new|].
    split; reflexivity.
  - assert (Hne : es <> []) by (intros ->; simpl in HL; lia).
    unfold Uint8Array_subarray0. rewrite Hpre.
    split; [by destruct es|].
    unfold stores, loaded, loadData, modify.
    cbn [snd b_data b_id b_valueByteLength b_file set_b_data set_b_requireFlush
         set_b_file].
    split; [exact Hsafe|]. split; [exact HV|].
    split; [|split; [exact Hacc | exact Hsorted]].
    eexists. split; [reflexivity|]. split; [apply wellFormedBuffer_view|].
    cbn [rb_length rb_bytes ResizeableBuffer_view].
    split.
    + rewrite Hlen, HL. rewrite Z2Nat.id by nia. reflexivity.
    + rewrite Nat2Z.id. apply firstn_all.
Qed.

Lemma flush_unload_reload_witness :
  exists b',
    flush true bucketWithTies = (Returned tt, b') /\
    b_data b' = None /\
    stores (loaded b')
      [mkEntry 3 [8]; mkEntry 5 [1]; mkEntry 5 [2]; mkEntry 5 [3]; mkEntry 7 [9]].
Proof.
  destruct (flush_unload_reload bucketWithTies
              [mkEntry 3 [8]; mkEntry 5 [1]; mkEntry 5 [2]; mkEntry 5 [3]; mkEntry 7 [9]]
              stores_bucketWithTies) as (b' & Hflush & Hdata & _ & _ & Hst).
  - reflexivity.
  - exists b'. split; [exact Hflush|]. split; [exact Hdata | exact Hst].
Defined.

(** X16.  Once [flush] has returned, the bucket is clean and a second
    [flush] with the same option changes nothing. *)
Theorem flush_settles (b b' : ZektaTimeBucket) (unload : bool) :
  flush unload b = (Returned tt, b') ->
  b_requireFlush b' = false /\
  flush unload b' = (Returned tt, b').
Proof.
  unfold flush.
  destruct (b_requireFlush b) eqn:Hflag.
  - destruct (b_data b) as [d|] eqn:Hd; [|discriminate].
    destruct unload; intros H; injection H as <-;
      cbn [b_requireFlush b_data set_b_data set_b_requireFlush set_b_file];
      (split; [reflexivity|]); destruct (rb_length d =? 0); reflexivity.
  - destruct unload; intros H; injection H as <-;
      cbn [b_requireFlush set_b_data]; rewrite Hflag; split; reflexivity.
Qed.

Lemma flush_settles_witness :
  flush false (snd (flush false bucketWithTies))
  = (Returned tt, snd (flush false bucketWithTies)).
Proof.
  refine (proj2 (flush_settles bucketWithTies (snd (flush false bucketWithTies)) false _)).
  vm_compute. reflexivity.
Defined.

Lemma pushRaw_loaded (time : Z) (value : list Z) (b : ZektaTimeBucket) :
  b_data (snd (pushRaw time value b)) <> None.
Proof.
  rewrite pushRaw_unfold. cbv zeta.
  destruct (resize _ _) as [[[]|e] d1]; [|discriminate].
  destruct (_ || _); [discriminate|].
  destruct (_ || _); discriminate.
Qed.

Lemma insert_step_loaded (e : TimeSeriesEntry) (array : list TimeSeriesEntry)
    (b : ZektaTimeBucket) :
  b_data b <> None ->
  fst (snd (insert_step e (array, b))) = array /\
  b_data (snd (snd (insert_step e (array, b)))) <> None.
Proof.
  intros Hb. unfold insert_step, bind, withEntries, throwIfTimeOutOfRange,
    throwIfValueLengthIsInvalid.
  destruct (negb (isTimeInRange b (entry_time e))); [by split|].
  destruct (negb _); [by split|].
  pose proof (pushRaw_loaded (entry_time e) (entry_value e) b) as Hraw.
  destruct (pushRaw (entry_time e) (entry_value e) b) as [[off|err] b2]; by split.
Qed.

Lemma insert_loop_loaded (l array : list TimeSeriesEntry) : forall b,
  b_data b <> None ->
  b_data (snd (snd (forEachM insert_step l (array, b)))) <> None.
Proof.
  induction l as [|e l IH]; intros b Hb; [exact Hb|].
  cbn [forEachM]. unfold bind.
  destruct (insert_step_loaded e array b Hb) as [Harr Hb2].
  destruct (insert_step e (array, b)) as [[[]|err] [array2 b2]];
    cbn [fst snd] in *; [|exact Hb2].
  subst array2. by apply IH.
Qed.

Lemma loaded_is_loaded (b : ZektaTimeBucket) : b_data (loaded b) <> None.
Proof.
  destruct (loadData_is_Some b) as [d Hd]. unfold loaded. by rewrite Hd.
Qed.

(** X17.  The assertion of [flush] is an invariant.  A new bucket satisfies
    it, every operation keeps it whether it returns or throws, and on a
    bucket that satisfies it [flush] returns: it never meets a dirty bucket
    without data. *)
Theorem flush_assertion_invariant (b : ZektaTimeBucket) :
  flushAssertionHolds b ->
  (forall time value, flushAssertionHolds (snd (push time value b))) /\
  (forall entries, flushAssertionHolds (snd (snd (insert (entries, b))))) /\
  (forall options, flushAssertionHolds (snd (select options b))) /\
  (forall range, flushAssertionHolds (snd (delete range b))) /\
  flushAssertionHolds (snd (drop_ b)) /\
  (forall unload,
     fst (flush unload b) = Returned tt /\
     flushAssertionHolds (snd (flush unload b))).
Proof.
  intros Hinv.
  pose proof (loaded_is_loaded b) as Hloaded.
  split; [|split; [|split; [|split; [|split]]]].
  - intros time value _. unfold push. rewrite runDataOperation_unfold. fold (loaded b).
    unfold bind, throwIfTimeOutOfRange, throwIfValueLengthIsInvalid.
    destruct (negb (isTimeInRange _ _)); [exact Hloaded|].
    destruct (negb _); [exact Hloaded|].
    pose proof (pushRaw_loaded time value (loaded b)) as Hraw.
    destruct (pushRaw time value (loaded b)) as [[off|err] b2]; exact Hraw.
  - intros entries _. unfold insert, bind, withEntries, gets, modify.
    rewrite (surjective_pairing (loadData b)). fold (loaded b).
    replace (fst (loadData b)) with (@Returned unit tt) by reflexivity.
    cbn [fst snd].
    destruct (_ =? 0); [exact Hloaded|].
    pose proof (insert_loop_loaded (Array_sort sortTimeSeriesEntries entries)
                  (Array_sort sortTimeSeriesEntries entries) (loaded b) Hloaded) as Hloop.
    destruct (forEachM insert_step _ _) as [[[]|err] [array b2]]; exact Hloop.
  - intros options.
    destruct (select_state options b) as [-> | ->];
      [exact Hinv | intros _; exact Hloaded].
  - intros [from to] Hflag. revert Hflag. rewrite delete_unfold.
    destruct (_ || _); [exact Hinv|]. cbv zeta. fold (loaded b).
    destruct (_ =? _); [intros _; exact Hloaded|].
    destruct (resize _ _) as [[[]|e] d2]; intros _; discriminate.
  - unfold drop_. rewrite runDataOperation_unfold. fold (loaded b).
    unfold bind, gets.
    destruct (_ =? 0); [intros _; exact Hloaded|].
    unfold onData. destruct (resize 0 _) as [[[]|e] d2]; intros _; discriminate.
  - intros unload. unfold flush, flushAssertionHolds in *.
    destruct (b_requireFlush b) eqn:Hflag.
    + destruct (b_data b) as [d|] eqn:Hd; [|by exfalso; apply Hinv].
      destruct unload; cbn [fst snd b_requireFlush set_b_data set_b_requireFlush];
        split; [reflexivity | discriminate | reflexivity | discriminate].
    + destruct unload; cbn [fst snd b_requireFlush set_b_data];
        rewrite ?Hflag; split; [reflexivity | discriminate | reflexivity | discriminate].
Qed.

Lemma flush_assertion_invariant_witness :
  flushAssertionHolds (snd (push 5 [4] (ZektaTimeBucket_new 0 1 None))) /\
  fst (flush true (ZektaTimeBucket_new 0 1 None)) = Returned tt.
Proof.
  assert (Hnew : flushAssertionHolds (ZektaTimeBucket_new 0 1 None)).
  { intros Hflag. vm_compute in Hflag. discriminate Hflag. }
  destruct (flush_assertion_invariant (ZektaTimeBucket_new 0 1 None) Hnew)
    as (Hpush & _ & _ & _ & _ & Hflush).
  split; [apply Hpush | apply Hflush].
Defined.

(** ** A batch that is accepted *)

Lemma insert_loop_accepts (array : list TimeSeriesEntry) : forall entries b es,
  stores b es ->
  Forall (acceptable b) entries ->
  (entries <> [] -> viewsSpanBuffer (dataOf b)) ->
  rb_length (dataOf b) + Z.of_nat (length entries) * entryByteLength b <= GROWTH_LIMIT ->
  exists b' es',
    forEachM insert_step entries (array, b) = (Returned tt, (array, b')) /\
    stores b' es' /\
    es' ≡ₚ entries ++ es /\
    b_requireFlush b' = b_requireFlush b /\
    b_file b' = b_file b /\
    b_id b' = b_id b.
Proof.
  induction entries as [|e entries IH]; intros b es Hst Hall Hspan Hlim.
  - exists b, es. auto 7.
  - apply Forall_cons in Hall as [He Hall].
    pose proof (stores_R b es Hst) as HR.
    pose proof (stores_length b es Hst) as HL.
    assert (He' : acceptable b (mkEntry (entry_time e) (entry_value e))) by (by destruct e).
    destruct (pushRaw_returns b es Hst _ _ He') as (off & b1 & Hpush).
    { by apply Hspan. }
    { simpl length in Hlim. nia. }
    destruct (pushRaw_stored b es Hst _ _ He' off b1 Hpush)
      as (k & _ & (Hk & _) & Hst1 & Hflag & Hfile & Hid & HV).
    unfold timesOf in Hk. rewrite length_map in Hk.
    assert (HR1 : entryByteLength b1 = entryByteLength b).
    { unfold entryByteLength. by rewrite HV. }
    destruct (IH b1 _ Hst1) as (b' & es' & Hloop & Hst' & Hperm & Hflag' & Hfile' & Hid').
    + eapply Forall_impl; [exact Hall|]. intros x. by apply acceptable_congr.
    + intros _. apply (stores_viewsSpanBuffer b1 _ Hst1).
      by destruct (take k es).
    + rewrite (stores_length b1 _ Hst1), HR1.
      rewrite length_app, length_cons, length_take, length_drop.
      simpl length in Hlim. nia.
    + exists b', es'. simpl. unfold bind.
      rewrite insert_step_accepts by assumption. rewrite Hpush. cbn [fst snd].
      rewrite Hloop.
      split; [reflexivity|]. split; [exact Hst'|].
      split; [|repeat split; congruence].
      rewrite Hperm, Permutation_splice. destruct e. simpl.
      by rewrite Permutation_middle.
Qed.

(** X18.  On a bucket that stores [es], [insert] of a batch of entries the
    bucket accepts returns as long as the data stays within the growth
    limit and, unless the batch is empty, the views of the data show all of
    its storage (as they do except over a file read empty).  The caller's
    array is then sorted by time, the bucket stores the old entries and
    those of the batch in ascending order of time, the file is untouched,
    and the dirty flag is set unless the batch was empty. *)
Theorem insert_returns_in_order (b : ZektaTimeBucket) (es entries : list TimeSeriesEntry) :
  stores (loaded b) es ->
  Forall (acceptable b) entries ->
  (entries <> [] -> viewsSpanBuffer (dataOf (loaded b))) ->
  rb_length (dataOf (loaded b)) + Z.of_nat (length entries) * entryByteLength b
    <= GROWTH_LIMIT ->
  exists b' es',
    insert (entries, b)
    = (Returned tt, (Array_sort sortTimeSeriesEntries entries, b')) /\
    StronglySorted Z.le (timesOf (Array_sort sortTimeSeriesEntries entries)) /\
    stores b' es' /\
    es' ≡ₚ entries ++ es /\
    b_file b' = b_file b /\
    b_requireFlush b' = (match entries with [] => b_requireFlush b | _ => true end).
Proof.
  intros Hst Hall Hspan Hlim.
  destruct (loaded_fields b) as (Hid1 & HV1 & Hflag1 & Hfile1).
  assert (HR1 : entryByteLength (loaded b) = entryByteLength b).
  { unfold entryByteLength. by rewrite HV1. }
  destruct (Array_sort_sorted entries) as [Hsorted Hperm].
  destruct entries as [|e0 entries].
  { exists (loaded b), es. unfold insert, bind, withEntries, gets.
    rewrite (surjective_pairing (loadData b)). fold (loaded b).
    replace (fst (loadData b)) with (@Returned unit tt) by reflexivity.
    cbn. auto 7. }
  destruct (insert_loop_accepts (Array_sort sortTimeSeriesEntries (e0 :: entries))
              (Array_sort sortTimeSeriesEntries (e0 :: entries)) (loaded b) es Hst)
    as (b' & es' & Hloop & Hst' & Hperm' & Hflag & Hfile & Hid).
  { rewrite Hperm. eapply Forall_impl; [exact Hall|]. intros x. by apply acceptable_congr. }
  { intros _. by apply Hspan. }
  { rewrite Hperm, HR1. exact Hlim. }
  exists (set_b_requireFlush true b'), es'.
  split; [|split; [exact Hsorted|split; [by apply stores_set_requireFlush|split; [|split]]]].
  - unfold insert, bind, withEntries, gets.
    rewrite (surjective_pairing (loadData b)). fold (loaded b).
    replace (fst (loadData b)) with (@Returned unit tt) by reflexivity.
    cbn [fst snd].
    destruct (Z.eqb_spec (Z.of_nat (length (e0 :: entries))) 0) as [H0|_];
      [simpl in H0; lia|].
    unfold modify. cbn [fst]. rewrite Hloop. reflexivity.
  - by rewrite Hperm', Hperm.
  - cbn [b_file set_b_requireFlush]. congruence.
  - reflexivity.
Qed.

Lemma insert_returns_in_order_witness :
  exists b' es',
    insert ([mkEntry 9 [1]; mkEntry 3 [2]; mkEntry 4 [5]], emptyBucket)
    = (Returned tt, ([mkEntry 3 [2]; mkEntry 4 [5]; mkEntry 9 [1]], b')) /\
    stores b' es' /\
    es' ≡ₚ [mkEntry 9 [1]; mkEntry 3 [2]; mkEntry 4 [5]] ++ [] /\
    b_requireFlush b' = true.
Proof.
  destruct (insert_returns_in_order emptyBucket []
              [mkEntry 9 [1]; mkEntry 3 [2]; mkEntry 4 [5]])
    as (b' & es' & Hins & _ & Hst & Hperm & _ & Hflag).
  - apply (stores_new 0 1); [reflexivity | lia].
  - repeat constructor.
  - intros _. vm_compute. reflexivity.
  - vm_compute. discriminate.
  - exists b', es'. split; [exact Hins|]. split; [exact Hst|].
    split; [exact Hperm | exact Hflag].
Defined.

(** [#pushRaw] neither reads nor writes the dirty flag. *)
Lemma pushRaw_frame (flag : bool) (time : Z) (value : list Z) (b : ZektaTimeBucket) :
  pushRaw time value (set_b_requireFlush flag b)
  = (fst (pushRaw time value b), set_b_requireFlush flag (snd (pushRaw time value b))).
Proof.
  rewrite !pushRaw_unfold. cbv zeta.
  change (dataOf (set_b_requireFlush flag b)) with (dataOf b).
  change (entryByteLength (set_b_requireFlush flag b)) with (entryByteLength b).
  change (getInsertionByteOffset (set_b_requireFlush flag b) time)
    with (getInsertionByteOffset b time).
  destruct (resize _ _) as [[[]|e] d1]; [|reflexivity].
  destruct (_ || _); [reflexivity|].
  destruct (_ || _); reflexivity.
Qed.

Lemma push_loaded_bucket (time : Z) (value : list Z) (b : ZektaTimeBucket) :
  push time value b = push time value (loaded b).
Proof.
  unfold push. rewrite !runDataOperation_unfold. unfold loaded.
  by rewrite loadData_idempotent.
Qed.

Lemma loaded_of_loaded (b : ZektaTimeBucket) : b_data b <> None -> loaded b = b.
Proof.
  intros Hb. destruct (b_data b) as [d|] eqn:Hd; [|done].
  unfold loaded. by rewrite (loadData_loaded b d Hd).
Qed.

(** The loop of [insert] and a sequence of [push] calls store the same
    bytes; the pushes set the dirty flag on the way. *)
Lemma insert_loop_is_pushAll (array : list TimeSeriesEntry) :
  forall entries b b' array' flag,
  b_data b <> None ->
  forEachM insert_step entries (array, b) = (Returned tt, (array', b')) ->
  pushAll entries (set_b_requireFlush flag b)
  = (Returned tt,
     set_b_requireFlush (match entries with [] => flag | _ => true end) b').
Proof.
  induction entries as [|e entries IH]; intros b b' array' flag Hb Hloop.
  - injection Hloop as _ <-. reflexivity.
  - cbn [forEachM] in Hloop. unfold bind in Hloop.
    destruct (insert_step e (array, b)) as [[[]|err] [array2 b2]] eqn:Hstep;
      [|discriminate].
    assert (Hpush : push (entry_time e) (entry_value e) (set_b_requireFlush flag b)
                    = (Returned tt, set_b_requireFlush true b2) /\
                    array2 = array /\ b_data b2 <> None).
    { revert Hstep. unfold insert_step, push. rewrite runDataOperation_unfold.
      fold (loaded (set_b_requireFlush flag b)).
      rewrite (loaded_of_loaded (set_b_requireFlush flag b)) by exact Hb.
      unfold bind, withEntries, throwIfTimeOutOfRange, throwIfValueLengthIsInvalid.
      change (isTimeInRange (set_b_requireFlush flag b)) with (isTimeInRange b).
      change (b_valueByteLength (set_b_requireFlush flag b)) with (b_valueByteLength b).
      destruct (negb (isTimeInRange b (entry_time e))); [discriminate|].
      destruct (negb _); [discriminate|].
      rewrite pushRaw_frame.
      pose proof (pushRaw_loaded (entry_time e) (entry_value e) b) as Hraw.
      destruct (pushRaw (entry_time e) (entry_value e) b) as [[off|err] b3];
        [|discriminate].
      cbn [fst snd ret] in *. intros H. injection H as <- <-. auto. }
    destruct Hpush as (Hpush & -> & Hb2).
    unfold pushAll. cbn [forEachM]. unfold bind. rewrite Hpush.
    fold (pushAll entries). rewrite (IH b2 b' array' true Hb2 Hloop).
    by destruct entries.
Qed.

(** X19.  A batch and its pushes.  When [insert] of a non-empty batch
    returns, it has sorted the caller's array by time, and it leaves the
    bucket exactly as pushing the entries of the sorted array one after the
    other leaves it. *)
Theorem insert_is_sorted_pushes (entries entries' : list TimeSeriesEntry)
    (b b' : ZektaTimeBucket) :
  entries <> [] ->
  insert (entries, b) = (Returned tt, (entries', b')) ->
  entries' = Array_sort sortTimeSeriesEntries entries /\
  pushAll entries' b = (Returned tt, b').
Proof.
  intros Hne. unfold insert, bind, withEntries, gets.
  rewrite (surjective_pairing (loadData b)). fold (loaded b).
  replace (fst (loadData b)) with (@Returned unit tt) by reflexivity.
  cbn [fst snd].
  destruct (Z.eqb_spec (Z.of_nat (length entries)) 0) as [H0|_].
  { destruct entries; [done | simpl in H0; lia]. }
  unfold modify. cbn [fst].
  set (sorted := Array_sort sortTimeSeriesEntries entries).
  destruct (forEachM insert_step sorted (sorted, loaded b))
    as [[[]|err] [array2 b2]] eqn:Hloop; [|discriminate].
  unfold requireFlush, modify. intros H. injection H as <- <-.
  pose proof (loaded_is_loaded b) as Hb.
  pose proof (insert_loop_is_pushAll sorted sorted (loaded b) b2 array2
                (b_requireFlush (loaded b)) Hb Hloop) as Hpushes.
  assert (Harray : array2 = sorted).
  { clear Hpushes. revert Hloop Hb. generalize (loaded b). generalize sorted at 1.
    intros l. induction l as [|e l IH]; intros b0 Hloop Hb0.
    - by injection Hloop as <- _.
    - cbn [forEachM] in Hloop. unfold bind in Hloop.
      destruct (insert_step_loaded e sorted b0 Hb0) as [Harr Hb1].
      destruct (insert_step e (sorted, b0)) as [[[]|err] [array1 b1]];
        [|discriminate].
      cbn [fst snd] in *. subst array1. by apply (IH b1). }
  split; [exact Harray|]. rewrite Harray.
  assert (Hsorted_ne : sorted <> []).
  { intros Hnil. pose proof (Array_sort_Permutation sortTimeSeriesEntries entries) as Hp.
    fold sorted in Hp. rewrite Hnil in Hp. apply Permutation_nil_l in Hp.
    by apply Hne. }
  assert (Heta : set_b_requireFlush (b_requireFlush (loaded b)) (loaded b) = loaded b)
    by (by destruct (loaded b)).
  rewrite Heta in Hpushes.
  destruct sorted as [|e sorted']; [done|].
  unfold pushAll in *. cbn [forEachM] in *. unfold bind in *.
  by rewrite push_loaded_bucket.
Qed.

Lemma insert_is_sorted_pushes_witness :
  pushAll [mkEntry 3 [2]; mkEntry 4 [5]; mkEntry 9 [1]] emptyBucket
  = (Returned tt,
     snd (snd (insert ([mkEntry 9 [1]; mkEntry 3 [2]; mkEntry 4 [5]], emptyBucket)))).
Proof.
  refine (proj2 (insert_is_sorted_pushes
                   [mkEntry 9 [1]; mkEntry 3 [2]; mkEntry 4 [5]]
                   [mkEntry 3 [2]; mkEntry 4 [5]; mkEntry 9 [1]]
                   emptyBucket _ _ _)).
  - discriminate.
  - vm_compute. reflexivity.
Defined.

(** ** The buckets of a series *)

Lemma bucketIdAt_lookup (s : ZektaTimeSeries) (i : nat) (b : ZektaTimeBucket) :
  s_buckets s !! i = Some b -> bucketIdAt s (Z.of_nat i) = b_id b.
Proof.
  intros Hb. unfold bucketIdAt. by rewrite Nat2Z.id, Hb.
Qed.

Lemma lookup_bucket (s : ZektaTimeSeries) (i : Z) :
  0 <= i < Z.of_nat (length (s_buckets s)) ->
  exists b, s_buckets s !! Z.to_nat i = Some b /\ bucketIdAt s i = b_id b.
Proof.
  intros Hi.
  destruct (lookup_lt_is_Some_2 (s_buckets s) (Z.to_nat i) ltac:(lia)) as [b Hb].
  exists b. split; [exact Hb|]. unfold bucketIdAt. by rewrite Hb.
Qed.

(** X20.  The indexes [#getTimeRangeBucketIndexesInArray] computes stay
    within [#buckets], whatever the buckets and the range are; every index
    that [select] and [delete] of the series visit is the index of a bucket,
    so the task they start at that index is the task of that bucket. *)
Theorem range_indexes_hit_buckets (s : ZektaTimeSeries) (range : TimeSeriesTimeRange)
    (i : Z) :
  let indexes := getTimeRangeBucketIndexesInArray s range in
  (0 <= range_from indexes <= Z.of_nat (length (s_buckets s)) /\
   0 <= range_to indexes <= Z.of_nat (length (s_buckets s))) /\
  (i ∈ seqZ (range_from indexes) (range_to indexes - range_from indexes) ->
   exists b,
     s_buckets s !! Z.to_nat i = Some b /\
     forall A (m : M ZektaTimeBucket A), fst (onBucket i m s) = fst (m b)).
Proof.
  cbv zeta. unfold getTimeRangeBucketIndexesInArray. cbn [range_from range_to].
  set (len := Z.of_nat (length (s_buckets s))).
  assert (Hlen : 0 <= len) by (unfold len; lia).
  pose proof (binarySearch_bounds len
                (fun i => bucketIdAt s i - getIdFromTime (range_from range)) Hlen) as Hlo.
  pose proof (binarySearch_bounds len
                (fun i => bucketIdAt s i - getIdFromTime (range_to range)) Hlen) as Hhi.
  split; [lia|].
  rewrite elem_of_seqZ. intros Hi.
  destruct (lookup_bucket s i ltac:(fold len; lia)) as (b & Hb & _).
  exists b. split; [exact Hb|]. intros A m.
  rewrite onBucket_fst. destruct (Z.ltb_spec i 0); [lia|]. by rewrite Hb.
Qed.

Lemma StronglySorted_lt_lookup (ids : list Z) :
  StronglySorted Z.lt ids ->
  forall i j x y, ids !! i = Some x -> ids !! j = Some y -> (i < j)%nat -> x < y.
Proof.
  induction 1 as [|x0 ids Hsorted IH Hall]; intros i j x y Hi Hj Hij; [done|].
  destruct j as [|j]; [lia|]. cbn in Hj.
  destruct i as [|i]; cbn in Hi.
  - injection Hi as <-. rewrite Forall_lookup in Hall. by apply (Hall j).
  - apply (IH i j); [assumption..|lia].
Qed.

Lemma bucketIds_lookup (s : ZektaTimeSeries) (i : nat) (b : ZektaTimeBucket) :
  s_buckets s !! i = Some b -> bucketIds s !! i = Some (b_id b).
Proof.
  intros Hb. unfold bucketIds. change (map b_id ?l) with (b_id <$> l).
  by rewrite list_lookup_fmap, Hb.
Qed.

(** On buckets in order, the search for an id finds the first bucket whose
    id is not below it. *)
Lemma bucket_search (s : ZektaTimeSeries) (bucketId : Z) :
  bucketsInOrder s ->
  let len := Z.of_nat (length (s_buckets s)) in
  let k := binarySearch len (fun i => bucketIdAt s i - bucketId) in
  0 <= k <= len /\
  (forall i, 0 <= i < k -> bucketIdAt s i < bucketId) /\
  (forall i, k <= i < len -> bucketId <= bucketIdAt s i) /\
  (forall i, k < i < len -> bucketId < bucketIdAt s i).
Proof.
  intros Hsorted len k.
  assert (Hlen : 0 <= len) by (unfold len; lia).
  assert (Hstrict : forall i j, 0 <= i -> i < j -> j < len ->
                      bucketIdAt s i < bucketIdAt s j).
  { intros i j Hi Hij Hj.
    destruct (lookup_bucket s i ltac:(fold len; lia)) as (bi & Hbi & ->).
    destruct (lookup_bucket s j ltac:(fold len; lia)) as (bj & Hbj & ->).
    apply (StronglySorted_lt_lookup _ Hsorted (Z.to_nat i) (Z.to_nat j));
      [by apply bucketIds_lookup | by apply bucketIds_lookup | lia]. }
  assert (Hmono : forall i j, 0 <= i -> i <= j -> j < len ->
                    bucketIdAt s i - bucketId <= bucketIdAt s j - bucketId).
  { intros i j Hi Hij Hj. destruct (Z.eq_dec i j) as [->|Hne]; [lia|].
    specialize (Hstrict i j Hi ltac:(lia) Hj). lia. }
  pose proof (binarySearch_spec _ len Hmono Hlen) as Hspec. cbv zeta in Hspec.
  fold k in Hspec.
  destruct Hspec as [[Hk Hzero] | (Hk & Hbelow & Habove)].
  - split; [lia|]. split; [|split].
    + intros i Hi. specialize (Hstrict i k ltac:(lia) ltac:(lia) ltac:(lia)). lia.
    + intros i Hi. destruct (Z.eq_dec i k) as [->|Hne]; [lia|].
      specialize (Hstrict k i ltac:(lia) ltac:(lia) ltac:(lia)). lia.
    + intros i Hi. specialize (Hstrict k i ltac:(lia) ltac:(lia) ltac:(lia)). lia.
  - split; [lia|]. split; [|split].
    + intros i Hi. specialize (Hbelow i Hi). lia.
    + intros i Hi. specialize (Habove i Hi). lia.
    + intros i Hi. specialize (Habove i ltac:(lia)). lia.
Qed.





Lemma bucketsInOrder_seriesOfThree : bucketsInOrder seriesOfThree.
Proof.
  unfold bucketsInOrder.
  replace (bucketIds seriesOfThree) with [0; 1; 2] by (vm_compute; reflexivity).
  repeat constructor; lia.
Qed.


Lemma set_s_buckets_same (s : ZektaTimeSeries) : set_s_buckets (s_buckets s) s = s.
Proof. by destruct s. Qed.

(** The tasks of a run of consecutive buckets: each bucket of the run gets
    its task, in order, and the other buckets are left alone. *)
Lemma allSettled_range {A} (m : M ZektaTimeBucket A) : forall (n lo : nat) s,
  (lo + n <= length (s_buckets s))%nat ->
  allSettled (map (fun i => onBucket i m) (seqZ (Z.of_nat lo) (Z.of_nat n))) s
  = (map (fun b => settle (fst (m b))) (take n (drop lo (s_buckets s))),
     set_s_buckets (take lo (s_buckets s) ++
                    map (fun b => snd (m b)) (take n (drop lo (s_buckets s))) ++
                    drop (lo + n) (s_buckets s)) s).
Proof.
  induction n as [|n IH]; intros lo s Hlen.
  - replace (seqZ (Z.of_nat lo) (Z.of_nat 0)) with (@nil Z) by reflexivity.
    rewrite take_0. cbn [map allSettled app].
    by rewrite Nat.add_0_r, take_drop, set_s_buckets_same.
  - rewrite seqZ_cons by lia.
    replace (Z.succ (Z.of_nat lo)) with (Z.of_nat (S lo)) by lia.
    replace (Z.pred (Z.of_nat (S n))) with (Z.of_nat n) by lia.
    cbn [map allSettled].
    destruct (lookup_lt_is_Some_2 (s_buckets s) lo ltac:(lia)) as [b Hb].
    unfold onBucket at 1. destruct (Z.ltb_spec (Z.of_nat lo) 0) as [|_]; [lia|].
    rewrite Nat2Z.id, Hb. destruct (m b) as [r b'] eqn:Hm.
    rewrite IH by (cbn [s_buckets set_s_buckets]; rewrite length_insert; lia).
    cbn [s_buckets set_s_buckets].
    rewrite drop_insert_lt by lia.
    rewrite (drop_S _ _ _ Hb). cbn [take map]. rewrite Hm. cbn [fst snd].
    f_equal. unfold set_s_buckets. cbn [s_valueByteLength]. f_equal.
    rewrite drop_insert_lt by lia.
    rewrite (take_S_r (<[lo:=b']> (s_buckets s)) lo b')
      by (apply list_lookup_insert_eq; lia).
    rewrite take_insert_ge by lia.
    rewrite <- app_assoc. cbn [app].
    by replace (S lo + n)%nat with (lo + S n)%nat by lia.
Qed.





(** ** The entries of a series *)

Lemma seriesStores_lookup (s : ZektaTimeSeries) (ess : list (list TimeSeriesEntry))
    (i : nat) (b : ZektaTimeBucket) :
  seriesStores s ess -> s_buckets s !! i = Some b ->
  exists es, ess !! i = Some es /\ stores (loaded b) es.
Proof.
  intros (_ & _ & Hall) Hb. by apply (Forall2_lookup_l _ _ _ _ _ Hall Hb).
Qed.

Lemma seriesStores_length (s : ZektaTimeSeries) (ess : list (list TimeSeriesEntry)) :
  seriesStores s ess -> length ess = length (s_buckets s).
Proof.
  intros (_ & _ & Hall). symmetry. by apply (Forall2_length _ _ _ Hall).
Qed.


(** The buckets of a series that stores entries have safe integer ids. *)
Lemma seriesStores_safe (s : ZektaTimeSeries) (ess : list (list TimeSeriesEntry)) :
  seriesStores s ess -> Forall (fun b => isSafeInteger (b_id b) = true) (s_buckets s).
Proof.
  intros (_ & _ & Hall). apply Forall_lookup. intros i b Hb.
  destruct (Forall2_lookup_l _ _ _ _ _ Hall Hb) as (es & _ & Hst).
  destruct Hst as (Hsafe & _). destruct (loaded_fields b) as (Hid & _).
  by rewrite Hid in Hsafe.
Qed.

Lemma filter_concat_nil {A} (f : A -> bool) (ls : list (list A)) :
  Forall (fun l => List.filter f l = []) ls -> List.filter f (concat ls) = [].
Proof.
  induction 1 as [|l ls Hl _ IH]; [reflexivity|].
  cbn [concat]. by rewrite List.filter_app, Hl, IH.
Qed.

Lemma map_seqZ_slice {A B} (g : A -> B) (d : A) (l : list A) : forall (n lo : nat),
  (lo + n <= length l)%nat ->
  map (fun i => g (default d (l !! Z.to_nat i))) (seqZ (Z.of_nat lo) (Z.of_nat n))
  = map g (take n (drop lo l)).
Proof.
  induction n as [|n IH]; intros lo Hlen.
  - replace (seqZ (Z.of_nat lo) (Z.of_nat 0)) with (@nil Z) by reflexivity.
    by rewrite take_0.
  - rewrite seqZ_cons by lia.
    replace (Z.succ (Z.of_nat lo)) with (Z.of_nat (S lo)) by lia.
    replace (Z.pred (Z.of_nat (S n))) with (Z.of_nat n) by lia.
    destruct (lookup_lt_is_Some_2 l lo ltac:(lia)) as [x Hx].
    rewrite (drop_S _ _ _ Hx). cbn [map take]. rewrite Nat2Z.id, Hx.
    cbn [default]. f_equal. apply IH. lia.
Qed.

(** The buckets [select] and [delete] of the series visit, on buckets in
    order with safe integer ids and a range with [from <= to]: a run of
    consecutive buckets, and every bucket outside the run is one that the
    [select] and the [delete] of a bucket leave at once, its range lying
    outside [[from, to]]. *)
Lemma range_indexes_outside (s : ZektaTimeSeries) (from to : Z) :
  bucketsInOrder s ->
  Forall (fun b => isSafeInteger (b_id b) = true) (s_buckets s) ->
  from <= to ->
  exists lo n : nat,
    getTimeRangeBucketIndexesInArray s {| range_from := from; range_to := to |}
    = {| range_from := Z.of_nat lo; range_to := Z.of_nat (lo + n) |} /\
    (lo + n <= length (s_buckets s))%nat /\
    Forall (fun b => (from >=? bucket_to b) || (to <? bucket_from b) = true)
           (take lo (s_buckets s)) /\
    Forall (fun b => (from >=? bucket_to b) || (to <? bucket_from b) = true)
           (drop (lo + n) (s_buckets s)).
Proof.
  intros Hsorted Hsafe Hft.
  destruct (bucket_search s (getIdFromTime from) Hsorted) as (Hk1 & Hbelow1 & _ & _).
  destruct (bucket_search s (getIdFromTime to) Hsorted) as (Hk2 & _ & Hat2 & Habove2).
  cbv zeta in *. unfold getTimeRangeBucketIndexesInArray. cbn [range_from range_to].
  set (len := Z.of_nat (length (s_buckets s))) in *.
  set (k1 := binarySearch len (fun i => bucketIdAt s i - getIdFromTime from)) in *.
  set (k2 := binarySearch len (fun i => bucketIdAt s i - getIdFromTime to)) in *.
  assert (Hids : getIdFromTime from <= getIdFromTime to).
  { unfold getIdFromTime, timeRange. apply Z.div_le_mono; lia. }
  assert (Hk12 : k1 <= k2).
  { destruct (Z.le_gt_cases k1 k2) as [|Hgt]; [assumption|exfalso].
    specialize (Hbelow1 k2 ltac:(lia)). specialize (Hat2 k2 ltac:(lia)). lia. }
  exists (Z.to_nat k1), (Z.to_nat (Z.min len (k2 + 1) - k1)).
  split; [f_equal; lia|]. split; [lia|].
  assert (Hout : forall (j : nat) b,
            s_buckets s !! j = Some b ->
            Z.of_nat j < k1 \/ Z.min len (k2 + 1) <= Z.of_nat j ->
            (from >=? bucket_to b) || (to <? bucket_from b) = true).
  { intros j b Hb Hj.
    pose proof (lookup_lt_Some _ _ _ Hb) as Hjlen.
    pose proof (bucketIdAt_lookup s j b Hb) as Hid.
    assert (Hside : b_id b < getIdFromTime from \/ getIdFromTime to < b_id b).
    { rewrite <- Hid. destruct Hj as [Hj | Hj].
      - left. apply Hbelow1. lia.
      - right. apply Habove2. unfold len in *. lia. }
    rewrite Forall_lookup in Hsafe. rewrite (bucket_to_safe b (Hsafe j b Hb)).
    unfold bucket_from, getTimeFromId, getIdFromTime, timeRange in *.
    pose proof (Z.div_mod from 512 ltac:(lia)).
    pose proof (Z.mod_pos_bound from 512 ltac:(lia)).
    pose proof (Z.div_mod to 512 ltac:(lia)).
    pose proof (Z.mod_pos_bound to 512 ltac:(lia)).
    apply orb_true_iff. rewrite Z.geb_le, Z.ltb_lt. lia. }
  split.
  - apply Forall_lookup. intros j b Hb.
    pose proof (lookup_lt_Some _ _ _ Hb) as Hj. rewrite length_take in Hj.
    rewrite lookup_take_lt in Hb by lia.
    apply (Hout j b Hb). lia.
  - apply Forall_lookup. intros j b Hb. rewrite lookup_drop in Hb.
    apply (Hout _ b Hb). lia.
Qed.

(** The run holds every bucket with an entry of the range. *)
Lemma range_indexes_cover (s : ZektaTimeSeries) (ess : list (list TimeSeriesEntry))
    (from to : Z) :
  seriesStores s ess -> from <= to ->
  exists lo n : nat,
    getTimeRangeBucketIndexesInArray s {| range_from := from; range_to := to |}
    = {| range_from := Z.of_nat lo; range_to := Z.of_nat (lo + n) |} /\
    (lo + n <= length ess)%nat /\
    Forall (fun es => List.filter (inTimeRange from to) es = []) (take lo ess) /\
    Forall (fun es => List.filter (inTimeRange from to) es = []) (drop (lo + n) ess).
Proof.
  intros Hst Hft.
  pose proof (seriesStores_length s ess Hst) as Hlen.
  pose proof (seriesStores_safe s ess Hst) as Hsafe.
  destruct Hst as (Hsorted & HV & Hall).
  destruct (range_indexes_outside s from to Hsorted Hsafe Hft)
    as (lo & n & Hindexes & Hhi & Hbefore & Hafter).
  exists lo, n. split; [exact Hindexes|]. split; [lia|].
  assert (Hout : forall bs' ess',
            Forall2 (fun b es => stores (loaded b) es) bs' ess' ->
            Forall (fun b => (from >=? bucket_to b) || (to <? bucket_from b) = true) bs' ->
            Forall (fun es => List.filter (inTimeRange from to) es = []) ess').
  { induction 1 as [|b es bs' ess' Hstb _ IH]; intros Hfar; [constructor|].
    apply Forall_cons in Hfar as [Hb Hfar]. constructor; [|by apply IH].
    apply (stores_out_of_range (loaded b) es Hstb).
    destruct (loaded_fields b) as (Hid & _).
    unfold bucket_to, bucket_from in *. by rewrite Hid. }
  split.
  - apply (Hout (take lo (s_buckets s))); [by apply Forall2_take | exact Hbefore].
  - apply (Hout (drop (lo + n) (s_buckets s))); [by apply Forall2_drop | exact Hafter].
Qed.

Lemma filter_range_slice (ess : list (list TimeSeriesEntry)) (lo n : nat)
    (from to : Z) :
  Forall (fun es => List.filter (inTimeRange from to) es = []) (take lo ess) ->
  Forall (fun es => List.filter (inTimeRange from to) es = []) (drop (lo + n) ess) ->
  concat (map (List.filter (inTimeRange from to)) (take n (drop lo ess)))
  = List.filter (inTimeRange from to) (concat ess).
Proof.
  intros Hbefore Hafter.
  rewrite <- (take_drop lo ess) at 2.
  rewrite <- (take_drop n (drop lo ess)) at 2.
  rewrite drop_drop, !concat_app, !List.filter_app.
  rewrite (filter_concat_nil _ _ Hbefore), (filter_concat_nil _ _ Hafter).
  by rewrite app_nil_r, concat_filter_map.
Qed.

(** What [select] of the series returns on a series that stores [ess]. *)
Lemma Series_select_stored (s : ZektaTimeSeries) (ess : list (list TimeSeriesEntry))
    (asc : bool) (from to : Z) :
  seriesStores s ess -> from <= to ->
  fst (Series_select {| opt_asc := asc; opt_from := from; opt_to := to |} s)
  = Returned (if asc then List.filter (inTimeRange from to) (concat ess)
              else reverse (List.filter (inTimeRange from to) (concat ess))).
Proof.
  intros Hst Hft.
  pose proof (seriesStores_length s ess Hst) as Hlen.
  destruct (range_indexes_cover s ess from to Hst Hft)
    as (lo & n & Hindexes & Hhi & Hbefore & Hafter).
  unfold Series_select. cbn [opt_asc opt_from opt_to]. rewrite Hindexes.
  cbn [range_from range_to].
  replace (Z.of_nat (lo + n) - Z.of_nat lo) with (Z.of_nat n) by lia.
  set (options := {| opt_asc := asc; opt_from := from; opt_to := to |}).
  set (visited := if asc then seqZ (Z.of_nat lo) (Z.of_nat n)
                  else reverse (seqZ (Z.of_nat lo) (Z.of_nat n))).
  set (pick := fun es : list TimeSeriesEntry =>
                 if asc then List.filter (inTimeRange from to) es
                 else reverse (List.filter (inTimeRange from to) es)).
  assert (Hnd : NoDup visited).
  { unfold visited. destruct asc; [apply NoDup_seqZ|].
    rewrite reverse_Permutation. apply NoDup_seqZ. }
  pose proof (allSettled_onBucket (select options) visited Hnd s s
                (fun _ _ => eq_refl)) as Hrun.
  assert (Heach : forall i, i ∈ visited ->
            fst (onBucket i (select options) s)
            = Returned (pick (default [] (ess !! Z.to_nat i)))).
  { intros i Hi.
    assert (Hrange : Z.of_nat lo <= i < Z.of_nat lo + Z.of_nat n).
    { unfold visited in Hi. destruct asc; [|rewrite elem_of_reverse in Hi];
        by apply elem_of_seqZ in Hi. }
    destruct (lookup_lt_is_Some_2 (s_buckets s) (Z.to_nat i) ltac:(lia)) as [b Hb].
    destruct (seriesStores_lookup s ess _ b Hst Hb) as (es & Hes & Hstb).
    rewrite onBucket_fst. destruct (Z.ltb_spec i 0); [lia|].
    rewrite Hb, Hes. cbn [default].
    rewrite select_loadData. fold (loaded b). unfold options.
    by rewrite (select_stored (loaded b) es Hstb asc from to Hft). }
  assert (Hresults : fst (allSettled (map (fun i => onBucket i (select options)) visited) s)
                     = map fulfilled
                         (map (fun i => pick (default [] (ess !! Z.to_nat i))) visited)).
  { rewrite Hrun, map_map. apply map_ext_in. intros i Hi.
    rewrite Heach by (by apply list_elem_of_In). reflexivity. }
  destruct (allSettled _ s) as [results s'] eqn:Hall. cbn [fst] in Hresults.
  subst results. unfold handlePromiseAllSettledResult.
  rewrite rejectedReasons_fulfilled, fulfilledValues_fulfilled. cbn [fst]. f_equal.
  rewrite <- (filter_range_slice ess lo n from to Hbefore Hafter).
  unfold visited, pick. destruct asc.
  - by rewrite (map_seqZ_slice _ [] ess n lo Hhi).
  - change (map ?f (reverse ?l)) with (f <$> reverse l).
    rewrite fmap_reverse. change (?f <$> ?l) with (map f l).
    rewrite (map_seqZ_slice (fun es => reverse (List.filter (inTimeRange from to) es))
               [] ess n lo Hhi).
    rewrite <- concat_reverse. by rewrite map_map.
Qed.











Lemma seriesStores_seriesOfThree :
  seriesStores seriesOfThree
    [[mkEntry 3 [8]; mkEntry 5 [1]; mkEntry 5 [2]; mkEntry 5 [3]; mkEntry 7 [9]];
     [mkEntry 600 [7]];
     [mkEntry 1030 [6]; mkEntry 1100 [7]]].
Proof.
  split; [exact bucketsInOrder_seriesOfThree|]. split.
  - repeat constructor.
  - constructor; [|constructor; [|constructor; [|constructor]]];
      (unfold stores; split; [reflexivity|]; split; [vm_compute; discriminate|];
       split; [|split; [repeat constructor | unfold timesOf; simpl; repeat constructor; lia]];
       eexists; split; [vm_compute; reflexivity|];
       split; [|split; vm_compute; reflexivity];
       split; [vm_compute; split; discriminate|];
       split; [intros _; reflexivity|];
       split; [intros _; vm_compute; discriminate | left; vm_compute; reflexivity]).
Qed.




(** ** Deleting, dropping and flushing across the buckets *)




Lemma settled_all_returned (m : M ZektaTimeBucket unit) (bs : list ZektaTimeBucket) :
  Forall (fun b => fst (m b) = Returned tt) bs ->
  map (fun b => settle (fst (m b))) bs = map fulfilled (map (fun _ => tt) bs).
Proof.
  intros Hall. rewrite map_map. apply map_ext_Forall.
  eapply Forall_impl; [exact Hall|]. intros b Hb. cbn beta. by rewrite Hb.
Qed.

(** Tasks on a run of consecutive buckets that all return. *)
Lemma concurrentPromises_range (m : M ZektaTimeBucket unit) (s : ZektaTimeSeries)
    (lo n : nat) :
  (lo + n <= length (s_buckets s))%nat ->
  Forall (fun b => fst (m b) = Returned tt) (take n (drop lo (s_buckets s))) ->
  concurrentPromises (map (fun i => onBucket i m) (seqZ (Z.of_nat lo) (Z.of_nat n))) s
  = (Returned tt,
     set_s_buckets (take lo (s_buckets s) ++
                    map (fun b => snd (m b)) (take n (drop lo (s_buckets s))) ++
                    drop (lo + n) (s_buckets s)) s).
Proof.
  intros Hlen Hall. unfold concurrentPromises.
  rewrite allSettled_range by exact Hlen.
  rewrite (settled_all_returned m _ Hall).
  unfold handlePromiseAllSettledResult.
  by rewrite rejectedReasons_fulfilled.
Qed.

(** Tasks on all the buckets that all return. *)
Lemma concurrentPromises_all (m : M ZektaTimeBucket unit) (s : ZektaTimeSeries) :
  Forall (fun b => fst (m b) = Returned tt) (s_buckets s) ->
  concurrentPromises (map (fun i => onBucket i m) (bucketIndexes s)) s
  = (Returned tt, set_s_buckets (map (fun b => snd (m b)) (s_buckets s)) s).
Proof.
  intros Hall. unfold bucketIndexes.
  pose proof (concurrentPromises_range m s 0 (length (s_buckets s))) as Hrun.
  change (Z.of_nat 0) with 0 in Hrun.
  rewrite Hrun; [|lia|by rewrite drop_0, firstn_all].
  rewrite drop_0, firstn_all, take_0. cbn [Nat.add app].
  by rewrite drop_all, app_nil_r.
Qed.

Lemma seriesStores_each (s : ZektaTimeSeries) (ess : list (list TimeSeriesEntry))
    (P : ZektaTimeBucket -> Prop) :
  seriesStores s ess ->
  (forall b es, stores (loaded b) es -> P b) ->
  Forall P (s_buckets s).
Proof.
  intros (_ & _ & Hall) HP. apply Forall_lookup. intros i b Hb.
  destruct (Forall2_lookup_l _ _ _ _ _ Hall Hb) as (es & _ & Hst). by apply (HP b es).
Qed.

(** A task on every bucket that keeps the ids and the value lengths keeps
    the series in shape. *)
Lemma seriesStores_map (s : ZektaTimeSeries) (ess : list (list TimeSeriesEntry))
    (g : ZektaTimeBucket -> ZektaTimeBucket)
    (h : list TimeSeriesEntry -> list TimeSeriesEntry) :
  seriesStores s ess ->
  (forall b, b_id (g b) = b_id b /\ b_valueByteLength (g b) = b_valueByteLength b) ->
  (forall b es, stores (loaded b) es -> stores (loaded (g b)) (h es)) ->
  seriesStores (set_s_buckets (map g (s_buckets s)) s) (map h ess).
Proof.
  intros (Hsorted & HV & Hall) Hfields Hstores.
  split; [|split]; cbn [s_buckets set_s_buckets s_valueByteLength].
  - unfold bucketsInOrder, bucketIds in *. cbn [s_buckets set_s_buckets].
    rewrite map_map. erewrite map_ext; [exact Hsorted|].
    intros b. apply Hfields.
  - change (map g ?l) with (g <$> l). apply Forall_fmap.
    eapply Forall_impl; [exact HV|]. intros b Hb. cbn.
    by rewrite (proj2 (Hfields b)).
  - change (map g ?l) with (g <$> l). change (map h ?l) with (h <$> l).
    apply Forall2_fmap_2. eapply Forall2_impl; [exact Hall|].
    intros b es. apply Hstores.
Qed.



Lemma drop_fields (b : ZektaTimeBucket) :
  b_id (snd (drop_ b)) = b_id b /\
  b_valueByteLength (snd (drop_ b)) = b_valueByteLength b /\
  b_file (snd (drop_ b)) = b_file b.
Proof.
  destruct (loaded_fields b) as (Hid & HV & _ & Hfile).
  unfold drop_. rewrite runDataOperation_unfold. fold (loaded b).
  unfold bind, gets.
  destruct (_ =? 0); [by repeat split|].
  unfold onData. destruct (resize 0 _) as [[[]|e] d2]; by repeat split.
Qed.

(** [drop] on a bucket that stores [es] once loaded. *)
Lemma drop_any (b : ZektaTimeBucket) (es : list TimeSeriesEntry) :
  stores (loaded b) es ->
  exists b', drop_ b = (Returned tt, b') /\ stores (loaded b') [].
Proof.
  intros Hst.
  pose proof (stores_R _ es Hst) as HR.
  pose proof (stores_length _ es Hst) as HL.
  destruct (stores_bytes _ es Hst) as (d & Hd & Hdata & Hwf & _ & _).
  unfold drop_. rewrite runDataOperation_unfold. fold (loaded b).
  unfold bind, gets. rewrite HL.
  destruct (Z.eqb_spec (Z.of_nat (length es) * entryByteLength (loaded b)) 0) as [H0|Hn0].
  - assert (es = []) by (destruct es; [reflexivity | simpl in H0; nia]). subst es.
    exists (loaded b). split; [reflexivity|].
    unfold loaded at 1. by rewrite (stores_loaded _ _ Hst).
  - unfold onData. rewrite Hdata.
    rewrite resize_within
      by (try exact Hwf; pose proof (byteLength_nonneg d); lia).
    eexists. split; [reflexivity|].
    destruct Hst as (Hsafe & HV & _ & _ & _).
    unfold stores, loaded, loadData, modify.
    cbn [snd b_id b_valueByteLength b_data set_b_data set_b_requireFlush].
    split; [exact Hsafe|]. split; [exact HV|]. split; [|split; constructor].
    eexists. split; [reflexivity|].
    split; [|split; reflexivity].
    apply wellFormedBuffer_set_rb_length; [|exact Hwf].
    pose proof (viewByteLength_le d). lia.
Qed.

(** X26.  [drop] of a series.  On a series that stores [ess], [drop]
    returns; every bucket is kept, in the same order, and stores no entry,
    and every [select] returns none. *)
Theorem Series_drop_empties (s : ZektaTimeSeries) (ess : list (list TimeSeriesEntry)) :
  seriesStores s ess ->
  exists s',
    Series_drop s = (Returned tt, s') /\
    seriesStores s' (map (fun _ => []) ess) /\
    bucketIds s' = bucketIds s /\
    forall asc from to,
      from <= to ->
      fst (Series_select {| opt_asc := asc; opt_from := from; opt_to := to |} s')
      = Returned [].
Proof.
  intros Hst.
  set (g := fun b => snd (drop_ b)).
  assert (Hreturns : Forall (fun b => fst (drop_ b) = Returned tt) (s_buckets s)).
  { apply (seriesStores_each s ess _ Hst). intros b es Hstb.
    destruct (drop_any b es Hstb) as (b' & Hdrop & _). by rewrite Hdrop. }
  assert (Hst' : seriesStores (set_s_buckets (map g (s_buckets s)) s)
                   (map (fun _ => []) ess)).
  { apply seriesStores_map; [exact Hst| |].
    - intros b. destruct (drop_fields b) as (Hid & HV & _). by split.
    - intros b es Hstb. destruct (drop_any b es Hstb) as (b' & Hdrop & Hstb').
      unfold g. by rewrite Hdrop. }
  eexists. split; [|split; [exact Hst'|split]].
  - unfold Series_drop. by apply concurrentPromises_all.
  - unfold bucketIds. cbn [s_buckets set_s_buckets]. rewrite map_map.
    apply map_ext. intros b. apply (drop_fields b).
  - intros asc from to Hft.
    rewrite (Series_select_stored _ _ asc from to Hst' Hft).
    rewrite filter_concat_nil; [by destruct asc|].
    change (map ?f ?l) with (f <$> l). apply Forall_fmap, Forall_true.
    intros es. reflexivity.
Qed.

Lemma Series_drop_empties_witness :
  exists s',
    Series_drop seriesOfThree = (Returned tt, s') /\
    bucketIds s' = bucketIds seriesOfThree.
Proof.
  destruct (Series_drop_empties seriesOfThree _ seriesStores_seriesOfThree)
    as (s' & Hdrop & _ & Hids & _).
  exists s'. split; [exact Hdrop | exact Hids].
Defined.

(** X27.  [flush] of a series.  On buckets that satisfy the assertion of
    [flush], it returns after flushing every bucket: the array holds the
    same buckets in the same order, each as its own [flush] leaves it, every
    dirty flag is clear, and with [unload] no bucket keeps its data. *)
Theorem Series_flush_cleans (s : ZektaTimeSeries) (unload : bool) :
  Forall flushAssertionHolds (s_buckets s) ->
  exists s',
    Series_flush unload s = (Returned tt, s') /\
    s_buckets s' = map (fun b => snd (flush unload b)) (s_buckets s) /\
    bucketIds s' = bucketIds s /\
    Forall (fun b => b_requireFlush b = false) (s_buckets s') /\
    (unload = true -> Forall (fun b => b_data b = None) (s_buckets s')).
Proof.
  intros Hinv.
  assert (Heach : forall b, flushAssertionHolds b ->
            fst (flush unload b) = Returned tt /\
            b_id (snd (flush unload b)) = b_id b /\
            b_requireFlush (snd (flush unload b)) = false /\
            (unload = true -> b_data (snd (flush unload b)) = None)).
  { intros b Hb. unfold flush, flushAssertionHolds in *.
    destruct (b_requireFlush b) eqn:Hflag.
    - destruct (b_data b) as [d|] eqn:Hd; [|by exfalso; apply Hb].
      destruct unload; cbn [fst snd]; repeat split; try reflexivity;
        try discriminate; destruct (rb_length d =? 0); reflexivity.
    - destruct unload; cbn [fst snd]; repeat split; try reflexivity;
        try exact Hflag; discriminate. }
  exists (set_s_buckets (map (fun b => snd (flush unload b)) (s_buckets s)) s).
  split; [|split; [reflexivity|split; [|split]]].
  - unfold Series_flush. apply concurrentPromises_all.
    eapply Forall_impl; [exact Hinv|]. intros b Hb. by apply Heach.
  - unfold bucketIds. cbn [s_buckets set_s_buckets]. rewrite map_map.
    apply map_ext_Forall. eapply Forall_impl; [exact Hinv|].
    intros b Hb. by apply Heach.
  - cbn [s_buckets set_s_buckets].
    change (map ?f ?l) with (f <$> l). apply Forall_fmap.
    eapply Forall_impl; [exact Hinv|]. intros b Hb. by apply Heach.
  - intros Hunload. cbn [s_buckets set_s_buckets].
    change (map ?f ?l) with (f <$> l). apply Forall_fmap.
    eapply Forall_impl; [exact Hinv|]. intros b Hb. by apply Heach.
Qed.

Lemma Series_flush_cleans_witness :
  exists s',
    Series_flush true seriesOfThree = (Returned tt, s') /\
    Forall (fun b => b_requireFlush b = false) (s_buckets s').
Proof.
  destruct (Series_flush_cleans seriesOfThree true) as (s' & Hflush & _ & _ & Hclean & _).
  - repeat constructor; intros _; vm_compute; discriminate.
  - exists s'. split; [exact Hflush | exact Hclean].
Defined.

(** ** A batch across the buckets *)





(** ** Series of numbers *)

Lemma length_DataView_setInteger (n input : Z) :
  0 <= n -> length (DataView_setInteger n input) = Z.to_nat n.
Proof.
  intros Hn. pose proof (length_Z_to_little_endian n 8 input Hn).
  unfold DataView_setInteger. lia.
Qed.

Lemma DataView_getUint_setInteger (n input : Z) :
  0 <= n ->
  DataView_getUint n (DataView_setInteger n input) = Returned (input mod 2 ^ (8 * n)).
Proof.
  intros Hn. unfold DataView_getUint.
  rewrite length_DataView_setInteger by exact Hn.
  destruct (Z.ltb_spec (Z.of_nat (Z.to_nat n)) n); [lia|].
  rewrite <- (length_DataView_setInteger n input Hn), firstn_all.
  unfold DataView_setInteger.
  rewrite little_endian_to_Z_to_little_endian by lia.
  by rewrite Z.mul_comm.
Qed.

Lemma DataView_getInt_setInteger (n input : Z) :
  0 <= n ->
  DataView_getInt n (DataView_setInteger n input)
  = Returned (let u := input mod 2 ^ (8 * n) in
              if u <? 2 ^ (8 * n - 1) then u else u - 2 ^ (8 * n)).
Proof.
  intros Hn. unfold DataView_getInt.
  rewrite length_DataView_setInteger by exact Hn.
  destruct (Z.ltb_spec (Z.of_nat (Z.to_nat n)) n); [lia|].
  rewrite <- (length_DataView_setInteger n input Hn), firstn_all.
  unfold DataView_setInteger.
  rewrite little_endian_to_Z_to_little_endian by lia.
  by rewrite (Z.mul_comm n 8).
Qed.

Lemma wrap_unsigned (w input : Z) :
  0 < w ->
  let output := input mod 2 ^ w in
  0 <= output < 2 ^ w /\
  (output - input) mod 2 ^ w = 0 /\
  (0 <= input < 2 ^ w -> output = input).
Proof.
  intros Hw. cbv zeta.
  assert (Hpos : 0 < 2 ^ w) by (apply Z.pow_pos_nonneg; lia).
  split; [apply Z.mod_pos_bound; lia|]. split.
  - rewrite Zminus_mod, Z.mod_mod, Z.sub_diag by lia. apply Z.mod_0_l. lia.
  - intros Hin. apply Z.mod_small. exact Hin.
Qed.

Lemma wrap_signed (w input : Z) :
  0 < w ->
  let u := input mod 2 ^ w in
  let output := if u <? 2 ^ (w - 1) then u else u - 2 ^ w in
  - 2 ^ (w - 1) <= output < 2 ^ (w - 1) /\
  (output - input) mod 2 ^ w = 0 /\
  (- 2 ^ (w - 1) <= input < 2 ^ (w - 1) -> output = input).
Proof.
  intros Hw. cbv zeta.
  assert (Hhalf : 2 ^ w = 2 * 2 ^ (w - 1)).
  { replace w with (Z.succ (w - 1)) at 1 by lia. apply Z.pow_succ_r. lia. }
  assert (Hpos : 0 < 2 ^ (w - 1)) by (apply Z.pow_pos_nonneg; lia).
  pose proof (Z.mod_pos_bound input (2 ^ w) ltac:(lia)) as Hu.
  pose proof (Z.div_mod input (2 ^ w) ltac:(lia)) as Hdiv.
  set (u := input mod 2 ^ w) in *. set (q := input / 2 ^ w) in *.
  destruct (Z.ltb_spec u (2 ^ (w - 1))) as [Hlow | Hhigh].
  - split; [lia|]. split.
    + replace (u - input) with (- q * 2 ^ w) by lia. apply Z_mod_mult.
    + intros Hin. assert (q = 0) by nia. lia.
  - split; [lia|]. split.
    + replace (u - 2 ^ w - input) with ((- q - 1) * 2 ^ w) by lia. apply Z_mod_mult.
    + intros Hin. assert (q = -1) by nia. lia.
Qed.

(** X29.  The converters of the integer number types.  The bytes written
    for a number have the byte length of the type, so a bucket of the series
    accepts them; reading them back gives a number the type represents that
    is congruent to the one written modulo [2^(8 * byteLength)]: a number
    the type represents comes back unchanged, any other integer is stored
    wrapped around, without an error. *)
Theorem number_converters_round_trip (type : ZektaIntegerTimeSeriesType) (input : Z) :
  let byteLength := zektaNumberTimeSeriesTypeToByteLength (numberType type) in
  Z.of_nat (length (zektaNumberTimeSeriesTypeToNumberToUint8Array type input))
  = byteLength /\
  exists output,
    zektaNumberTimeSeriesTypeToUint8ArrayToNumber type
      (zektaNumberTimeSeriesTypeToNumberToUint8Array type input)
    = Returned output /\
    representable type output = true /\
    (output - input) mod 2 ^ (8 * byteLength) = 0 /\
    (representable type input = true -> output = input).
Proof.
  cbv zeta. split.
  - destruct type; cbn [zektaNumberTimeSeriesTypeToNumberToUint8Array numberType
                        zektaNumberTimeSeriesTypeToByteLength];
      rewrite length_DataView_setInteger; lia.
  - destruct type;
      cbn [zektaNumberTimeSeriesTypeToNumberToUint8Array numberType
           zektaNumberTimeSeriesTypeToUint8ArrayToNumber
           zektaNumberTimeSeriesTypeToByteLength representable];
      rewrite ?DataView_getUint_setInteger, ?DataView_getInt_setInteger by lia;
      eexists; (split; [reflexivity|]); cbv zeta;
      rewrite ?andb_true_iff, ?Z.leb_le, ?Z.ltb_lt.
    + apply (wrap_unsigned 8 input). lia.
    + apply (wrap_signed 8 input). lia.
    + apply (wrap_unsigned 16 input). lia.
    + apply (wrap_signed 16 input). lia.
    + apply (wrap_unsigned 32 input). lia.
    + apply (wrap_signed 32 input). lia.
Qed.







